(** * Wind Tunnel Aero Tester: the 2D aerodynamic physics engine

    A shallow embedding of the physics engine of the wind tunnel tester
    (the module exporting [calculateDrag]) and of the [POST /api/simulate]
    route that calls it, together with the properties of the engine that
    its specification states.

    Numbers.  The engine computes with JavaScript numbers.  They are
    modelled as the extended real line with a NaN ([num]): every finite
    value is a real number and arithmetic on finite values is exact, so
    rounding and overflow of binary64 are not modelled, and the two zeros
    of IEEE 754 are one ([0] behaves as [+0]).  The infinities and NaN
    follow IEEE 754, because the engine produces them on purpose
    ([Infinity] as the start value of a minimum search) and by accident
    (a missing parameter is [undefined], which becomes NaN).  Since a
    product of finite numbers is finite here whatever its size, a
    property that says that a computed number is finite is stated for
    inputs within explicit bounds and comes with bounds on the results,
    all of them far inside the range of binary64.

    Outcomes.  A call returns, throws or runs forever ([outcome]); the
    only loops that may not end are the two that normalize the angle.
    They end on every finite angle of magnitude up to [2^62]; above it a
    binary64 number absorbs the turn that a pass takes off, and the loop
    runs forever.  This is the one effect of rounding that the model has.

    The file has the embedding first (numbers, the engine function by
    function in the order of the source, the route, the serverless
    handler, the smoothing of the canvas and the coefficient tables of the
    3D engine), then the lemmas, the properties C1 to C10 of the
    specification, and at the end further properties X1 to X22 that the
    code has. *)

From Stdlib Require Import Reals Lra Lia List Bool ZArith String.
From Equations Require Import Equations.
Import ListNotations.

Open Scope R_scope.

(* ================================================================== *)
(** ** JavaScript numbers *)
(* ================================================================== *)

Module JS.

Inductive num : Type :=
| Fin (r : R)
| PInf
| NInf
| NaN.

Coercion Fin : R >-> num.

Declare Scope js_scope.
Delimit Scope js_scope with js.
Bind Scope js_scope with num.

(** Boolean comparisons of reals. *)
Definition Rltb (a b : R) : bool := if Rlt_dec a b then true else false.
Definition Reqb (a b : R) : bool := if Req_dec_T a b then true else false.

(** [a < b]; false as soon as one side is NaN. *)
Definition nlt (a b : num) : bool :=
  match a, b with
  | NaN, _ | _, NaN => false
  | Fin x, Fin y => Rltb x y
  | NInf, (Fin _ | PInf) => true
  | Fin _, PInf => true
  | _, _ => false
  end.

(** [a > b] *)
Definition ngt (a b : num) : bool := nlt b a.

(** [a === b] on numbers; NaN differs from itself. *)
Definition neqb (a b : num) : bool :=
  match a, b with
  | Fin x, Fin y => Reqb x y
  | PInf, PInf | NInf, NInf => true
  | _, _ => false
  end.

Definition nneg (a : num) : num :=
  match a with
  | Fin x => Fin (- x)
  | PInf => NInf
  | NInf => PInf
  | NaN => NaN
  end.

Definition nadd (a b : num) : num :=
  match a, b with
  | NaN, _ | _, NaN => NaN
  | Fin x, Fin y => Fin (x + y)
  | PInf, NInf | NInf, PInf => NaN
  | PInf, _ | _, PInf => PInf
  | NInf, _ | _, NInf => NInf
  end.

Definition nsub (a b : num) : num := nadd a (nneg b).

(** The infinity with the sign of [x * s], NaN for [x = 0]. *)
Definition scaled_inf (x : R) (positive : bool) : num :=
  if Rltb 0 x then (if positive then PInf else NInf)
  else if Rltb x 0 then (if positive then NInf else PInf)
  else NaN.

(** [a * b]; the product of two finite numbers is the product of the
    reals, of any size. *)
Definition nmul (a b : num) : num :=
  match a, b with
  | NaN, _ | _, NaN => NaN
  | Fin x, Fin y => Fin (x * y)
  | Fin x, PInf | PInf, Fin x => scaled_inf x true
  | Fin x, NInf | NInf, Fin x => scaled_inf x false
  | PInf, PInf | NInf, NInf => PInf
  | PInf, NInf | NInf, PInf => NInf
  end.

Definition ndiv (a b : num) : num :=
  match a, b with
  | NaN, _ | _, NaN => NaN
  | Fin x, Fin y => if Reqb y 0 then scaled_inf x true else Fin (x / y)
  | Fin _, (PInf | NInf) => Fin 0
  | PInf, Fin y => if Rltb y 0 then NInf else PInf
  | NInf, Fin y => if Rltb y 0 then PInf else NInf
  | _, _ => NaN
  end.

Notation "a + b" := (nadd a b) : js_scope.
Notation "a - b" := (nsub a b) : js_scope.
Notation "a * b" := (nmul a b) : js_scope.
Notation "a / b" := (ndiv a b) : js_scope.
Notation "- a" := (nneg a) : js_scope.
Notation "a <? b" := (nlt a b) (at level 70) : js_scope.
Notation "a >? b" := (ngt a b) (at level 70) : js_scope.
Notation "a === b" := (neqb a b) (at level 70) : js_scope.

(** [Math.abs] *)
Definition Math_abs (a : num) : num :=
  match a with
  | Fin x => Fin (Rabs x)
  | PInf | NInf => PInf
  | NaN => NaN
  end.

(** [Math.max] and [Math.min] of two arguments: NaN if either is NaN. *)
Definition Math_max (a b : num) : num :=
  match a, b with
  | NaN, _ | _, NaN => NaN
  | _, _ => if nlt a b then b else a
  end.

Definition Math_min (a b : num) : num :=
  match a, b with
  | NaN, _ | _, NaN => NaN
  | _, _ => if nlt b a then b else a
  end.

(** [Math.sqrt] *)
Definition Math_sqrt (a : num) : num :=
  match a with
  | Fin x => if Rltb x 0 then NaN else Fin (R_sqrt.sqrt x)
  | PInf => PInf
  | _ => NaN
  end.

(** [Math.sin], [Math.cos], [Math.exp], [Math.log10] *)
Definition Math_sin (a : num) : num :=
  match a with Fin x => Fin (Rtrigo_def.sin x) | _ => NaN end.

Definition Math_cos (a : num) : num :=
  match a with Fin x => Fin (Rtrigo_def.cos x) | _ => NaN end.

Definition Math_exp (a : num) : num :=
  match a with
  | Fin x => Fin (Rtrigo_def.exp x)
  | PInf => PInf
  | NInf => Fin 0
  | NaN => NaN
  end.

Definition Math_log10 (a : num) : num :=
  match a with
  | Fin x => if Rltb x 0 then NaN
             else if Reqb x 0 then NInf
             else Fin (ln x / ln 10)
  | PInf => PInf
  | _ => NaN
  end.

(** [Math.pow(a, 2)] *)
Definition Math_pow2 (a : num) : num := nmul a a.

(** [Math.atan2(y, x)], with the conventions of IEEE 754 at the
    infinities. *)
Definition Math_atan2 (y x : num) : num :=
  match y, x with
  | NaN, _ | _, NaN => NaN
  | Fin b, Fin a =>
      if Rltb 0 a then Fin (atan (b / a))
      else if Rltb a 0 then
             (if Rltb b 0 then Fin (atan (b / a) - PI)
              else Fin (atan (b / a) + PI))
      else if Rltb 0 b then Fin (PI / 2)
      else if Rltb b 0 then Fin (- (PI / 2))
      else Fin 0
  | Fin b, PInf => Fin 0
  | Fin b, NInf => if Rltb b 0 then Fin (- PI) else Fin PI
  | PInf, Fin _ => Fin (PI / 2)
  | NInf, Fin _ => Fin (- (PI / 2))
  | PInf, PInf => Fin (PI / 4)
  | NInf, PInf => Fin (- (PI / 4))
  | PInf, NInf => Fin (3 * PI / 4)
  | NInf, NInf => Fin (- (3 * PI / 4))
  end.

Definition Math_PI : num := Fin PI.

(** [x.toFixed(digits)], read back as the number its decimal string
    denotes: the nearest multiple of [10^-digits], a tie going away from
    zero; values of magnitude [1e21] and more are printed in full, and the
    infinities and NaN by name. *)
Definition round_half_away (x : R) : Z :=
  if Rltb x 0 then (- Int_part (- x + / 2))%Z else Int_part (x + / 2).

Definition toFixed (a : num) (digits : nat) : num :=
  match a with
  | Fin x =>
      if Rltb (Rabs x) 1e21 then
        Fin (IZR (round_half_away (x * 10 ^ digits)) / 10 ^ digits)
      else Fin x
  | _ => a
  end.

(** A property that may be absent: [None] is [undefined]. *)
Definition ToNumber (v : option num) : num :=
  match v with Some a => a | None => NaN end.

(** Truthiness of a number or [undefined], as [||] and [&&] test it. *)
Definition truthy (v : option num) : bool :=
  match v with
  | None => false
  | Some NaN => false
  | Some (Fin x) => negb (Reqb x 0)
  | Some _ => true
  end.

(** [v || d] for a numeric default [d]. *)
Definition or_default (v : option num) (d : num) : num :=
  if truthy v then ToNumber v else d.

End JS.

Import JS.
Open Scope js_scope.

(* ================================================================== *)
(** ** Outcomes of a call *)
(* ================================================================== *)

(** A call returns a value, throws (the engine only ever throws the
    [TypeError] of a property read on [undefined]), or runs forever. *)
Inductive exn : Type := TypeError.

Inductive outcome (A : Type) : Type :=
| Returns (a : A)
| Throws (e : exn)
| Diverges.

Arguments Returns {A} a.
Arguments Throws {A} e.
Arguments Diverges {A}.

Definition bind {A B : Type} (m : outcome A) (k : A -> outcome B) : outcome B :=
  match m with
  | Returns a => k a
  | Throws e => Throws e
  | Diverges => Diverges
  end.

Notation "x <- m ;; k" := (bind m (fun x => k))
  (at level 61, m at next level, right associativity).

(* ================================================================== *)
(** ** The physics engine *)
(* ================================================================== *)

(** Physical constants *)
Definition AIR_DYNAMIC_VISCOSITY : num := 1.81e-5.
Definition PIXELS_PER_METER : num := 100.

(** A point is the array [[x, y]]; [p0] and [p1] read [p[0]] and [p[1]]. *)
Definition point : Type := (num * num)%type.
Definition p0 (p : point) : num := fst p.
Definition p1 (p : point) : num := snd p.

(** Calculate centroid of polygon *)
Definition getCentroid (points : list point) : point :=
  let n := List.length points in
  if Nat.eqb n 0 then (Fin 0, Fin 0)
  else
    let '(x, y) :=
      fold_left (fun '(x, y) p => (x + p0 p, y + p1 p)) points (Fin 0, Fin 0) in
    (x / INR n, y / INR n).

(** Rotate points around centroid *)
Definition rotatePoints (points : list point) (angleDegrees : num) : list point :=
  let angleRad := (angleDegrees * Math_PI) / 180 in
  let cosKey := Math_cos angleRad in
  let sinKey := Math_sin angleRad in
  let centroid := getCentroid points in
  map (fun p =>
         let dx := p0 p - p0 centroid in
         let dy := p1 p - p1 centroid in
         (p0 centroid + (dx * cosKey - dy * sinKey),
          p1 centroid + (dx * sinKey + dy * cosKey)))
      points.

(** Get bounding box *)
Record BoundingBox : Type := mkBounds {
  width : num;
  height : num;
  minX : num;
  maxX : num;
  minY : num;
  maxY : num
}.

Definition boundsStep (acc : num * num * num * num) (p : point)
  : num * num * num * num :=
  let '(mnX, mxX, mnY, mxY) := acc in
  (if p0 p <? mnX then p0 p else mnX,
   if p0 p >? mxX then p0 p else mxX,
   if p1 p <? mnY then p1 p else mnY,
   if p1 p >? mxY then p1 p else mxY).

Definition getBoundingBox (points : list point) : BoundingBox :=
  let '(mnX, mxX, mnY, mxY) := fold_left boundsStep points (PInf, NInf, PInf, NInf) in
  {| width := mxX - mnX;
     height := mxY - mnY;
     minX := mnX; maxX := mxX; minY := mnY; maxY := mxY |}.

(** Calculate polygon area using shoelace formula.  [at_ points i] is
    [points[i]] for an index in range. *)
Definition at_ (points : list point) (i : nat) : point := nth i points (NaN, NaN).

Definition areaStep (points : list point) (area : num) (i : nat) : num :=
  let n := List.length points in
  let j := ((i + 1) mod n)%nat in
  area + (p0 (at_ points i) * p1 (at_ points j) - p0 (at_ points j) * p1 (at_ points i)).

Definition calculatePolygonArea (points : list point) : num :=
  let n := List.length points in
  let area := fold_left (areaStep points) (List.seq 0 n) (Fin 0) in
  Math_abs area / 2.

(** Calculate Reynolds number *)
Definition calculateReynolds
    (velocity characteristicLength density dynamicViscosity : num) : num :=
  (density * velocity * characteristicLength) / dynamicViscosity.

(** Classify shape based on geometry *)
Definition classifyShape (points : list point) (bounds : BoundingBox) (solidity : num)
  : string :=
  let aspectRatio := width bounds / height bounds in
  let isCircular :=
    (solidity >? 0.70) && (solidity <? 0.82) && (aspectRatio >? 0.8) && (aspectRatio <? 1.25) in
  let isRectangular := (solidity >? 0.85) && Nat.eqb (List.length points) 4 in
  let isStreamlined :=
    (aspectRatio >? 3.0) || ((aspectRatio <? 0.33) && (aspectRatio >? 0)) in
  if isCircular then "circular"%string
  else if isRectangular then "rectangular"%string
  else if isStreamlined then "streamlined"%string
  else "bluff"%string.

(** Analyze shape geometry for lift characteristics and symmetry.  The
    record is a JavaScript object: a property that is not written is
    absent, and reads as [undefined] ([None]). *)
Record Geometry : Type := mkGeometry {
  maxCamber : option num;
  camber : option num;
  thickness : num;
  isSymmetric : bool;
  teAngle : num;
  leRadius : num
}.

(** The search for the leading and the trailing edge.  [pLE] and [pTE]
    are references to elements of [points]; the state holds their
    indices, which is what [points.indexOf] gives back later, with the
    two running minima. *)
Definition edgeStep (mnX mxX : num) (st : nat * nat * num * num) (ip : nat * point)
  : nat * nat * num * num :=
  let '(iLE, iTE, minDistLE, minDistTE) := st in
  let '(i, p) := ip in
  let dLE := Math_abs (p0 p - mnX) in
  let dTE := Math_abs (p0 p - mxX) in
  (if dLE <? minDistLE then i else iLE,
   if dTE <? minDistTE then i else iTE,
   if dLE <? minDistLE then dLE else minDistLE,
   if dTE <? minDistTE then dTE else minDistTE).

(** The loop over the signed distances to the chord. *)
Definition sideStep (pLE : point) (nx ny : num)
    (st : num * num * num * num * num) (p : point)
  : num * num * num * num * num :=
  let '(upperArea, lowerArea, sumY, maxUpper, maxLower) := st in
  let px := p0 p - p0 pLE in
  let py := p1 p - p1 pLE in
  let dist := px * nx + py * ny in
  let sumY := sumY + dist in
  if dist >? 0 then
    (upperArea + dist, lowerArea, sumY,
     (if dist >? maxUpper then dist else maxUpper), maxLower)
  else
    (upperArea, lowerArea + Math_abs dist, sumY,
     maxUpper, (if Math_abs dist >? maxLower then dist else maxLower)).

Definition analyzeGeometry (points : list point) (bounds : BoundingBox)
  : outcome Geometry :=
  let mnX := minX bounds in
  let mxX := maxX bounds in
  let chordLength := mxX - mnX in
  if chordLength === 0 then
    Returns {| maxCamber := Some (Fin 0); camber := None; thickness := 0;
               isSymmetric := true; teAngle := 180; leRadius := 0 |}
  else
    let n := List.length points in
    (* 1. Identification of Key Points *)
    let '(pLEIndex, pTEIndex, _, _) :=
      fold_left (edgeStep mnX mxX) (combine (List.seq 0 n) points)
                (0%nat, 0%nat, PInf, PInf) in
    match nth_error points pLEIndex, nth_error points pTEIndex with
    | Some pLE, Some pTE =>
        let dy := p1 pTE - p1 pLE in
        let dx := p0 pTE - p0 pLE in
        let len := Math_sqrt (dx * dx + dy * dy) in
        let ux := dx / len in
        let uy := dy / len in
        let nx := - uy in
        let ny := ux in
        let '(upperArea, lowerArea, sumY, maxUpper, maxLower) :=
          fold_left (sideStep pLE nx ny) points (Fin 0, Fin 0, Fin 0, Fin 0, Fin 0) in
        let avgDeviation := sumY / INR n in
        let normalizedCamber := (- avgDeviation) / chordLength in
        let thicknessRatio := height bounds / chordLength in
        (* 2. Symmetry Detection *)
        let areaRatio :=
          if (upperArea >? 0) && (lowerArea >? 0)
          then Math_min upperArea lowerArea / Math_max upperArea lowerArea
          else Fin 0 in
        let maxThickRatio :=
          if (maxUpper >? 0) && (maxLower >? 0)
          then Math_min maxUpper maxLower / Math_max maxUpper maxLower
          else Fin 0 in
        let symmetric :=
          (areaRatio >? 0.85) && (maxThickRatio >? 0.85)
          && (Math_abs normalizedCamber <? 0.02) in
        (* 3. Trailing Edge Angle Analysis; [(i - 1 + n) % n] is written
           [(i + n - 1) mod n] on natural numbers *)
        let prev := nth ((pTEIndex + n - 1) mod n) points pTE in
        let next := nth ((pTEIndex + 1) mod n) points pTE in
        let v1x := p0 prev - p0 pTE in
        let v1y := p1 prev - p1 pTE in
        let v2x := p0 next - p0 pTE in
        let v2y := p1 next - p1 pTE in
        let angle1 := Math_atan2 v1y v1x in
        let angle2 := Math_atan2 v2y v2x in
        let teAngleDeg0 := Math_abs ((angle1 - angle2) * 180 / Math_PI) in
        let teAngleDeg := if teAngleDeg0 >? 180 then 360 - teAngleDeg0 else teAngleDeg0 in
        (* 4. Leading Edge Radius (Heuristic) *)
        let prevLE := nth ((pLEIndex + n - 1) mod n) points pLE in
        let nextLE := nth ((pLEIndex + 1) mod n) points pLE in
        let leWidth :=
          Math_sqrt (Math_pow2 (p0 prevLE - p0 nextLE) + Math_pow2 (p1 prevLE - p1 nextLE)) in
        let leRad := leWidth / (2 * chordLength) in
        Returns {| maxCamber := None;
                   camber := Some normalizedCamber;
                   thickness := thicknessRatio;
                   isSymmetric := symmetric;
                   teAngle := teAngleDeg;
                   leRadius := leRad |}
    | _, _ => Throws TypeError   (* [pTE[1]] with [pTE] undefined *)
    end.

(** The final clamp of the drag coefficient *)
Definition clampCd (cd : num) : num := Math_max 0.01 (Math_min cd 2.5).

(** Calculate drag coefficient based on shape and Reynolds number.
    [geometry] is [None] when the caller passes no sixth argument; the
    destructuring of [geometry || {}] then binds [undefined], which is
    falsy and compares as NaN. *)
Definition calculateDragCoefficient (shapeType : string)
    (reynolds aspectRatio solidity angleDegrees : num) (geometry : option Geometry)
  : num :=
  let symmetric := match geometry with Some g => isSymmetric g | None => false end in
  let teAng := ToNumber (option_map teAngle geometry) in
  let cd :=
    if String.eqb shapeType "circular" then
      let cd :=
        if reynolds <? 1 then Math_max (24 / reynolds) 2.0
        else if reynolds <? 2e5 then Fin 1.17
        else if reynolds <? 5e5 then
          let transitionRel := (reynolds - 3.5e5) / 50000 in
          let sig := 1 / (1 + Math_exp transitionRel) in
          0.3 + (1.2 - 0.3) * sig
        else 0.35 + (reynolds / 1e7) * 0.1 in
      let angleRadCircular := Math_abs (angleDegrees * Math_PI / 180) in
      if angleRadCircular >? 0.1
      then cd * (1.0 + 0.05 * Math_sin angleRadCircular)
      else cd
    else if String.eqb shapeType "rectangular" then
      let effectiveAR := Math_max aspectRatio (1 / aspectRatio) in
      let cd := 2.0 / Math_sqrt effectiveAR in
      let cd := Math_max 1.0 (Math_min cd 2.1) in
      if reynolds <? 1e4 then cd * 1.1 else cd
    else if String.eqb shapeType "streamlined" then
      let finenessRatioStreamlined := Math_max aspectRatio (1 / aspectRatio) in
      let cd := 0.05 + (0.3 / Math_sqrt finenessRatioStreamlined) in
      let cd := if symmetric && (Math_abs angleDegrees <? 5) then cd * 0.8 else cd in
      let cd :=
        if teAng >? 20 then
          let bluntnessFactor := (teAng - 20) / 70 in
          cd + 0.1 * bluntnessFactor
        else cd in
      let angleRadStreamlined := Math_abs (angleDegrees * Math_PI / 180) in
      if angleRadStreamlined >? Math_PI / 12 then
        let separationFactor := 1.0 + 1.2 * Math_pow2 (Math_sin angleRadStreamlined) in
        cd * separationFactor
      else cd
    else
      let finenessRatioBluff := Math_max aspectRatio (1 / aspectRatio) in
      let cd := 1.0 + 0.5 / finenessRatioBluff in
      let cd := cd * (0.85 + 0.15 * solidity) in
      if reynolds <? 1e4 then cd * 1.05 else cd in
  clampCd cd.

(** Calculate lift coefficient with flow regime awareness and geometric
    analysis *)
Definition calculateLiftCoefficient (shapeType : string)
    (reynolds aspectRatio angleDegrees solidity : num) (geometry : option Geometry)
  : num :=
  let angleRad := angleDegrees * Math_PI / 180 in
  (* Use geometry if available *)
  let camb : option num :=
    match geometry with Some g => camber g | None => Some (Fin 0) end in
  let thick := match geometry with Some g => thickness g | None => Fin 0.12 end in
  let symmetric := match geometry with Some g => isSymmetric g | None => false end in
  let teAng := match geometry with Some g => teAngle g | None => Fin 30 end in
  let canLift :=
    String.eqb shapeType "streamlined" || (aspectRatio >? 2.0) || (aspectRatio <? 0.5)
    || (Math_abs (ToNumber camb) >? 0.001) in
  if negb canLift && (Math_abs angleDegrees <? 10) then Fin 0
  else if symmetric && (Math_abs angleDegrees <? 0.5) then Fin 0
  else
    let cl :=
      if String.eqb shapeType "circular" then
        if Math_abs angleDegrees >? 5 then 0.3 * Math_sin (2 * angleRad) else Fin 0
      else if String.eqb shapeType "streamlined" then
        let alphaL0 := if symmetric then Fin 0 else (-100) * ToNumber camb in
        let effectiveAngle := angleDegrees - alphaL0 in
        let effectiveAngleRad := effectiveAngle * Math_PI / 180 in
        let kuttaFactor :=
          if teAng >? 20 then Math_max 0.5 (1.0 - (teAng - 20) / 100) else Fin 1.0 in
        let arCorrection := aspectRatio / (aspectRatio + 2) in
        let liftSlope := 0.1 * 0.9 * arCorrection * kuttaFactor in
        let stallAngle := 12 + (thick * 20) in
        let x := Math_abs effectiveAngle / stallAngle in
        if x <? 0.8 then liftSlope * effectiveAngle
        else
          let preStallLift := liftSlope * effectiveAngle in
          let separatedLift := 1.0 * Math_sin (2 * effectiveAngleRad) in
          if x <? 1.5 then
            let t := (x - 0.8) / (1.5 - 0.8) in
            let blend := (1 + Math_cos (Math_PI * t)) / 2 in
            let peakBoost := 0.1 * Math_sin (Math_PI * t) in
            (preStallLift * blend) + (separatedLift * (1 - blend)) + peakBoost
          else separatedLift
      else if String.eqb shapeType "rectangular" then
        let cl :=
          if Math_abs angleDegrees <? 25 then 1.1 * Math_sin (2 * angleRad)
          else 1.0 * Math_sin angleRad in
        (* [camber !== 0]: [undefined] is not [0] *)
        let camberNonZero := match camb with Some c => negb (c === 0) | None => true end in
        if camberNonZero && negb symmetric then cl + ToNumber camb * 2.0 else cl
      else
        let cl := 0.5 * Math_sin (2 * angleRad) in
        if solidity <? 0.5 then cl * 0.5 else cl in
    (* Reynolds Number correction *)
    if reynolds <? 100000 then
      let factor := 0.4 + 0.6 * (Math_log10 (Math_max 1 reynolds) / 5.0) in
      cl * Math_min 1.0 (Math_max 0.1 factor)
    else cl.

(** Calculate Strouhal number for vortex shedding frequency *)
Definition calculateStrouhal (shapeType : string) (reynolds : num) : num :=
  if String.eqb shapeType "circular" then
    if reynolds <? 100 then Fin 0.1 else Fin 0.2
  else if String.eqb shapeType "rectangular" then Fin 0.15
  else if String.eqb shapeType "streamlined" then Fin 0.1
  else Fin 0.18.

(** The two loops that normalize the angle of attack,
    [while (a > 180) a -= 360] and [while (a < -180) a += 360], on a
    finite angle.  Binary64 numbers above [2^62] lie 1024 and more apart,
    so there [a - 360] rounds back to [a]: the turn is absorbed and the
    loop does not end.  Up to [2^62] every pass makes the angle smaller
    and the loop ends.  This absorption is the one effect of rounding
    that the model keeps, because it decides whether the solver comes
    back; the value that a pass computes is the exact difference. *)
Definition TURN_ABSORBED : R := 4611686018427387904.

Equations? while_gt_180 (a : R) : outcome R by wf (Z.to_nat (up ((a - 180) / 360))) lt :=
  while_gt_180 a with Rlt_dec 180 a := {
    | left _ with Rlt_dec TURN_ABSORBED a := {
        | left _ => Diverges
        | right _ => while_gt_180 (a - 360) }
    | right _ => Returns a }.
Proof.
  set (x := ((a - 180) / 360)%R).
  assert (Hx : (0 < x)%R) by (unfold x; lra).
  destruct (archimed x) as [Hup1 Hup2].
  assert (Hup : up ((a - 360 - 180) / 360)%R = (up x - 1)%Z).
  { symmetry. apply tech_up; rewrite minus_IZR; unfold x in *; lra. }
  rewrite Hup.
  assert (0 < up x)%Z by (apply lt_IZR; lra).
  lia.
Qed.

Equations? while_lt_m180 (a : R) : outcome R by wf (Z.to_nat (up ((- 180 - a) / 360))) lt :=
  while_lt_m180 a with Rlt_dec a (- 180) := {
    | left _ with Rlt_dec a (- TURN_ABSORBED) := {
        | left _ => Diverges
        | right _ => while_lt_m180 (a + 360) }
    | right _ => Returns a }.
Proof.
  set (x := ((- 180 - a) / 360)%R).
  assert (Hx : (0 < x)%R) by (unfold x; lra).
  destruct (archimed x) as [Hup1 Hup2].
  assert (Hup : up ((- 180 - (a + 360)) / 360)%R = (up x - 1)%Z).
  { symmetry. apply tech_up; rewrite minus_IZR; unfold x in *; lra. }
  rewrite Hup.
  assert (0 < up x)%Z by (apply lt_IZR; lra).
  lia.
Qed.

(** The loops on a JavaScript number.  On [Infinity] the first never
    ends ([Infinity - 360] is [Infinity]), on [-Infinity] the second;
    NaN compares false and leaves both at once. *)
Definition loop_gt_180 (a : num) : outcome num :=
  match a with
  | Fin r => r' <- while_gt_180 r ;; Returns (Fin r')
  | PInf => Diverges
  | _ => Returns a
  end.

Definition loop_lt_m180 (a : num) : outcome num :=
  match a with
  | Fin r => r' <- while_lt_m180 r ;; Returns (Fin r')
  | NInf => Diverges
  | _ => Returns a
  end.

Definition normalizeAngle (a : num) : outcome num :=
  a1 <- loop_gt_180 a ;; loop_lt_m180 a1.

(** The request parameters; a property may be missing. *)
Record Params : Type := mkParams {
  windSpeed : option num;
  angle : option num;
  airDensity : option num
}.

(** The result record.  The entries of [debug] are the strings that
    [toFixed] prints, held as the numbers they denote. *)
Record Debug : Type := mkDebug {
  debug_velocityMs : num;
  debug_widthM : num;
  debug_heightM : num;
  debug_characteristicLength : num;
  debug_aspectRatio : num;
  debug_solidity : num;
  debug_camber : num;
  debug_thickness : num;
  debug_alphaL0 : num
}.

Record Result : Type := mkResult {
  cd : num;
  cl : num;
  dragForce : num;
  liftForce : num;
  area : num;
  referenceArea : num;
  reynolds : num;
  shapeType : string;
  vortexFrequency : num;
  strouhal : num;
  pressureDrag : num;
  frictionDrag : num;
  debug : Debug
}.

(** [parseFloat(x.toFixed(digits))] *)
Definition parseFloat_toFixed (x : num) (digits : nat) : num := toFixed x digits.

(** [geometry.camber.toFixed(4)]: a [TypeError] when [camber] is absent. *)
Definition toFixed_prop (v : option num) (digits : nat) : outcome num :=
  match v with
  | Some x => Returns (toFixed x digits)
  | None => Throws TypeError
  end.

(** Main calculation function *)
Definition calculateDrag (points : list point) (params : Params) : outcome Result :=
  (* 1. Extract and convert inputs *)
  let velocityKmh := ToNumber (windSpeed params) in
  let velocityMs := velocityKmh / 3.6 in
  let rho := or_default (airDensity params) 1.225 in
  angleDegrees <- normalizeAngle (or_default (angle params) 0) ;;
  let mu := AIR_DYNAMIC_VISCOSITY in
  (* 2. Rotate shape based on angle of attack *)
  let rotatedPoints := rotatePoints points angleDegrees in
  let bounds := getBoundingBox rotatedPoints in
  (* 3. Calculate geometric properties *)
  let heightM := height bounds / PIXELS_PER_METER in
  let widthM := width bounds / PIXELS_PER_METER in
  let frontalArea := heightM * 1.0 in
  let refArea := Math_max heightM widthM * 1.0 in
  let polygonArea := calculatePolygonArea points in
  let boxArea := width bounds * height bounds in
  let solidity := if boxArea >? 0 then polygonArea / boxArea else Fin 1.0 in
  let aspectRatio := if height bounds >? 0 then width bounds / height bounds else Fin 1.0 in
  (* 5. Classify shape *)
  let shape := classifyShape points bounds solidity in
  (* 4. Characteristic length and Reynolds number *)
  let characteristicLength :=
    if String.eqb shape "circular" then width bounds / PIXELS_PER_METER
    else if String.eqb shape "streamlined" then width bounds / PIXELS_PER_METER
    else Math_sqrt (polygonArea / (PIXELS_PER_METER * PIXELS_PER_METER)) in
  let re := calculateReynolds velocityMs characteristicLength rho mu in
  (* 6. Detailed Geometric Analysis *)
  geometry <- analyzeGeometry points (getBoundingBox points) ;;
  (* 7. Calculate drag coefficient *)
  let cdv := calculateDragCoefficient shape re aspectRatio solidity angleDegrees None in
  (* 8. Calculate lift coefficient *)
  let clv := calculateLiftCoefficient shape re aspectRatio angleDegrees solidity (Some geometry) in
  (* 9. Calculate forces *)
  let dragF := 0.5 * rho * velocityMs * velocityMs * frontalArea * cdv in
  let liftF := 0.5 * rho * velocityMs * velocityMs * refArea * clv in
  (* 10. Calculate additional metrics *)
  let st := calculateStrouhal shape re in
  let vortexFreq :=
    if characteristicLength >? 0 then st * velocityMs / characteristicLength else Fin 0 in
  let pressureDragRatio :=
    if String.eqb shape "streamlined" then Fin 0.6
    else if String.eqb shape "circular" then Fin 0.85
    else Fin 0.9 in
  let pressureD := dragF * pressureDragRatio in
  let frictionD := dragF * (1 - pressureDragRatio) in
  (* 11. Return comprehensive results *)
  dcamber <- toFixed_prop (camber geometry) 4 ;;
  Returns
    {| cd := parseFloat_toFixed cdv 3;
       cl := parseFloat_toFixed clv 3;
       dragForce := parseFloat_toFixed dragF 2;
       liftForce := parseFloat_toFixed liftF 2;
       area := parseFloat_toFixed frontalArea 4;
       referenceArea := parseFloat_toFixed refArea 4;
       reynolds := parseFloat_toFixed re 0;
       shapeType := shape;
       vortexFrequency := parseFloat_toFixed vortexFreq 2;
       strouhal := parseFloat_toFixed st 3;
       pressureDrag := parseFloat_toFixed pressureD 2;
       frictionDrag := parseFloat_toFixed frictionD 2;
       debug :=
         {| debug_velocityMs := toFixed velocityMs 2;
            debug_widthM := toFixed widthM 3;
            debug_heightM := toFixed heightM 3;
            debug_characteristicLength := toFixed characteristicLength 3;
            debug_aspectRatio := toFixed aspectRatio 3;
            debug_solidity := toFixed solidity 3;
            debug_camber := dcamber;
            debug_thickness := toFixed (thickness geometry) 4;
            debug_alphaL0 := toFixed ((-100) * ToNumber (camber geometry)) 1 |} |}.

(* ================================================================== *)
(** ** The route [POST /api/simulate] *)
(* ================================================================== *)

(** The request body: [{ shape: { points }, parameters }], any part of
    which may be missing. *)
Record Shape : Type := mkShape { points : option (list point) }.

Record Request : Type := mkRequest {
  shape : option Shape;
  parameters : option Params
}.

(** What the handler sends: the result, an error object
    [{ error: string }] with its status, or nothing when the engine does
    not come back. *)
Inductive Response : Type :=
| json (status : nat) (body : Result)
| json_error (status : nat) (error : string)
| no_response.

Definition simulate (req : Request) : Response :=
  match shape req, parameters req with
  | Some sh, Some prm =>
      match points sh with
      | Some pts =>
          match calculateDrag pts prm with
          | Returns physicsResults => json 200 physicsResults
          | Throws _ => json_error 500 "Simulation failed"
          | Diverges => no_response
          end
      | None => json_error 400 "Invalid input. Need shape.points and parameters."
      end
  | _, _ => json_error 400 "Invalid input. Need shape.points and parameters."
  end.

(* ================================================================== *)
(** ** Auxiliary notions for the statements *)
(* ================================================================== *)

(** Positive, the infinity included. *)
Definition pos_ext (c : num) : Prop :=
  c = PInf \/ exists x : R, c = Fin x /\ (0 < x)%R.

(** Polygons with finite coordinates, as lists of pairs of reals. *)
Definition rpoint : Type := (R * R)%type.

Definition fin_point (p : rpoint) : point := (Fin (fst p), Fin (snd p)).

Definition fin_points (pts : list rpoint) : list point := map fin_point pts.

(** The term of the shoelace sum for the edge from [p] to [q]. *)
Definition cross (p q : rpoint) : R := (fst p * snd q - fst q * snd p)%R.

(** [Rsum f n] is [f 0 + ... + f (n - 1)]. *)
Fixpoint Rsum (f : nat -> R) (n : nat) : R :=
  match n with
  | O => 0%R
  | S m => (Rsum f m + f m)%R
  end.

(** The signed shoelace sum of a polygon with finite coordinates. *)
Definition shoelace (pts : list rpoint) : R :=
  let n := List.length pts in
  Rsum (fun i => cross (nth i pts (0, 0)%R) (nth ((i + 1) mod n) pts (0, 0)%R)) n.

(** The rotation of [rotatePoints] on reals: about [c], with cosine [C]
    and sine [S]. *)
Definition rotate_about (c : rpoint) (C S : R) (p : rpoint) : rpoint :=
  let dx := (fst p - fst c)%R in
  let dy := (snd p - snd c)%R in
  (fst c + (dx * C - dy * S), snd c + (dx * S + dy * C))%R.

(** A request that carries a polygon and parameters. *)
Definition request (pts : list point) (params : Params) : Request :=
  {| shape := Some {| points := Some pts |}; parameters := Some params |}.

Definition with_airDensity (params : Params) (rho : num) : Params :=
  {| windSpeed := windSpeed params; angle := angle params; airDensity := Some rho |}.

Definition with_angle (params : Params) (a : num) : Params :=
  {| windSpeed := windSpeed params; angle := Some a; airDensity := airDensity params |}.

(** Polygons and parameters on which the engine is run below. *)
Definition wide_triangle : list rpoint := [(0, 0); (302, 0); (0, 100)]%R.

Definition blunt_wedge : list rpoint := [(0, 0); (400, 0); (400, 100)]%R.

Definition vertical_sliver : list rpoint := [(0, 0); (0, 100); (0, 50)]%R.

Definition two_points : list rpoint := [(0, 0); (100, 50)]%R.

Definition standard_params (angleDegrees : R) : Params :=
  {| windSpeed := Some (Fin 50); angle := Some (Fin angleDegrees);
     airDensity := Some (Fin 1.225) |}.

Definition no_windSpeed : Params :=
  {| windSpeed := None; angle := Some (Fin 0); airDensity := Some (Fin 1.225) |}.

(** The solidity that the bounding box of the polygon as given, not
    rotated, would give. *)
Definition unrotated_solidity (pts : list point) : num :=
  let bounds := getBoundingBox pts in
  let boxArea := width bounds * height bounds in
  if boxArea >? 0 then calculatePolygonArea pts / boxArea else Fin 1.0.

(* ================================================================== *)
(** ** The serverless handler [api/simulate] *)
(* ================================================================== *)

(** The request as the handler sees it: the HTTP method and the parsed
    body, which may be missing. *)
Record HandlerRequest : Type := mkHandlerRequest {
  method : string;
  body : option Request
}.

(** What the handler sends: an empty answer, the result, an error object
    [{ error, details }] ([details] is the message of the exception that
    was caught, held as the exception), or nothing when the engine does
    not come back. *)
Inductive HandlerReply : Type :=
| reply_end (status : nat)
| reply_json (status : nat) (result : Result)
| reply_error (status : nat) (error : string) (details : option exn)
| reply_none.

(** The headers set before anything else. *)
Definition cors_headers : list (string * string) :=
  [("Access-Control-Allow-Credentials", "true");
   ("Access-Control-Allow-Origin", "*");
   ("Access-Control-Allow-Methods", "GET,OPTIONS,PATCH,DELETE,POST,PUT");
   ("Access-Control-Allow-Headers",
    "X-CSRF-Token, X-Requested-With, Accept, Accept-Version, Content-Length, Content-MD5, Content-Type, Date, X-Api-Version")]%string.

Definition handler (req : HandlerRequest) : list (string * string) * HandlerReply :=
  (cors_headers,
   if String.eqb (method req) "OPTIONS" then reply_end 200
   else if negb (String.eqb (method req) "POST") then
     reply_error 405 "Method not allowed" None
   else
     match body req with
     | None => reply_error 500 "Simulation failed" (Some TypeError)
     | Some rq =>
         match shape rq, parameters rq with
         | Some sh, Some prm =>
             match points sh with
             | Some pts =>
                 match calculateDrag pts prm with
                 | Returns physicsResults => reply_json 200 physicsResults
                 | Throws e => reply_error 500 "Simulation failed" (Some e)
                 | Diverges => reply_none
                 end
             | None =>
                 reply_error 400 "Invalid input. Need shape.points and parameters." None
             end
         | _, _ =>
             reply_error 400 "Invalid input. Need shape.points and parameters." None
         end
     end).

(** The answer of the handler that says what an answer of the route
    says. *)
Definition reply_of_response (resp : Response) : HandlerReply :=
  match resp with
  | json status r => reply_json status r
  | json_error status msg =>
      reply_error status msg (if Nat.eqb status 500 then Some TypeError else None)
  | no_response => reply_none
  end.

(* ================================================================== *)
(** ** Further notions for the statements *)
(* ================================================================== *)

(** The record that [analyzeGeometry] returns on a chord of length zero. *)
Definition degenerate_geometry : Geometry :=
  {| maxCamber := Some (Fin 0); camber := None; thickness := 0;
     isSymmetric := true; teAngle := 180; leRadius := 0 |}.

(** A polygon moved by [t]. *)
Definition translate (t : rpoint) (p : rpoint) : rpoint :=
  (fst p + fst t, snd p + snd t)%R.

(** The sum of a list of reals, and the mean of the points of a polygon. *)
Definition sum_list (l : list R) : R := fold_right Rplus 0%R l.

Definition mean_point (pts : list rpoint) : rpoint :=
  (sum_list (map fst pts) / INR (List.length pts),
   sum_list (map snd pts) / INR (List.length pts))%R.

(** The angle of the request is absent, NaN, or a finite number of
    magnitude at most 2^53 = 9007199254740992. *)
Definition angle_in_reach (params : Params) : Prop :=
  match angle params with
  | Some (Fin a) => (- 9007199254740992 <= a <= 9007199254740992)%R
  | Some PInf | Some NInf => False
  | Some NaN | None => True
  end.

(** A polygon none of whose coordinates exceeds 1000000 in magnitude. *)
Definition moderate_polygon (pts : list rpoint) : Prop :=
  forall p, In p pts -> (Rabs (fst p) <= 1000000)%R /\ (Rabs (snd p) <= 1000000)%R.

(** All points of the polygon have one and the same abscissa. *)
Definition same_x (pts : list rpoint) : Prop :=
  forall p q, In p pts -> In q pts -> fst p = fst q.

(** A polygon scaled by [k] about the origin. *)
Definition scale (k : R) (p : rpoint) : rpoint := (k * fst p, k * snd p)%R.


(** A number that is neither NaN nor an infinity, and a result record all
    of whose numbers are such. *)
Definition is_finite (x : num) : Prop := exists r : R, x = Fin r.

Definition finite_debug (d : Debug) : Prop :=
  is_finite (debug_velocityMs d) /\ is_finite (debug_widthM d)
  /\ is_finite (debug_heightM d) /\ is_finite (debug_characteristicLength d)
  /\ is_finite (debug_aspectRatio d) /\ is_finite (debug_solidity d)
  /\ is_finite (debug_camber d) /\ is_finite (debug_thickness d)
  /\ is_finite (debug_alphaL0 d).

Definition finite_result (r : Result) : Prop :=
  is_finite (cd r) /\ is_finite (cl r)
  /\ is_finite (dragForce r) /\ is_finite (liftForce r)
  /\ is_finite (area r) /\ is_finite (referenceArea r)
  /\ is_finite (reynolds r) /\ is_finite (vortexFrequency r)
  /\ is_finite (strouhal r)
  /\ is_finite (pressureDrag r) /\ is_finite (frictionDrag r)
  /\ finite_debug (debug r).

(** A finite number whose magnitude is at most [B]. *)
Definition magnitude_at_most (B : R) (x : num) : Prop :=
  exists r : R, x = Fin r /\ (Rabs r <= B)%R.


(* ================================================================== *)
(** ** The canvas: smoothing of the drawn outline *)
(* ================================================================== *)

Module Canvas.

(** A vertex of the drawn outline, [{ x, y, isSmooth }]; [isSmooth] is
    held as its truth value. *)
Record CurvePoint : Type := mkCurvePoint { x : num; y : num; isSmooth : bool }.

(** What an index outside the array would read; the loop never does. *)
Definition undefined_point : CurvePoint := {| x := NaN; y := NaN; isSmooth := false |}.

(** One pass of the corner cutting, the body of the loop over [iter]: a
    smooth vertex is replaced by two points on the edge to its successor,
    a sharp one is copied. *)
Definition smoothPass (currentPoints : list CurvePoint) : list CurvePoint :=
  let n := List.length currentPoints in
  flat_map
    (fun i =>
       let p1 := nth i currentPoints undefined_point in
       let p2 := nth ((i + 1) mod n) currentPoints undefined_point in
       if isSmooth p1 then
         [ {| x := 0.75 * x p1 + 0.25 * x p2;
              y := 0.75 * y p1 + 0.25 * y p2;
              isSmooth := true |};
           {| x := 0.25 * x p1 + 0.75 * x p2;
              y := 0.25 * y p1 + 0.75 * y p2;
              isSmooth := true |} ]
       else [ p1 ])
    (List.seq 0 n).

Fixpoint smoothLoop (iterations : nat) (currentPoints : list CurvePoint)
  : list CurvePoint :=
  match iterations with
  | O => currentPoints
  | S iterations => smoothLoop iterations (smoothPass currentPoints)
  end.

(** Chaikin's algorithm for curve smoothing (selective); [iterations] is
    3 when the caller passes none. *)
Definition getCurvePoints (points : list CurvePoint) (iterations : option nat)
  : list CurvePoint :=
  let iterations := match iterations with Some k => k | None => 3%nat end in
  if (List.length points <? 3)%nat then points
  else smoothLoop iterations points.

(** The coordinates of a vertex lie in the rectangle from [(loX, loY)] to
    [(hiX, hiY)]. *)
Definition within (loX hiX loY hiY : R) (p : CurvePoint) : Prop :=
  exists a b : R,
    x p = Fin a /\ y p = Fin b /\ (loX <= a <= hiX)%R /\ (loY <= b <= hiY)%R.

End Canvas.

(* ================================================================== *)
(** ** The coefficient tables of the 3D engine *)
(* ================================================================== *)

Module Physics3D.

(** Calculate Reynolds number for 3D flow *)
Definition calculateReynolds3D (velocity characteristicLength density viscosity : num)
  : num :=
  (density * velocity * characteristicLength) / viscosity.

(** Get drag coefficient for 3D shape *)
Definition getDragCoefficient3D (geometryType : string) (reynolds : num) : num :=
  if String.eqb geometryType "SphereGeometry" then
    if reynolds <? 1 then Math_max (24 / reynolds) 2.0
    else if reynolds <? 2e5 then Fin 0.47
    else if reynolds <? 5e5 then
      let t := (reynolds - 2e5) / (Fin 5e5 - Fin 2e5) in
      0.47 * (1 - t) + 0.2 * t
    else Fin 0.2
  else if String.eqb geometryType "BoxGeometry" then Fin 1.05
  else if String.eqb geometryType "CylinderGeometry" then Fin 0.82
  else if String.eqb geometryType "ConeGeometry" then Fin 0.5
  else if String.eqb geometryType "TorusGeometry" then Fin 1.2
  else Fin 1.0.

(** Get lift coefficient for 3D shape *)
Definition getLiftCoefficient3D (geometryType : string) (angleOfAttack reynolds : num)
  : num :=
  let alpha := angleOfAttack * Math_PI / 180 in
  if String.eqb geometryType "SphereGeometry" then 0.1 * Math_sin (2 * alpha)
  else if String.eqb geometryType "BoxGeometry"
          || String.eqb geometryType "CylinderGeometry"
       then 0.5 * Math_sin (2 * alpha)
  else if String.eqb geometryType "ConeGeometry" then 0.3 * Math_sin (2 * alpha)
  else Fin 0.

End Physics3D.

(* ================================================================== *)
(** ** Evaluating comparisons and arithmetic *)
(* ================================================================== *)

Lemma Rltb_true (a b : R) : (a < b)%R -> Rltb a b = true.
Proof. intros H; unfold Rltb; destruct (Rlt_dec a b); [reflexivity | contradiction]. Qed.

Lemma Rltb_false (a b : R) : (~ a < b)%R -> Rltb a b = false.
Proof. intros H; unfold Rltb; destruct (Rlt_dec a b); [contradiction | reflexivity]. Qed.

Lemma Reqb_true (a b : R) : a = b -> Reqb a b = true.
Proof. intros H; unfold Reqb; destruct (Req_dec_T a b); [reflexivity | contradiction]. Qed.

Lemma Reqb_false (a b : R) : a <> b -> Reqb a b = false.
Proof. intros H; unfold Reqb; destruct (Req_dec_T a b); [contradiction | reflexivity]. Qed.

Lemma Rltb_spec (a b : R) : reflect (a < b)%R (Rltb a b).
Proof. unfold Rltb; destruct (Rlt_dec a b); constructor; assumption. Qed.

Lemma Reqb_spec (a b : R) : reflect (a = b) (Reqb a b).
Proof. unfold Reqb; destruct (Req_dec_T a b); constructor; assumption. Qed.

(** Decide the comparisons of the goal that linear arithmetic settles. *)
Ltac rcmp :=
  repeat first
    [ rewrite Rltb_true by lra
    | rewrite Rltb_false by lra
    | rewrite Reqb_true by lra
    | rewrite Reqb_false by lra ].

Ltac jsimpl := repeat (progress (simpl; rcmp)).

(** Split on every comparison of the goal. *)
Ltac rcases :=
  repeat match goal with
  | |- context [Rltb ?a ?b] => destruct (Rltb_spec a b)
  | |- context [Reqb ?a ?b] => destruct (Reqb_spec a b)
  end.

Lemma ndiv_fin (x y : R) : y <> 0%R -> Fin x / Fin y = Fin (x / y).
Proof. intros H; simpl; rewrite Reqb_false by assumption; reflexivity. Qed.

Lemma angleRad_fin (ang : R) : Fin ang * Math_PI / 180 = Fin (ang * PI / 180).
Proof. unfold Math_PI. simpl nmul. apply ndiv_fin. lra. Qed.

(** NaN absorbs, and the defaults of [||]. *)
Lemma nmul_NaN_l (x : num) : NaN * x = NaN.
Proof. destruct x; reflexivity. Qed.

Lemma nmul_NaN_r (x : num) : x * NaN = NaN.
Proof. destruct x; reflexivity. Qed.

Lemma ndiv_NaN_l (x : num) : NaN / x = NaN.
Proof. destruct x; reflexivity. Qed.

Ltac nan_absorb :=
  repeat first [ rewrite nmul_NaN_r | rewrite nmul_NaN_l | rewrite ndiv_NaN_l ].

Lemma or_default_fin_angle (a : R) : or_default (Some (Fin a)) 0 = Fin a.
Proof.
  unfold or_default, truthy. destruct (Reqb_spec a 0) as [-> | Hne]; reflexivity.
Qed.

Lemma or_default_falsy (v : option num) (d : num) :
  v = None \/ v = Some (Fin 0) \/ v = Some NaN -> or_default v d = d.
Proof.
  intros [-> | [-> | ->]]; unfold or_default, truthy; rcmp; reflexivity.
Qed.

Lemma or_default_density_default : or_default (Some (Fin 1.225)) 1.225 = Fin 1.225.
Proof. unfold or_default, truthy. rcmp. reflexivity. Qed.

(* ================================================================== *)
(** ** The drag coefficient *)
(* ================================================================== *)

Lemma clampCd_range (c : num) :
  c <> NaN -> exists r : R, clampCd c = Fin r /\ (0.01 <= r <= 2.5)%R.
Proof.
  intros Hc. unfold clampCd.
  destruct c as [x | | |]; try congruence; simpl; rcases; simpl; rcases;
    eexists; (split; [reflexivity | lra]).
Qed.

Lemma notNaN_mul_pos (c : num) (f : R) : c <> NaN -> (0 < f)%R -> c * Fin f <> NaN.
Proof.
  intros Hc Hf; destruct c; simpl; unfold scaled_inf; rcmp; congruence.
Qed.

Lemma notNaN_max (a b : num) : a <> NaN -> b <> NaN -> Math_max a b <> NaN.
Proof. intros Ha Hb; destruct a, b; simpl; try congruence; rcases; congruence. Qed.

Lemma fineness_pos_ext (ar : R) :
  (0 <= ar)%R -> pos_ext (Math_max (Fin ar) (1 / Fin ar)).
Proof.
  intros Har. destruct (Req_dec_T ar 0) as [-> | Hne].
  - left. simpl. unfold scaled_inf. rcmp. reflexivity.
  - right. rewrite ndiv_fin by assumption. simpl.
    assert (0 < 1 / ar)%R by (apply Rdiv_lt_0_compat; lra).
    destruct (Rltb_spec ar (1 / ar)); eexists; (split; [reflexivity | lra]).
Qed.

Lemma sqrt_pos_ext (c : num) : pos_ext c -> pos_ext (Math_sqrt c).
Proof.
  intros [-> | (x & -> & Hx)]; [left; reflexivity | right].
  simpl. rewrite Rltb_false by lra.
  eexists; split; [reflexivity | apply sqrt_lt_R0; assumption].
Qed.

Lemma div_pos_ext_fin (x : R) (c : num) : pos_ext c -> exists y : R, Fin x / c = Fin y.
Proof.
  intros [-> | (z & -> & Hz)]; [exists 0%R; reflexivity |].
  rewrite ndiv_fin by lra. eexists; reflexivity.
Qed.

(* ================================================================== *)
(** ** The shoelace area of a polygon with finite coordinates *)
(* ================================================================== *)

Lemma Rsum_ext (f g : nat -> R) (n : nat) :
  (forall i, (i < n)%nat -> f i = g i) -> Rsum f n = Rsum g n.
Proof.
  induction n as [| n IH]; intros H; simpl; [reflexivity |].
  rewrite IH by (intros i Hi; apply H; lia).
  rewrite H by lia. reflexivity.
Qed.

Lemma Rsum_plus (f g : nat -> R) (n : nat) :
  Rsum (fun i => (f i + g i)%R) n = (Rsum f n + Rsum g n)%R.
Proof. induction n as [| n IH]; simpl; [lra | rewrite IH; lra]. Qed.

Lemma Rsum_opp (f : nat -> R) (n : nat) :
  Rsum (fun i => (- f i)%R) n = (- Rsum f n)%R.
Proof. induction n as [| n IH]; simpl; [lra | rewrite IH; lra]. Qed.

Lemma Rsum_S (f : nat -> R) (n : nat) : Rsum f (S n) = (Rsum f n + f n)%R.
Proof. reflexivity. Qed.

(** The first term taken out instead of the last. *)
Lemma Rsum_shift (f : nat -> R) (n : nat) :
  Rsum f (S n) = (f 0%nat + Rsum (fun i => f (S i)) n)%R.
Proof.
  induction n as [| n IH]; [simpl; lra |].
  change (Rsum f (S (S n))) with (Rsum f (S n) + f (S n))%R.
  rewrite IH. simpl. lra.
Qed.

(** A sum may be taken from the last term down. *)
Lemma Rsum_rev (f : nat -> R) (n : nat) :
  Rsum (fun i => f (n - 1 - i)%nat) n = Rsum f n.
Proof.
  induction n as [| n IH]; [reflexivity |].
  rewrite Rsum_shift.
  replace (S n - 1 - 0)%nat with n by lia.
  simpl Rsum at 2. rewrite <- IH.
  rewrite Rplus_comm. f_equal.
  apply Rsum_ext. intros i Hi. f_equal. lia.
Qed.

(** Going once around a cycle, the start does not matter. *)
Lemma Rsum_cyclic (h : nat -> R) (n : nat) :
  Rsum (fun i => h ((i + 1) mod n)%nat) n = Rsum h n.
Proof.
  destruct n as [| m]; [reflexivity |].
  rewrite (Rsum_shift h).
  rewrite Rsum_S.
  replace ((m + 1) mod S m)%nat with 0%nat
    by (replace (m + 1)%nat with (S m) by lia; symmetry; apply Nat.Div0.mod_same).
  rewrite Rplus_comm. f_equal.
  apply Rsum_ext. intros i Hi. f_equal.
  rewrite Nat.mod_small by lia. lia.
Qed.

Lemma cross_antisym (p q : rpoint) : cross p q = (- cross q p)%R.
Proof. unfold cross. ring. Qed.

(** The shoelace sum changes sign when the polygon is walked backwards. *)
Lemma shoelace_rev (pts : list rpoint) : shoelace (rev pts) = (- shoelace pts)%R.
Proof.
  unfold shoelace. rewrite length_rev.
  set (n := List.length pts).
  set (P := fun i => nth i pts (0, 0)%R).
  destruct n as [| m] eqn:Hn; [simpl; lra |].
  assert (Hrev : forall i, (i < S m)%nat -> nth i (rev pts) (0, 0)%R = P (m - i)%nat).
  { intros i Hi. rewrite rev_nth by (fold n; lia). unfold P. f_equal. fold n. lia. }
  set (t := fun k => cross (P k) (P ((k + 1) mod S m)%nat)).
  change (Rsum (fun i => cross (nth i pts (0, 0)%R) (nth ((i + 1) mod S m) pts (0, 0)%R)) (S m))
    with (Rsum t (S m)).
  assert (Hwrap : ((m + 1) mod S m)%nat = 0%nat).
  { replace (m + 1)%nat with (S m) by lia. apply Nat.Div0.mod_same. }
  rewrite !Rsum_S.
  rewrite (Rsum_ext _ (fun i => (- t (m - 1 - i)%nat)%R)).
  - rewrite Rsum_opp, Rsum_rev.
    rewrite Hwrap, !Hrev by lia.
    change (t m) with (cross (P m) (P ((m + 1) mod S m)%nat)). rewrite Hwrap.
    replace (m - m)%nat with 0%nat by lia.
    replace (m - 0)%nat with m by lia.
    rewrite (cross_antisym (P 0%nat) (P m)). lra.
  - intros i Hi.
    rewrite (Nat.mod_small (i + 1)) by lia.
    rewrite !Hrev by lia.
    unfold t.
    rewrite Nat.mod_small by lia.
    replace (m - 1 - i + 1)%nat with (m - i)%nat by lia.
    replace (m - (i + 1))%nat with (m - 1 - i)%nat by lia.
    apply cross_antisym.
Qed.

(** A rotation about any centre moves each shoelace term by a
    difference that telescopes around the polygon. *)
Section Rotation.

Variable c : rpoint.
Variables C S : R.
Hypothesis Hcs : (C * C + S * S = 1)%R.

Lemma cross_rotate (p q : rpoint) :
  cross (rotate_about c C S p) (rotate_about c C S q)
  = (cross p q
     + ((cross c (rotate_about c C S q) - cross c q)
        - (cross c (rotate_about c C S p) - cross c p)))%R.
Proof.
  unfold cross, rotate_about.
  destruct p as [px py], q as [qx qy], c as [cx cy]; simpl.
  match goal with |- ?l = ?r =>
    assert (H : (l - r)%R
                = ((C * C + S * S - 1)
                   * ((px - cx) * (qy - cy) - (qx - cx) * (py - cy)))%R) by ring
  end.
  rewrite Hcs in H. lra.
Qed.

Lemma shoelace_rotate (pts : list rpoint) :
  shoelace (map (rotate_about c C S) pts) = shoelace pts.
Proof.
  unfold shoelace. rewrite length_map.
  set (n := List.length pts).
  set (P := fun i => nth i pts (0, 0)%R).
  set (h := fun i => (cross c (rotate_about c C S (P i)) - cross c (P i))%R).
  assert (Hnth : forall i, (i < n)%nat ->
            nth i (map (rotate_about c C S) pts) (0, 0)%R = rotate_about c C S (P i)).
  { intros i Hi.
    rewrite (nth_indep _ _ (rotate_about c C S (0, 0)%R)) by (rewrite length_map; exact Hi).
    apply map_nth. }
  rewrite (Rsum_ext _ (fun i => (cross (P i) (P ((i + 1) mod n)%nat)
                                 + (h ((i + 1) mod n)%nat + - h i))%R)).
  - rewrite Rsum_plus, Rsum_plus, Rsum_opp, (Rsum_cyclic h). unfold P. lra.
  - intros i Hi.
    rewrite !Hnth by (try apply Nat.mod_upper_bound; lia).
    rewrite cross_rotate. unfold h. lra.
Qed.

End Rotation.

Lemma length_fin_points (pts : list rpoint) :
  List.length (fin_points pts) = List.length pts.
Proof. apply length_map. Qed.

(** The engine on finite coordinates computes the real shoelace sum. *)
Lemma at_fin_points (pts : list rpoint) (i : nat) :
  (i < List.length pts)%nat -> at_ (fin_points pts) i = fin_point (nth i pts (0, 0)%R).
Proof.
  intros Hi. unfold at_, fin_points.
  rewrite (nth_indep _ _ (fin_point (0, 0)%R)) by (rewrite length_map; exact Hi).
  apply map_nth.
Qed.

Lemma area_loop_fin (pts : list rpoint) (k : nat) :
  (k <= List.length pts)%nat ->
  fold_left (areaStep (fin_points pts)) (List.seq 0 k) (Fin 0)
  = Fin (0 + Rsum (fun i => cross (nth i pts (0, 0)%R)
                               (nth ((i + 1) mod List.length pts) pts (0, 0)%R)) k).
Proof.
  induction k as [| k IH]; intros Hk; [simpl; f_equal; lra |].
  rewrite seq_S, fold_left_app, IH by lia. simpl fold_left.
  unfold areaStep. rewrite length_fin_points.
  rewrite !at_fin_points by (try apply Nat.mod_upper_bound; lia).
  simpl. f_equal. unfold cross. lra.
Qed.

Lemma calculatePolygonArea_fin (pts : list rpoint) :
  calculatePolygonArea (fin_points pts) = Fin (Rabs (shoelace pts) / 2).
Proof.
  unfold calculatePolygonArea. rewrite length_fin_points.
  rewrite area_loop_fin by lia. simpl Math_abs. rewrite ndiv_fin by lra.
  unfold shoelace. rewrite Rplus_0_l. reflexivity.
Qed.

Lemma centroid_loop_fin (pts : list rpoint) (x y : R) :
  exists x' y' : R,
    fold_left (fun '(x, y) p => (x + p0 p, y + p1 p)) (fin_points pts) (Fin x, Fin y)
    = (Fin x', Fin y').
Proof.
  revert x y. induction pts as [| p pts IH]; intros x y; simpl.
  - exists x, y. reflexivity.
  - apply IH.
Qed.

Lemma getCentroid_fin (pts : list rpoint) :
  exists c : rpoint, getCentroid (fin_points pts) = fin_point c.
Proof.
  unfold getCentroid. rewrite length_fin_points.
  destruct (Nat.eqb_spec (List.length pts) 0) as [Hz | Hnz].
  - exists (0, 0)%R. reflexivity.
  - destruct (centroid_loop_fin pts 0 0) as (x & y & Hxy).
    rewrite Hxy.
    assert (INR (List.length pts) <> 0%R) by (apply not_0_INR; exact Hnz).
    rewrite !ndiv_fin by assumption.
    eexists (_, _). reflexivity.
Qed.

Lemma rotatePoints_fin (pts : list rpoint) (a : R) :
  exists c : rpoint,
    rotatePoints (fin_points pts) (Fin a)
    = fin_points (map (rotate_about c (cos (a * PI / 180)) (sin (a * PI / 180))) pts).
Proof.
  destruct (getCentroid_fin pts) as [c Hc]. exists c.
  unfold rotatePoints. rewrite Hc, angleRad_fin.
  unfold fin_points. rewrite !map_map.
  apply map_ext. intros [px py]. destruct c as [cx cy]. simpl.
  unfold fin_point, rotate_about. simpl. f_equal; f_equal; lra.
Qed.

(* ================================================================== *)
(** ** Normalizing the angle of attack *)
(* ================================================================== *)

Lemma while_gt_180_spec (a : R) :
  (a <= TURN_ABSORBED)%R ->
  exists (r : R) (k : Z),
    while_gt_180 a = Returns r
    /\ r = (a - 360 * IZR k)%R
    /\ (r <= 180)%R
    /\ ((180 < a)%R -> (-180 < r)%R)
    /\ ((a <= 180)%R -> r = a).
Proof.
  funelim (while_gt_180 a); intros Hreach.
  - exists a, 0%Z. split; [reflexivity |]. repeat split; lra.
  - lra.
  - destruct H as (res & k & Hr & Hk & Hle & Hgt & Hid); [lra |].
    exists res, (k + 1)%Z. rewrite plus_IZR.
    split; [exact Hr |]. repeat split; lra.
Qed.

Lemma while_lt_m180_spec (a : R) :
  (- TURN_ABSORBED <= a)%R ->
  exists (r : R) (k : Z),
    while_lt_m180 a = Returns r
    /\ r = (a + 360 * IZR k)%R
    /\ (-180 <= r)%R
    /\ ((a < -180)%R -> (r < 180)%R)
    /\ ((-180 <= a)%R -> r = a).
Proof.
  funelim (while_lt_m180 a); intros Hreach.
  - exists a, 0%Z. split; [reflexivity |]. repeat split; lra.
  - lra.
  - destruct H as (res & k & Hr & Hk & Hle & Hgt & Hid); [lra |].
    exists res, (k + 1)%Z. rewrite plus_IZR.
    split; [exact Hr |]. repeat split; lra.
Qed.

(** Above [2^62] the turn is absorbed and the loop runs forever. *)
Lemma while_gt_180_absorbed (a : R) :
  (TURN_ABSORBED < a)%R -> while_gt_180 a = Diverges.
Proof.
  intros H. funelim (while_gt_180 a); try reflexivity; unfold TURN_ABSORBED in *; lra.
Qed.

Lemma while_lt_m180_absorbed (a : R) :
  (a < - TURN_ABSORBED)%R -> while_lt_m180 a = Diverges.
Proof.
  intros H. funelim (while_lt_m180 a); try reflexivity; unfold TURN_ABSORBED in *; lra.
Qed.

(** A loop that returns has brought the angle to its side of the
    interval, a whole number of turns away. *)
Lemma while_gt_180_returned (a r : R) :
  while_gt_180 a = Returns r ->
  (r <= 180)%R /\ (a <= TURN_ABSORBED)%R /\ ((a <= 180)%R -> r = a)
  /\ ((180 < a)%R -> (-180 < r)%R).
Proof.
  intros H. destruct (Rle_or_lt a TURN_ABSORBED) as [Hreach | Habs].
  - destruct (while_gt_180_spec a Hreach) as (r' & k & Hr & _ & Hle & Hgt & Hid).
    rewrite Hr in H. injection H as <-. repeat split; assumption.
  - rewrite (while_gt_180_absorbed a Habs) in H. discriminate.
Qed.

Lemma while_lt_m180_returned (a r : R) :
  while_lt_m180 a = Returns r ->
  (-180 <= r)%R /\ (- TURN_ABSORBED <= a)%R /\ ((-180 <= a)%R -> r = a)
  /\ ((a < -180)%R -> (r < 180)%R).
Proof.
  intros H. destruct (Rle_or_lt (- TURN_ABSORBED) a) as [Hreach | Habs].
  - destruct (while_lt_m180_spec a Hreach) as (r' & k & Hr & _ & Hle & Hgt & Hid).
    rewrite Hr in H. injection H as <-. repeat split; assumption.
  - rewrite (while_lt_m180_absorbed a Habs) in H. discriminate.
Qed.

(** A finite angle within [2^62] of zero ends in the closed interval, a
    whole number of turns away from where it started. *)
Lemma normalizeAngle_range (a : R) :
  (- TURN_ABSORBED <= a <= TURN_ABSORBED)%R ->
  exists (a' : R) (k : Z),
    normalizeAngle (Fin a) = Returns (Fin a')
    /\ (-180 <= a' <= 180)%R
    /\ a' = (a + 360 * IZR k)%R.
Proof.
  intros [Hlo Hhi].
  destruct (while_gt_180_spec a Hhi) as (r1 & k1 & Hr1 & Hk1 & Hle1 & Hgt1 & Hid1).
  assert (Hreach : (- TURN_ABSORBED <= r1)%R).
  { destruct (Rle_or_lt a 180) as [H | H].
    - rewrite (Hid1 H). exact Hlo.
    - specialize (Hgt1 H). unfold TURN_ABSORBED. lra. }
  destruct (while_lt_m180_spec r1 Hreach) as (r2 & k2 & Hr2 & Hk2 & Hle2 & Hgt2 & Hid2).
  exists r2, (k2 - k1)%Z.
  split.
  { unfold normalizeAngle. cbn [loop_gt_180]. rewrite Hr1. cbn [bind loop_lt_m180].
    rewrite Hr2. reflexivity. }
  rewrite minus_IZR. split; [| lra].
  split; [exact Hle2 |].
  destruct (Rlt_or_le r1 (-180)) as [Hs | Hs].
  - apply Rlt_le, Hgt2, Hs.
  - rewrite Hid2 by exact Hs. exact Hle1.
Qed.

(** An angle beyond [2^62] is never normalized. *)
Lemma normalizeAngle_absorbed (a : R) :
  (TURN_ABSORBED < a \/ a < - TURN_ABSORBED)%R -> normalizeAngle (Fin a) = Diverges.
Proof.
  intros [H | H]; unfold normalizeAngle; cbn [loop_gt_180].
  - rewrite (while_gt_180_absorbed a H). reflexivity.
  - destruct (while_gt_180_spec a) as (r1 & k1 & Hr1 & _ & _ & _ & Hid1);
      [unfold TURN_ABSORBED in *; lra |].
    rewrite Hr1. cbn [bind loop_lt_m180].
    rewrite (Hid1 ltac:(unfold TURN_ABSORBED in *; lra)).
    rewrite (while_lt_m180_absorbed a H). reflexivity.
Qed.

(** What [normalizeAngle] returns on a finite angle is a finite angle of
    the closed interval, and the angle was within [2^62] of zero. *)
Lemma normalizeAngle_returned (a : R) (x : num) :
  normalizeAngle (Fin a) = Returns x ->
  exists a' : R,
    x = Fin a' /\ (-180 <= a' <= 180)%R
    /\ (- TURN_ABSORBED <= a <= TURN_ABSORBED)%R.
Proof.
  intros H.
  destruct (Rle_or_lt a TURN_ABSORBED) as [Hhi | Hhi];
    [| rewrite normalizeAngle_absorbed in H by (left; exact Hhi); discriminate].
  destruct (Rle_or_lt (- TURN_ABSORBED) a) as [Hlo | Hlo];
    [| rewrite normalizeAngle_absorbed in H by (right; exact Hlo); discriminate].
  destruct (normalizeAngle_range a (conj Hlo Hhi)) as (a' & k & Hnorm & Hrange & _).
  rewrite Hnorm in H. injection H as <-.
  exists a'. repeat split; assumption || lra.
Qed.

(** An angle that is in range already is left as it is. *)
Lemma normalizeAngle_in_range (a : R) :
  (-180 <= a <= 180)%R -> normalizeAngle (Fin a) = Returns (Fin a).
Proof.
  intros [Hlo Hhi].
  destruct (normalizeAngle_range a) as (a' & k & Hnorm & _ & Hk);
    [unfold TURN_ABSORBED; lra |].
  rewrite Hnorm. do 2 f_equal.
  destruct (while_gt_180_spec a) as (r1 & k1 & Hr1 & _ & _ & _ & Hid1);
    [unfold TURN_ABSORBED; lra |].
  destruct (while_lt_m180_spec a) as (r2 & k2 & Hr2 & _ & _ & _ & Hid2);
    [unfold TURN_ABSORBED; lra |].
  unfold normalizeAngle in Hnorm. cbn [loop_gt_180] in Hnorm.
  rewrite Hr1, (Hid1 Hhi) in Hnorm. cbn [bind loop_lt_m180] in Hnorm.
  rewrite Hr2, (Hid2 Hlo) in Hnorm. cbn [bind] in Hnorm.
  injection Hnorm as ->. reflexivity.
Qed.

(* ================================================================== *)
(** ** When the geometry analysis and the solver return *)
(* ================================================================== *)

(** The edge search keeps its two indices inside the polygon. *)
Lemma edge_loop_in_range (mnX mxX : num) (n : nat) (l : list (nat * point)) :
  (forall ip, In ip l -> (fst ip < n)%nat) ->
  forall iLE iTE dLE dTE, (iLE < n)%nat -> (iTE < n)%nat ->
  forall iLE' iTE' dLE' dTE',
    fold_left (edgeStep mnX mxX) l (iLE, iTE, dLE, dTE) = (iLE', iTE', dLE', dTE') ->
    (iLE' < n)%nat /\ (iTE' < n)%nat.
Proof.
  induction l as [| [i p] l IH]; intros Hin iLE iTE dLE dTE HLE HTE iLE' iTE' dLE' dTE' Hfold.
  - simpl in Hfold. injection Hfold as <- <- _ _. split; assumption.
  - simpl in Hfold.
    assert (Hi : (i < n)%nat) by (apply (Hin (i, p)); left; reflexivity).
    eapply IH; [| | | exact Hfold].
    + intros ip Hip. apply Hin. right. exact Hip.
    + destruct (_ <? dLE); assumption.
    + destruct (_ <? dTE); assumption.
Qed.

(** On a polygon with a point and a chord that is not zero, the
    analysis returns a record that has its [camber]. *)
Lemma analyzeGeometry_returns (pts : list point) (bounds : BoundingBox) :
  pts <> [] ->
  (maxX bounds - minX bounds === 0) = false ->
  exists g c, analyzeGeometry pts bounds = Returns g /\ camber g = Some c.
Proof.
  intros Hne Hchord. unfold analyzeGeometry. rewrite Hchord.
  destruct (fold_left _ _ _) as [[[iLE iTE] dLE] dTE] eqn:Hfold.
  assert (Hn : (0 < List.length pts)%nat) by (destruct pts; [congruence | simpl; lia]).
  assert (Hin : forall ip, In ip (combine (List.seq 0 (List.length pts)) pts) ->
                         (fst ip < List.length pts)%nat).
  { intros [i p] Hip. apply in_combine_l in Hip. apply in_seq in Hip. simpl. lia. }
  destruct (edge_loop_in_range _ _ _ _ Hin _ _ _ _ Hn Hn _ _ _ _ Hfold) as [HLE HTE].
  destruct (nth_error pts iLE) as [pLE |] eqn:ELE;
    [| apply nth_error_None in ELE; lia].
  destruct (nth_error pts iTE) as [pTE |] eqn:ETE;
    [| apply nth_error_None in ETE; lia].
  destruct (fold_left _ pts _) as [[[[uA lA] sY] mU] mL].
  eexists _, _. split; reflexivity.
Qed.

(** On a chord of length zero it returns the default, which has no
    [camber] property. *)
Lemma analyzeGeometry_degenerate (pts : list point) (bounds : BoundingBox) :
  (maxX bounds - minX bounds === 0) = true ->
  analyzeGeometry pts bounds
  = Returns {| maxCamber := Some (Fin 0); camber := None; thickness := 0;
               isSymmetric := true; teAngle := 180; leRadius := 0 |}.
Proof. intros H. unfold analyzeGeometry. rewrite H. reflexivity. Qed.

(** The analysis throws on the empty polygon. *)
Lemma analyzeGeometry_empty : analyzeGeometry [] (getBoundingBox []) = Throws TypeError.
Proof. reflexivity. Qed.

Lemma calculateDrag_returns (pts : list point) (params : Params) (a : num) :
  pts <> [] ->
  (maxX (getBoundingBox pts) - minX (getBoundingBox pts) === 0) = false ->
  normalizeAngle (or_default (angle params) 0) = Returns a ->
  exists r, calculateDrag pts params = Returns r.
Proof.
  intros Hne Hchord Hnorm.
  destruct (analyzeGeometry_returns pts _ Hne Hchord) as (g & c & Hg & Hc).
  unfold calculateDrag. rewrite Hnorm. cbn [bind]. rewrite Hg. cbn [bind].
  rewrite Hc. cbn [toFixed_prop bind]. eexists. reflexivity.
Qed.

Lemma calculateDrag_degenerate (pts : list point) (params : Params) (a : num) :
  (maxX (getBoundingBox pts) - minX (getBoundingBox pts) === 0) = true ->
  normalizeAngle (or_default (angle params) 0) = Returns a ->
  calculateDrag pts params = Throws TypeError.
Proof.
  intros Hchord Hnorm.
  unfold calculateDrag. rewrite Hnorm. cbn [bind].
  rewrite (analyzeGeometry_degenerate _ _ Hchord). reflexivity.
Qed.

(* ================================================================== *)
(** ** Running the engine on a given polygon *)
(* ================================================================== *)

(** The engine is run on a concrete polygon one statement at a time:
    each [let] of the function is given its value, which evaluation of
    the comparisons and linear arithmetic shows, and the body goes on
    with that value. *)

Ltac rabs :=
  repeat match goal with
  | |- context [Rabs ?x] =>
      first [ rewrite (Rabs_pos_eq x) by lra | rewrite (Rabs_left1 x) by lra ]
  end.

Ltac jeval :=
  repeat (progress (simpl; try unfold or_default, truthy, scaled_inf, fin_point; rabs; rcmp)).

Ltac fin_split :=
  repeat match goal with
  | |- Fin _ = Fin _ => apply (f_equal Fin)
  | |- (_, _) = (_, _) => apply f_equal2
  | |- Some _ = Some _ => apply f_equal
  | |- _ :: _ = _ :: _ => apply f_equal2
  | |- Returns _ = Returns _ => apply f_equal
  | |- mkBounds _ _ _ _ _ _ = mkBounds _ _ _ _ _ _ => f_equal
  | |- mkGeometry _ _ _ _ _ _ = mkGeometry _ _ _ _ _ _ => f_equal
  end.

(** Two values are equal by evaluation. *)
Ltac fin_eq := solve [jeval; fin_split; first [reflexivity | lra]].

Ltac sqrt_eq := jeval; f_equal; apply sqrt_lem_1; lra.

Lemma let_intro {A B : Type} (v v' : A) (f : A -> B) (r : B) :
  v = v' -> f v' = r -> (let x := v in f x) = r.
Proof. intros -> H. exact H. Qed.

Lemma bind_intro {A B : Type} (m : outcome A) (a : A) (k : A -> outcome B) (r : outcome B) :
  m = Returns a -> k a = r -> bind m k = r.
Proof. intros -> H. exact H. Qed.

(** [let_is c]: the next [let] binds a value equal to [c], which
    evaluation shows; [let_is' c] leaves that equation as a goal;
    [let_skip] goes on without evaluating the bound term. *)
Ltac let_is' c :=
  lazymatch goal with
  | |- (let x := ?v in @?f x) = ?r =>
      refine (let_intro v c f r _ _); [ | cbv beta ]
  | |- _ => fail "the goal does not start with a let"
  end.

Ltac let_is c :=
  let_is' c; [ first [ fin_eq | fail 1 "the value is not shown by evaluation" ] | ].

Ltac let_skip :=
  lazymatch goal with
  | |- (let x := ?v in @?f x) = ?r => change (f v = r); cbv beta
  end.

(** [bind_is a]: the next call returns [a]. *)
Ltac bind_is a :=
  lazymatch goal with
  | |- bind ?m ?k = ?r => refine (bind_intro m a k r _ _); [ | cbv beta ]
  end.

(** [cond_is b]: the condition of the next [if] is [b];
    [scrut_is v]: the next [match] is on a value equal to [v]. *)
Ltac cond_is b :=
  match goal with
  | |- (if ?c then _ else _) = _ =>
      replace c with b by (symmetry; jeval; reflexivity); cbv iota
  end.

Ltac scrut_is v :=
  match goal with
  | |- (match ?s with _ => _ end) = _ =>
      replace s with v by (symmetry; fin_eq); cbv beta iota
  end.

(** *** Angles, rotation and rounding *)

Lemma normalizeAngle_zero_param :
  normalizeAngle (or_default (Some (Fin 0)) 0) = Returns (Fin 0).
Proof.
  replace (or_default (Some (Fin 0)) 0) with (Fin 0) by (symmetry; unfold or_default; fin_eq).
  apply normalizeAngle_in_range. lra.
Qed.

Lemma normalizeAngle_90_param :
  normalizeAngle (or_default (Some (Fin 90)) 0) = Returns (Fin 90).
Proof.
  replace (or_default (Some (Fin 90)) 0) with (Fin 90) by (symmetry; fin_eq).
  apply normalizeAngle_in_range. lra.
Qed.

(** An infinite angle keeps one of the two loops running. *)
Lemma calculateDrag_infinite_angle (pts : list point) (params : Params) :
  angle params = Some PInf \/ angle params = Some NInf ->
  calculateDrag pts params = Diverges.
Proof.
  intros [H | H]; unfold calculateDrag; rewrite H; reflexivity.
Qed.

Lemma cos_90 : cos (90 * PI / 180) = 0%R.
Proof. replace (90 * PI / 180)%R with (PI / 2)%R by lra. apply cos_PI2. Qed.

Lemma sin_90 : sin (90 * PI / 180) = 1%R.
Proof. replace (90 * PI / 180)%R with (PI / 2)%R by lra. apply sin_PI2. Qed.

(** Rotation by no angle leaves a polygon with finite coordinates as it is. *)
Lemma rotatePoints_zero (pts : list rpoint) :
  rotatePoints (fin_points pts) (Fin 0) = fin_points pts.
Proof.
  destruct (rotatePoints_fin pts 0) as [c ->].
  replace (0 * PI / 180)%R with 0%R by lra. rewrite cos_0, sin_0.
  f_equal. rewrite <- (map_id pts) at 2.
  apply map_ext. intros [px py]. destruct c as [cx cy].
  unfold rotate_about. simpl. f_equal; lra.
Qed.

(** A value that is a multiple of [10^-digits] prints as itself. *)
Lemma Int_part_half (z : Z) : Int_part (IZR z + / 2) = z.
Proof.
  unfold Int_part.
  rewrite <- (up_tech (IZR z + / 2) z); [lia | lra | rewrite plus_IZR; lra].
Qed.

Lemma round_half_away_IZR (z : Z) : round_half_away (IZR z) = z.
Proof.
  unfold round_half_away. destruct (Rltb_spec (IZR z) 0).
  - rewrite <- opp_IZR, Int_part_half. lia.
  - apply Int_part_half.
Qed.

Lemma toFixed_exact (z : Z) (x : R) (digits : nat) :
  (Rabs x < 1e21)%R -> (x * 10 ^ digits)%R = IZR z -> toFixed (Fin x) digits = Fin x.
Proof.
  intros Hx Hz. unfold toFixed. rewrite Rltb_true by exact Hx.
  rewrite Hz, round_half_away_IZR, <- Hz. f_equal. field.
  apply pow_nonzero. lra.
Qed.

Lemma toFixed_value (z : Z) (x : R) (digits : nat) :
  (0 <= x < 1e21)%R ->
  (IZR z <= x * 10 ^ digits + / 2 < IZR z + 1)%R ->
  toFixed (Fin x) digits = Fin (IZR z / 10 ^ digits).
Proof.
  intros Hx Hz. unfold toFixed.
  rewrite Rltb_true by (rewrite Rabs_pos_eq; lra).
  assert (Hp : (0 < 10 ^ digits)%R) by (apply pow_lt; lra).
  unfold round_half_away. rewrite Rltb_false by nra.
  unfold Int_part.
  rewrite <- (up_tech (x * 10 ^ digits + / 2) z); [| lra | rewrite plus_IZR; lra].
  replace (z + 1 - 1)%Z with z by lia. reflexivity.
Qed.

(** *** The drag model of a streamlined shape of aspect ratio 4 at angle 0 *)

Lemma streamlined_cd_without_geometry (re sol : num) :
  calculateDragCoefficient "streamlined" re 4 sol 0 None = Fin 0.2.
Proof.
  pose proof PI_RGT_0 as Hpi.
  cbv beta delta [calculateDragCoefficient].
  let_is false. let_is NaN.
  let_is' (Fin 0.2); [| unfold clampCd; fin_eq].
  cond_is false. cond_is false. cond_is true.
  let_is (Fin 4).
  let_is' (Fin 0.2).
  { replace (Math_sqrt 4) with (Fin 2) by (symmetry; sqrt_eq). fin_eq. }
  let_is (Fin 0.2). let_is (Fin 0.2).
  let_is (Fin 0).
  unfold Math_PI. fin_eq.
Qed.

Lemma streamlined_cd_with_geometry (re sol : num) (g : Geometry) :
  isSymmetric g = false -> teAngle g = Fin 90 ->
  calculateDragCoefficient "streamlined" re 4 sol 0 (Some g) = Fin 0.3.
Proof.
  intros Hsym Hte. pose proof PI_RGT_0 as Hpi.
  cbv beta delta [calculateDragCoefficient].
  let_is' false; [simpl; exact Hsym |]. let_is' (Fin 90); [simpl; exact Hte |].
  let_is' (Fin 0.3); [| unfold clampCd; fin_eq].
  cond_is false. cond_is false. cond_is true.
  let_is (Fin 4).
  let_is' (Fin 0.2).
  { replace (Math_sqrt 4) with (Fin 2) by (symmetry; sqrt_eq). fin_eq. }
  let_is (Fin 0.2). let_is (Fin 0.3).
  let_is (Fin 0).
  unfold Math_PI. fin_eq.
Qed.

(** *** The wedge [[0,0],[400,0],[400,100]] at angle 0 *)

Lemma wedge_bounds :
  getBoundingBox (fin_points blunt_wedge)
  = {| width := 400; height := 100; minX := 0; maxX := 400; minY := 0; maxY := 100 |}.
Proof. unfold getBoundingBox. fin_eq. Qed.

Lemma wedge_moderate : moderate_polygon blunt_wedge.
Proof.
  intros p Hp. simpl in Hp.
  repeat (destruct Hp as [<- | Hp]; [cbn [fst snd]; split; apply Rabs_le; lra |]).
  destruct Hp.
Qed.

Lemma wedge_area : calculatePolygonArea (fin_points blunt_wedge) = Fin 20000.
Proof. unfold calculatePolygonArea. fin_eq. Qed.

Lemma wedge_geometry :
  analyzeGeometry (fin_points blunt_wedge) (getBoundingBox (fin_points blunt_wedge))
  = Returns {| maxCamber := None; camber := Some (Fin (-1/12)); thickness := 0.25;
               isSymmetric := false; teAngle := 90; leRadius := 0.125 |}.
Proof.
  pose proof PI_RGT_0 as Hpi.
  rewrite wedge_bounds. cbv beta delta [analyzeGeometry].
  let_is (Fin 0). let_is (Fin 400). let_is (Fin 400).
  cond_is false.
  let_is 3%nat.
  scrut_is (0%nat, 1%nat, Fin 0, Fin 0).
  scrut_is (Some (Fin 0, Fin 0)).
  scrut_is (Some (Fin 400, Fin 0)).
  let_is (Fin 0). let_is (Fin 400).
  let_is' (Fin 400); [sqrt_eq |].
  let_is (Fin 1). let_is (Fin 0). let_is (Fin 0). let_is (Fin 1).
  scrut_is (Fin 100, Fin 0, Fin 100, Fin 100, Fin 0).
  let_is (Fin (100 / 3)). let_is (Fin (-1 / 12)). let_is (Fin 0.25).
  let_is (Fin 0). let_is (Fin 0). let_is false.
  let_is (Fin 0, Fin 0). let_is (Fin 400, Fin 100).
  let_is (Fin (-400)). let_is (Fin 0). let_is (Fin 0). let_is (Fin 100).
  let_is' (Fin PI).
  { jeval. f_equal. replace (0 / -400)%R with 0%R by lra. rewrite atan_0. lra. }
  let_is (Fin (PI / 2)).
  let_is' (Fin 90).
  { unfold Math_PI. jeval. f_equal.
    match goal with |- Rabs ?x = _ => replace x with 90%R by (field; lra) end.
    apply Rabs_pos_eq. lra. }
  let_is (Fin 90).
  let_is (Fin 400, Fin 100). let_is (Fin 400, Fin 0).
  let_is' (Fin 100); [unfold Math_pow2; sqrt_eq |].
  let_is (Fin 0.125).
  reflexivity.
Qed.

Lemma wedge_solve :
  exists r,
    calculateDrag (fin_points blunt_wedge) (standard_params 0) = Returns r
    /\ shapeType r = "streamlined"%string
    /\ cd r = Fin 0.2.
Proof.
  eexists. split.
  - cbv beta delta [calculateDrag].
    let_is (Fin 50). let_is (Fin (50 / 3.6)). let_is (Fin 1.225).
    bind_is (Fin 0); [apply normalizeAngle_zero_param |].
    let_skip.
    let_is' (fin_points blunt_wedge); [apply rotatePoints_zero |].
    let_is' {| width := 400; height := 100; minX := 0; maxX := 400; minY := 0; maxY := 100 |};
      [apply wedge_bounds |].
    let_is (Fin 1). let_is (Fin 4). let_is (Fin 1). let_is (Fin 4).
    let_is' (Fin 20000); [apply wedge_area |].
    let_is (Fin 40000). let_is (Fin 0.5). let_is (Fin 4).
    let_is' "streamlined"%string; [unfold classifyShape; fin_eq |].
    let_is (Fin 4).
    let_skip.
    bind_is {| maxCamber := None; camber := Some (Fin (-1/12)); thickness := 0.25;
               isSymmetric := false; teAngle := 90; leRadius := 0.125 |};
      [apply wedge_geometry |].
    let_is' (Fin 0.2); [apply streamlined_cd_without_geometry |].
    do 8 let_skip.
    bind_is (toFixed (Fin (-1/12)) 4); [reflexivity |].
    reflexivity.
  - cbn [shapeType cd]. split; [reflexivity |].
    apply (toFixed_exact 200); [rabs; lra | simpl; lra].
Qed.

(** *** The triangle [[0,0],[302,0],[0,100]] at angle 90 *)

Lemma triangle_bounds :
  getBoundingBox (fin_points wide_triangle)
  = {| width := 302; height := 100; minX := 0; maxX := 302; minY := 0; maxY := 100 |}.
Proof. unfold getBoundingBox. fin_eq. Qed.

Lemma triangle_area : calculatePolygonArea (fin_points wide_triangle) = Fin 15100.
Proof. unfold calculatePolygonArea. fin_eq. Qed.

Lemma triangle_rotated :
  rotatePoints (fin_points wide_triangle) (Fin 90)
  = fin_points [(134, -202 / 3); (134, 704 / 3); (34, -202 / 3)]%R.
Proof.
  cbv beta delta [rotatePoints].
  let_is' (Fin (90 * PI / 180)); [apply angleRad_fin |].
  let_is' (Fin 0); [simpl; f_equal; apply cos_90 |].
  let_is' (Fin 1); [simpl; f_equal; apply sin_90 |].
  let_is' (Fin (302 / 3), Fin (100 / 3)); [unfold getCentroid; fin_eq |].
  fin_eq.
Qed.

Lemma triangle_rotated_bounds :
  getBoundingBox (fin_points [(134, -202 / 3); (134, 704 / 3); (34, -202 / 3)]%R)
  = {| width := 100; height := 302; minX := 34; maxX := 134;
       minY := Fin (-202 / 3); maxY := Fin (704 / 3) |}.
Proof. unfold getBoundingBox. fin_eq. Qed.

Lemma triangle_solve :
  exists r,
    calculateDrag (fin_points wide_triangle) (standard_params 90) = Returns r
    /\ shapeType r = "bluff"%string
    /\ debug_aspectRatio (debug r) = Fin 0.331.
Proof.
  destruct (analyzeGeometry_returns (fin_points wide_triangle)
              (getBoundingBox (fin_points wide_triangle)))
    as (g & c & Hg & Hc).
  { discriminate. }
  { rewrite triangle_bounds. fin_eq. }
  eexists. split.
  - cbv beta delta [calculateDrag].
    let_is (Fin 50). let_is (Fin (50 / 3.6)). let_is (Fin 1.225).
    bind_is (Fin 90); [apply normalizeAngle_90_param |].
    let_skip.
    let_is' (fin_points [(134, -202 / 3); (134, 704 / 3); (34, -202 / 3)]%R);
      [apply triangle_rotated |].
    let_is' {| width := 100; height := 302; minX := 34; maxX := 134;
               minY := Fin (-202 / 3); maxY := Fin (704 / 3) |};
      [apply triangle_rotated_bounds |].
    let_is (Fin 3.02). let_is (Fin 1). let_is (Fin 3.02). let_is (Fin 3.02).
    let_is' (Fin 15100); [apply triangle_area |].
    let_is (Fin 30200). let_is (Fin 0.5). let_is (Fin (100 / 302)).
    let_is' "bluff"%string; [unfold classifyShape; fin_eq |].
    do 2 let_skip.
    bind_is g; [exact Hg |].
    do 9 let_skip.
    rewrite Hc.
    bind_is (toFixed c 4); [reflexivity |].
    reflexivity.
  - cbn [shapeType debug debug_aspectRatio]. split; [reflexivity |].
    rewrite (toFixed_value 331); [fin_eq | lra | simpl; lra].
Qed.

Lemma triangle_claimed_shape :
  classifyShape (fin_points wide_triangle) (getBoundingBox (fin_points wide_triangle))
    (unrotated_solidity (fin_points wide_triangle))
  = "streamlined"%string.
Proof.
  unfold unrotated_solidity. rewrite triangle_bounds, triangle_area.
  unfold classifyShape. fin_eq.
Qed.

(** *** The sliver [[0,0],[0,100],[0,50]] and the two points [[0,0],[100,50]] *)

Lemma sliver_chord :
  (maxX (getBoundingBox (fin_points vertical_sliver))
   - minX (getBoundingBox (fin_points vertical_sliver)) === 0) = true.
Proof. unfold getBoundingBox. jeval. reflexivity. Qed.

Lemma two_points_returns :
  exists r, calculateDrag (fin_points two_points) (standard_params 0) = Returns r.
Proof.
  apply (calculateDrag_returns _ _ (Fin 0)).
  - discriminate.
  - unfold getBoundingBox. fin_eq.
  - apply normalizeAngle_zero_param.
Qed.

(** *** The arguments that the solver passes to the drag model *)






(** A solve that returns has normalized its angle: a finite angle was
    within [2^62] of zero and has come into the closed interval. *)
Lemma calculateDrag_angle (pts : list point) (params : Params) (r : Result) :
  calculateDrag pts params = Returns r ->
  exists x : num, normalizeAngle (or_default (angle params) 0) = Returns x.
Proof.
  unfold calculateDrag.
  destruct (normalizeAngle (or_default (angle params) 0)) as [x | |];
    cbn [bind]; intros H; [exists x; reflexivity | discriminate | discriminate].
Qed.

Lemma calculateDrag_fin_angle
    (pts : list point) (ws rho : option num) (a : R) (r : Result) :
  calculateDrag pts {| windSpeed := ws; angle := Some (Fin a); airDensity := rho |}
  = Returns r ->
  exists a' : R,
    normalizeAngle (or_default (Some (Fin a)) 0) = Returns (Fin a')
    /\ (-180 <= a' <= 180)%R.
Proof.
  intros H. destruct (calculateDrag_angle _ _ _ H) as [x Hx]. cbn [angle] in Hx.
  rewrite or_default_fin_angle in Hx |- *.
  destruct (normalizeAngle_returned a x Hx) as (a' & -> & Hrange & _).
  exists a'. split; assumption.
Qed.


(* ================================================================== *)
(** ** The claims *)
(* ================================================================== *)

(** C1 (amended).  The solve operation computes solidity as the polygon
    area over the area of the bounding box of the polygon rotated by the
    normalized angle of attack, aspectRatio as that rotated box's width
    over its height, and classifies the shape with the rotated box and
    that solidity; the rotated box is the box of the polygon as given
    when the normalized angle is 0 and the coordinates are finite. *)
Theorem solve_classifies_with_rotated_box
    (pts : list point) (params : Params) (a : num) (r : Result) :
  normalizeAngle (or_default (angle params) 0) = Returns a ->
  calculateDrag pts params = Returns r ->
  let bounds := getBoundingBox (rotatePoints pts a) in
  let boxArea := width bounds * height bounds in
  let solidity := if boxArea >? 0 then calculatePolygonArea pts / boxArea else Fin 1.0 in
  let aspectRatio := if height bounds >? 0 then width bounds / height bounds else Fin 1.0 in
  shapeType r = classifyShape pts bounds solidity
  /\ debug_solidity (debug r) = toFixed solidity 3
  /\ debug_aspectRatio (debug r) = toFixed aspectRatio 3
  /\ (forall rpts, pts = fin_points rpts -> a = Fin 0 -> bounds = getBoundingBox pts).
Proof.
  intros Hnorm H. unfold calculateDrag in H. rewrite Hnorm in H. cbn [bind] in H.
  destruct (analyzeGeometry _ _) as [g | |]; cbn [bind] in H; try discriminate.
  destruct (camber g) as [c |]; cbn [toFixed_prop bind] in H; try discriminate.
  injection H as <-. cbn [shapeType debug debug_solidity debug_aspectRatio].
  repeat split.
  intros rpts -> ->. rewrite rotatePoints_zero. reflexivity.
Qed.

(** The statement of C1 (amended) on the triangle turned by 90 degrees. *)
Lemma rotated_triangle_witness :
  exists r,
    calculateDrag (fin_points wide_triangle) (standard_params 90) = Returns r
    /\ shapeType r
       = classifyShape (fin_points wide_triangle)
           (getBoundingBox (rotatePoints (fin_points wide_triangle) (Fin 90)))
           (let bounds := getBoundingBox (rotatePoints (fin_points wide_triangle) (Fin 90)) in
            if width bounds * height bounds >? 0
            then calculatePolygonArea (fin_points wide_triangle)
                 / (width bounds * height bounds)
            else Fin 1.0).
Proof.
  destruct triangle_solve as (r & Hr & _).
  exists r. split; [exact Hr |].
  exact (proj1 (solve_classifies_with_rotated_box
                  (fin_points wide_triangle) (standard_params 90) (Fin 90) r
                  normalizeAngle_90_param Hr)).
Defined.

(** C1, as stated, fails: a triangle 302 wide and 100 high, turned by 90
    degrees, is classified bluff with aspect ratio 0.331, where the box of
    the triangle as given has aspect ratio 3.02 and makes it streamlined. *)
Lemma unrotated_box_counterexample :
  exists r,
    calculateDrag (fin_points wide_triangle) (standard_params 90) = Returns r
    /\ shapeType r = "bluff"%string
    /\ classifyShape (fin_points wide_triangle)
         (getBoundingBox (fin_points wide_triangle))
         (unrotated_solidity (fin_points wide_triangle)) = "streamlined"%string
    /\ debug_aspectRatio (debug r) = Fin 0.331
    /\ width (getBoundingBox (fin_points wide_triangle))
       / height (getBoundingBox (fin_points wide_triangle)) = Fin 3.02.
Proof.
  destruct triangle_solve as (r & Hr & Hshape & Har).
  exists r. repeat split; try assumption.
  - apply triangle_claimed_shape.
  - rewrite triangle_bounds. fin_eq.
Qed.

(** C2, on the code: a wedge 400 wide and 100 high at angle 0.  The
    geometry analysis reports a trailing-edge angle of 90 degrees, for
    which the drag model with the geometry gives 0.3; the solve operation
    calls the model without the geometry and returns 0.2. *)
Theorem wedge_drag_without_trailing_edge_penalty :
  exists r g,
    analyzeGeometry (fin_points blunt_wedge) (getBoundingBox (fin_points blunt_wedge))
    = Returns g
    /\ teAngle g = Fin 90
    /\ isSymmetric g = false
    /\ calculateDrag (fin_points blunt_wedge) (standard_params 0) = Returns r
    /\ shapeType r = "streamlined"%string
    /\ cd r = Fin 0.2
    /\ (forall re sol, calculateDragCoefficient "streamlined" re 4 sol 0 (Some g) = Fin 0.3).
Proof.
  destruct wedge_solve as (r & Hr & Hshape & Hcd).
  eexists r, _. split; [apply wedge_geometry |].
  repeat split; try assumption.
  intros re sol. apply streamlined_cd_with_geometry; reflexivity.
Qed.

(** C3, on the code: three points on one vertical line.  The analyzer
    returns its default with the property [maxCamber] in place of
    [camber], and the solve operation throws on reading [camber]; the
    route reports status 500. *)
Theorem sliver_solve_throws :
  analyzeGeometry (fin_points vertical_sliver) (getBoundingBox (fin_points vertical_sliver))
  = Returns {| maxCamber := Some (Fin 0); camber := None; thickness := 0;
               isSymmetric := true; teAngle := 180; leRadius := 0 |}
  /\ calculateDrag (fin_points vertical_sliver) (standard_params 0) = Throws TypeError
  /\ simulate (request (fin_points vertical_sliver) (standard_params 0))
     = json_error 500 "Simulation failed".
Proof.
  assert (H : calculateDrag (fin_points vertical_sliver) (standard_params 0) = Throws TypeError).
  { apply (calculateDrag_degenerate _ _ (Fin 0)); [apply sliver_chord |].
    apply normalizeAngle_zero_param. }
  split; [apply analyzeGeometry_degenerate, sliver_chord |].
  split; [exact H |].
  unfold simulate, request. cbn [shape parameters points]. rewrite H. reflexivity.
Qed.

(** Without a wind speed the velocity is NaN, and so is all that is
    multiplied by it. *)
Lemma missing_windSpeed_gives_nan (pts : list point) (params : Params) (r : Result) :
  windSpeed params = None ->
  calculateDrag pts params = Returns r ->
  dragForce r = NaN /\ liftForce r = NaN /\ reynolds r = NaN.
Proof.
  intros Hws H. unfold calculateDrag in H. rewrite Hws in H.
  destruct (normalizeAngle _) as [a | |]; cbn [bind] in H; try discriminate.
  destruct (analyzeGeometry _ _) as [g | |]; cbn [bind] in H; try discriminate.
  destruct (camber g) as [c |]; cbn [toFixed_prop bind] in H; try discriminate.
  cbv zeta in H. injection H as <-. cbn [dragForce liftForce reynolds].
  unfold parseFloat_toFixed, calculateReynolds.
  cbn [ToNumber]. nan_absorb. repeat split.
Qed.

(** C4 (amended).  The route answers with the structured error of
    status 400 exactly when [shape], [shape.points] or [parameters] is
    missing.  Any other request goes to the solver unvalidated and its
    outcome decides the answer: the result with status 200, or the error
    of status 500 when it throws.  With [windSpeed] missing, a result that
    is returned has NaN for [dragForce], [liftForce] and [reynolds]; with
    an infinite [angle] the solver does not come back and nothing is
    answered. *)
Theorem route_rejects_only_missing_parts :
  (forall req,
      (exists msg, simulate req = json_error 400 msg)
      <-> (shape req = None
           \/ (exists sh, shape req = Some sh /\ points sh = None)
           \/ parameters req = None))
  /\ (forall pts params,
         simulate (request pts params)
         = match calculateDrag pts params with
           | Returns r => json 200 r
           | Throws _ => json_error 500 "Simulation failed"
           | Diverges => no_response
           end)
  /\ (forall pts params r,
         windSpeed params = None ->
         calculateDrag pts params = Returns r ->
         dragForce r = NaN /\ liftForce r = NaN /\ reynolds r = NaN)
  /\ (forall pts params,
         angle params = Some PInf \/ angle params = Some NInf ->
         simulate (request pts params) = no_response).
Proof.
  split; [| split; [| split]].
  - intros [[[[pts |]] |] [prm |]]; unfold simulate; cbn [shape parameters points]; split.
    + destruct (calculateDrag pts prm); intros [msg H]; discriminate.
    + intros [H | [(sh & H1 & H2) | H]]; try discriminate.
      injection H1 as <-. discriminate.
    + intros _. right. right. reflexivity.
    + intros _. eexists. reflexivity.
    + intros _. right. left. eexists. split; reflexivity.
    + intros _. eexists. reflexivity.
    + intros _. right. right. reflexivity.
    + intros _. eexists. reflexivity.
    + intros _. left. reflexivity.
    + intros _. eexists. reflexivity.
    + intros _. left. reflexivity.
    + intros _. eexists. reflexivity.
  - reflexivity.
  - exact missing_windSpeed_gives_nan.
  - intros pts params H. unfold simulate, request. cbn [shape parameters points].
    rewrite (calculateDrag_infinite_angle _ _ H). reflexivity.
Qed.

(** The solver returns on the wedge without a wind speed. *)
Lemma wedge_no_windSpeed_returns :
  exists r, calculateDrag (fin_points blunt_wedge) no_windSpeed = Returns r.
Proof.
  apply (calculateDrag_returns _ _ (Fin 0)).
  - discriminate.
  - rewrite wedge_bounds. fin_eq.
  - apply normalizeAngle_zero_param.
Qed.

(** The statement of C4 (amended) on the wedge without a wind speed. *)
Lemma missing_windSpeed_nan_witness :
  exists r,
    calculateDrag (fin_points blunt_wedge) no_windSpeed = Returns r
    /\ dragForce r = NaN /\ liftForce r = NaN /\ reynolds r = NaN.
Proof.
  destruct wedge_no_windSpeed_returns as [r Hr].
  exists r. split; [exact Hr |].
  exact (proj1 (proj2 (proj2 route_rejects_only_missing_parts))
           (fin_points blunt_wedge) no_windSpeed r eq_refl Hr).
Defined.

(** C4, as stated, fails: a request with a polygon and parameters but
    no [windSpeed] is answered with status 200 and a result whose forces
    are NaN, and a request with a polygon of two points is answered with
    status 200 and a result; neither is answered with a structured
    error. *)
Lemma missing_windSpeed_counterexample :
  (exists r,
      simulate (request (fin_points blunt_wedge) no_windSpeed) = json 200 r
      /\ dragForce r = NaN /\ liftForce r = NaN)
  /\ (exists r,
         simulate (request (fin_points two_points) (standard_params 0)) = json 200 r).
Proof.
  split.
  - destruct wedge_no_windSpeed_returns as [r Hr].
    exists r. unfold simulate, request. cbn [shape parameters points]. rewrite Hr.
    split; [reflexivity |].
    destruct (missing_windSpeed_gives_nan (fin_points blunt_wedge) no_windSpeed r eq_refl Hr)
      as (Hd & Hl & _).
    split; assumption.
  - destruct two_points_returns as [r Hr].
    exists r. unfold simulate, request. cbn [shape parameters points]. rewrite Hr.
    reflexivity.
Qed.

(** The drag model stays inside its clamp on finite arguments with an
    aspect ratio that is not negative. *)
Lemma drag_model_clamped
    (shapeType : string) (re ar sol ang : R) (g : option Geometry) :
  (0 <= ar)%R ->
  exists c : R,
    calculateDragCoefficient shapeType re ar sol ang g = Fin c
    /\ (0.01 <= c <= 2.5)%R.
Proof.
  intros Har. unfold calculateDragCoefficient. apply clampCd_range.
  rewrite angleRad_fin.
  pose proof (fineness_pos_ext ar Har) as Hf.
  destruct (div_pos_ext_fin 0.5 _ Hf) as [yb Hyb].
  destruct (div_pos_ext_fin 2.0 _ (sqrt_pos_ext _ Hf)) as [yr Hyr].
  destruct (div_pos_ext_fin 0.3 _ (sqrt_pos_ext _ Hf)) as [ys Hys].
  rewrite Hyb, Hyr, Hys.
  destruct (String.eqb shapeType "circular");
    [ | destruct (String.eqb shapeType "rectangular");
        [ | destruct (String.eqb shapeType "streamlined")]].
  - (* circular *)
    assert (Hcd : (if Fin re <? 1 then Math_max (24 / Fin re) 2.0
                   else if Fin re <? 2e5 then Fin 1.17
                   else if Fin re <? 5e5 then
                          0.3 + (1.2 - 0.3) * (1 / (1 + Math_exp ((Fin re - 3.5e5) / 50000)))
                        else 0.35 + Fin re / 1e7 * 0.1) <> NaN).
    { destruct (Fin re <? 1).
      - apply notNaN_max; [| discriminate].
        simpl. unfold scaled_inf. rcases; first [discriminate | exfalso; lra].
      - destruct (Fin re <? 2e5); [discriminate |].
        destruct (Fin re <? 5e5).
        + simpl (Fin re - _). rewrite ndiv_fin by lra. simpl Math_exp.
          match goal with |- context [exp ?x] => pose proof (exp_pos x) end.
          simpl (1 + Fin _). rewrite ndiv_fin by lra. discriminate.
        + rewrite ndiv_fin by lra. discriminate. }
    cbv zeta.
    destruct (_ >? 0.1); [| exact Hcd].
    apply notNaN_mul_pos; [exact Hcd |].
    pose proof (SIN_bound (Rabs (ang * PI / 180))). lra.
  - (* rectangular *)
    simpl. rcases; discriminate.
  - (* streamlined *)
    cbv zeta. simpl (0.05 + Fin ys).
    set (cd1 := if _ && _ then _ else _).
    assert (Hcd1 : exists x, cd1 = Fin x).
    { unfold cd1. destruct (_ && _); eexists; reflexivity. }
    destruct Hcd1 as [x1 Hx1]. rewrite Hx1.
    set (cd2 := if _ >? 20 then _ else _).
    assert (Hcd2 : cd2 <> NaN).
    { unfold cd2. destruct (ToNumber (option_map teAngle g)) as [t | | |]; unfold ngt; simpl;
        unfold scaled_inf; rcmp; rcases; first [discriminate | exfalso; lra]. }
    destruct (_ >? Math_PI / 12); [| exact Hcd2].
    simpl Math_abs. simpl Math_sin. simpl Math_pow2. simpl (1.0 + _).
    apply notNaN_mul_pos; [exact Hcd2 |].
    set (s := sin _). nra.
  - (* bluff *)
    simpl. rcases; discriminate.
Qed.



(** C6.  Whenever the geometry analysis reports [isSymmetric] and the
    angle of attack has magnitude below 0.5 degrees, for every shape type,
    Reynolds number, aspect ratio and solidity,
    [calculateLiftCoefficient] returns exactly 0. *)
Theorem symmetric_small_angle_zero_lift
    (shapeType : string) (re ar ang sol : num) (g : Geometry) :
  isSymmetric g = true ->
  (Math_abs ang <? 0.5) = true ->
  calculateLiftCoefficient shapeType re ar ang sol (Some g) = Fin 0.
Proof.
  intros Hsym Hang. unfold calculateLiftCoefficient.
  rewrite Hsym, Hang. simpl andb.
  destruct (negb _ && _); reflexivity.
Qed.

Lemma abs_zero_below_half : (Math_abs (Fin 0) <? 0.5) = true.
Proof. simpl. rewrite Rabs_R0. apply Rltb_true. lra. Qed.

(** The statement of C6 on a symmetric streamlined shape at angle 0. *)
Lemma zero_lift_witness :
  calculateLiftCoefficient "streamlined" 100000 4 0 0.5
    (Some {| maxCamber := None; camber := Some (Fin 0); thickness := 0.12;
             isSymmetric := true; teAngle := 10; leRadius := 0.02 |})
  = Fin 0.
Proof.
  apply symmetric_small_angle_zero_lift; [reflexivity | exact abs_zero_below_half].
Defined.

(** C7.  For the circular shape at Reynolds number 3.5e5 and angle of
    attack 0, [calculateDragCoefficient] returns exactly 0.75, whatever
    the aspect ratio, the solidity and the geometry. *)
Theorem drag_crisis_midpoint (ar sol : num) (g : option Geometry) :
  calculateDragCoefficient "circular" 3.5e5 ar sol 0 g = Fin 0.75.
Proof.
  unfold calculateDragCoefficient.
  simpl String.eqb. cbv iota.
  assert (Hrad : Math_abs (Fin 0 * Math_PI / 180) = Fin 0).
  { jsimpl. f_equal. replace (0 * PI / 180)%R with 0%R by lra. apply Rabs_R0. }
  rewrite Hrad.
  assert (Hexp : Math_exp ((Fin 3.5e5 - 3.5e5) / 50000) = Fin 1).
  { jsimpl. f_equal.
    match goal with |- exp ?x = _ => replace x with 0%R by lra end. apply exp_0. }
  rewrite Hexp.
  unfold clampCd. jsimpl. f_equal. lra.
Qed.

(** C8 (amended).  Every finite angle of attack of magnitude at most
    2^53 = 9007199254740992 degrees is normalized into the closed
    interval [-180, 180]: the normalized angle differs from the input by
    a whole number of turns, and solving with the input angle is solving
    with the normalized one.  An angle of magnitude above
    2^62 = 4611686018427387904 is never normalized: a turn taken off it
    is absorbed, the loop does not end and the solver does not come
    back. *)
Theorem angle_normalized_into_closed_interval :
  (forall a : R,
      (- 9007199254740992 <= a <= 9007199254740992)%R ->
      exists (a' : R) (k : Z),
        normalizeAngle (or_default (Some (Fin a)) 0) = Returns (Fin a')
        /\ (-180 <= a' <= 180)%R
        /\ a' = (a + 360 * IZR k)%R
        /\ forall pts ws rho,
             calculateDrag pts
               {| windSpeed := ws; angle := Some (Fin a); airDensity := rho |}
             = calculateDrag pts
                 {| windSpeed := ws; angle := Some (Fin a'); airDensity := rho |})
  /\ (forall a : R,
         (4611686018427387904 < a \/ a < - 4611686018427387904)%R ->
         normalizeAngle (or_default (Some (Fin a)) 0) = Diverges
         /\ forall pts ws rho,
              calculateDrag pts
                {| windSpeed := ws; angle := Some (Fin a); airDensity := rho |}
              = Diverges).
Proof.
  split.
  - intros a Ha.
    destruct (normalizeAngle_range a) as (a' & k & Hnorm & Hrange & Hk);
      [unfold TURN_ABSORBED; lra |].
    exists a', k. rewrite or_default_fin_angle.
    repeat split; try assumption; try lra.
    intros pts ws rho. unfold calculateDrag. cbn [angle windSpeed airDensity].
    rewrite !or_default_fin_angle, Hnorm, (normalizeAngle_in_range a') by lra.
    reflexivity.
  - intros a Ha.
    assert (Hdiv : normalizeAngle (or_default (Some (Fin a)) 0) = Diverges).
    { rewrite or_default_fin_angle. apply normalizeAngle_absorbed. exact Ha. }
    split; [exact Hdiv |].
    intros pts ws rho. unfold calculateDrag. cbn [angle]. rewrite Hdiv. reflexivity.
Qed.

(** The statement of C8 (amended) on one and a half turns. *)
Lemma one_and_a_half_turns_witness :
  exists (a' : R) (k : Z),
    normalizeAngle (or_default (Some (Fin 540)) 0) = Returns (Fin a')
    /\ (-180 <= a' <= 180)%R
    /\ a' = (540 + 360 * IZR k)%R.
Proof.
  destruct (proj1 angle_normalized_into_closed_interval 540%R ltac:(lra))
    as (a' & k & Hnorm & Hrange & Hk & _).
  exists a', k. repeat split; assumption || lra.
Defined.

(** C8, as stated, fails at -180 degrees, which stays -180 and so is
    not above -180. *)
Lemma half_open_interval_counterexample :
  exists a' : R,
    normalizeAngle (or_default (Some (Fin (-180))) 0) = Returns (Fin a')
    /\ ~ (-180 < a' <= 180)%R.
Proof.
  exists (-180)%R. rewrite or_default_fin_angle.
  split; [apply normalizeAngle_in_range; lra | lra].
Qed.

(** C9.  On every polygon with finite coordinates (of three points and
    more, and of fewer), over real arithmetic, [calculatePolygonArea] of
    the reversed point list and of the list rotated about its centroid by
    any angle equals [calculatePolygonArea] of the list itself. *)
Theorem polygon_area_reversal_and_rotation (pts : list rpoint) (a : R) :
  calculatePolygonArea (fin_points (rev pts)) = calculatePolygonArea (fin_points pts)
  /\ calculatePolygonArea (rotatePoints (fin_points pts) (Fin a))
     = calculatePolygonArea (fin_points pts).
Proof.
  split.
  - rewrite !calculatePolygonArea_fin, shoelace_rev, Rabs_Ropp. reflexivity.
  - destruct (rotatePoints_fin pts a) as [c ->].
    rewrite !calculatePolygonArea_fin, shoelace_rotate; [reflexivity |].
    pose proof (sin2_cos2 (a * PI / 180)) as H. unfold Rsqr in H. lra.
Qed.

(** The Reynolds number and the forces that the solver rounds into the
    result, with the density and the angle that it works with. *)
Lemma calculateDrag_reynolds_forces
    (pts : list point) (params : Params) (a : num) (r : Result) :
  normalizeAngle (or_default (angle params) 0) = Returns a ->
  calculateDrag pts params = Returns r ->
  let velocityMs := ToNumber (windSpeed params) / 3.6 in
  let rho := or_default (airDensity params) 1.225 in
  let bounds := getBoundingBox (rotatePoints pts a) in
  let heightM := height bounds / PIXELS_PER_METER in
  let widthM := width bounds / PIXELS_PER_METER in
  let frontalArea := heightM * 1.0 in
  let refArea := Math_max heightM widthM * 1.0 in
  let polygonArea := calculatePolygonArea pts in
  let boxArea := width bounds * height bounds in
  let solidity := if boxArea >? 0 then polygonArea / boxArea else Fin 1.0 in
  let aspectRatio := if height bounds >? 0 then width bounds / height bounds else Fin 1.0 in
  let shape := classifyShape pts bounds solidity in
  let characteristicLength :=
    if String.eqb shape "circular" then width bounds / PIXELS_PER_METER
    else if String.eqb shape "streamlined" then width bounds / PIXELS_PER_METER
    else Math_sqrt (polygonArea / (PIXELS_PER_METER * PIXELS_PER_METER)) in
  let re := calculateReynolds velocityMs characteristicLength rho AIR_DYNAMIC_VISCOSITY in
  exists g : Geometry,
    analyzeGeometry pts (getBoundingBox pts) = Returns g
    /\ reynolds r = toFixed re 0
    /\ dragForce r
       = toFixed (0.5 * rho * velocityMs * velocityMs * frontalArea
                  * calculateDragCoefficient shape re aspectRatio solidity a None) 2
    /\ liftForce r
       = toFixed (0.5 * rho * velocityMs * velocityMs * refArea
                  * calculateLiftCoefficient shape re aspectRatio a solidity (Some g)) 2.
Proof.
  intros Hnorm H. unfold calculateDrag in H. rewrite Hnorm in H. cbn [bind] in H.
  destruct (analyzeGeometry _ _) as [g | |]; cbn [bind] in H; try discriminate.
  destruct (camber g) as [c |]; cbn [toFixed_prop bind] in H; try discriminate.
  injection H as <-. exists g. repeat split; reflexivity.
Qed.

(** The Reynolds number and the drag force of the wedge in air of
    density 1.225 at 50 km/h. *)
Lemma wedge_reynolds_value :
  toFixed (calculateReynolds (Fin 50 / 3.6) (Fin 4) (Fin 1.225) AIR_DYNAMIC_VISCOSITY) 0
  = Fin 3759975.
Proof.
  unfold calculateReynolds, AIR_DYNAMIC_VISCOSITY.
  rewrite ndiv_fin by lra. cbn [nmul]. rewrite ndiv_fin by lra.
  rewrite (toFixed_value 3759975); [f_equal; simpl; lra | lra | simpl; lra].
Qed.

Lemma wedge_drag_value :
  toFixed (0.5 * Fin 1.225 * (Fin 50 / 3.6) * (Fin 50 / 3.6) * (Fin 1 * 1.0) * Fin 0.2) 2
  = Fin 23.63.
Proof.
  rewrite ndiv_fin by lra. cbn [nmul].
  rewrite (toFixed_value 2363); [f_equal; simpl; lra | lra | simpl; lra].
Qed.

(** C10.  When [airDensity] is absent, 0 or NaN the solve operation
    runs as with 1.225, and when [angle] is absent, 0 or NaN as with 0:
    the outcome is that of the request with the default written out, the
    route does not reject the request, the angle that the rotation and
    the coefficient models get is 0, and the Reynolds number and both
    forces of a result are the rounded values of
    [1.225 * v * L / mu] and [0.5 * 1.225 * v * v * area * coefficient],
    the coefficients being those for that Reynolds number. *)
Theorem falsy_parameters_take_defaults (pts : list point) (params : Params) :
  (airDensity params = None \/ airDensity params = Some (Fin 0)
   \/ airDensity params = Some NaN ->
   calculateDrag pts params = calculateDrag pts (with_airDensity params 1.225)
   /\ simulate (request pts params)
      = simulate (request pts (with_airDensity params 1.225)))
  /\ (angle params = None \/ angle params = Some (Fin 0) \/ angle params = Some NaN ->
      calculateDrag pts params = calculateDrag pts (with_angle params 0)
      /\ simulate (request pts params) = simulate (request pts (with_angle params 0))
      /\ normalizeAngle (or_default (angle params) 0) = Returns (Fin 0))
  /\ (forall msg, simulate (request pts params) <> json_error 400 msg)
  /\ (airDensity params = None \/ airDensity params = Some (Fin 0)
      \/ airDensity params = Some NaN ->
      forall (a : num) (r : Result),
        normalizeAngle (or_default (angle params) 0) = Returns a ->
        calculateDrag pts params = Returns r ->
        let velocityMs := ToNumber (windSpeed params) / 3.6 in
        let bounds := getBoundingBox (rotatePoints pts a) in
        let heightM := height bounds / PIXELS_PER_METER in
        let widthM := width bounds / PIXELS_PER_METER in
        let frontalArea := heightM * 1.0 in
        let refArea := Math_max heightM widthM * 1.0 in
        let polygonArea := calculatePolygonArea pts in
        let boxArea := width bounds * height bounds in
        let solidity := if boxArea >? 0 then polygonArea / boxArea else Fin 1.0 in
        let aspectRatio :=
          if height bounds >? 0 then width bounds / height bounds else Fin 1.0 in
        let shape := classifyShape pts bounds solidity in
        let characteristicLength :=
          if String.eqb shape "circular" then width bounds / PIXELS_PER_METER
          else if String.eqb shape "streamlined" then width bounds / PIXELS_PER_METER
          else Math_sqrt (polygonArea / (PIXELS_PER_METER * PIXELS_PER_METER)) in
        let re :=
          calculateReynolds velocityMs characteristicLength (Fin 1.225)
                            AIR_DYNAMIC_VISCOSITY in
        exists g : Geometry,
          analyzeGeometry pts (getBoundingBox pts) = Returns g
          /\ reynolds r = toFixed re 0
          /\ dragForce r
             = toFixed (0.5 * Fin 1.225 * velocityMs * velocityMs * frontalArea
                        * calculateDragCoefficient shape re aspectRatio solidity a None) 2
          /\ liftForce r
             = toFixed (0.5 * Fin 1.225 * velocityMs * velocityMs * refArea
                        * calculateLiftCoefficient shape re aspectRatio a solidity
                                                   (Some g)) 2).
Proof.
  split; [| split; [| split]].
  - intros H.
    assert (Heq : calculateDrag pts params = calculateDrag pts (with_airDensity params 1.225)).
    { unfold calculateDrag, with_airDensity. cbn [airDensity angle windSpeed].
      rewrite (or_default_falsy _ _ H), or_default_density_default. reflexivity. }
    split; [exact Heq |].
    unfold simulate, request. cbn [shape parameters points]. rewrite Heq. reflexivity.
  - intros H.
    assert (Heq : calculateDrag pts params = calculateDrag pts (with_angle params 0)).
    { unfold calculateDrag, with_angle. cbn [airDensity angle windSpeed].
      rewrite (or_default_falsy _ _ H), (or_default_fin_angle 0). reflexivity. }
    split; [exact Heq |]. split.
    + unfold simulate, request. cbn [shape parameters points]. rewrite Heq. reflexivity.
    + rewrite (or_default_falsy _ _ H). apply normalizeAngle_in_range. lra.
  - intros msg. unfold simulate, request. cbn [shape parameters points].
    destruct (calculateDrag pts params); discriminate.
  - intros H a r Hnorm Hr.
    pose proof (calculateDrag_reynolds_forces pts params a r Hnorm Hr) as Hf.
    cbv zeta in Hf |- *. rewrite (or_default_falsy _ _ H) in Hf. exact Hf.
Qed.

(** The statement of C10 on the wedge at 50 km/h with neither angle nor
    density: the Reynolds number is that of air of density 1.225 over
    the 4 m of the wedge, and the drag force that of 1.225 on its 1 m
    height with the coefficient 0.2. *)
Lemma default_density_witness :
  exists r : Result,
    calculateDrag (fin_points blunt_wedge)
      {| windSpeed := Some (Fin 50); angle := None; airDensity := None |}
    = Returns r
    /\ reynolds r = Fin 3759975
    /\ dragForce r = Fin 23.63.
Proof.
  pose (params := {| windSpeed := Some (Fin 50); angle := None; airDensity := None |}).
  pose proof (falsy_parameters_take_defaults (fin_points blunt_wedge) params)
    as (Hdensity & Hangle & _ & Hvalues).
  destruct (Hangle (or_introl eq_refl)) as (_ & _ & Hnorm).
  destruct (calculateDrag_returns (fin_points blunt_wedge) params (Fin 0)) as [r Hr].
  - discriminate.
  - rewrite wedge_bounds. fin_eq.
  - exact Hnorm.
  - exists r. split; [exact Hr |].
    destruct (Hvalues (or_introl eq_refl) (Fin 0) r Hnorm Hr) as (g & _ & Hre & Hdrag & _).
    cbv zeta in Hre, Hdrag. cbn [windSpeed params ToNumber] in Hre, Hdrag.
    rewrite rotatePoints_zero, wedge_bounds, wedge_area in Hre, Hdrag.
    cbn [width height] in Hre, Hdrag.
    assert (Hsol : (if Fin 400 * Fin 100 >? 0 then Fin 20000 / (Fin 400 * Fin 100)
                    else Fin 1.0) = Fin 0.5) by fin_eq.
    assert (Har : (if Fin 100 >? 0 then Fin 400 / Fin 100 else Fin 1.0) = Fin 4) by fin_eq.
    rewrite Hsol in Hre, Hdrag. rewrite Har in Hdrag.
    assert (Hshape : classifyShape (fin_points blunt_wedge)
                       {| width := 400; height := 100; minX := 0; maxX := 400;
                          minY := 0; maxY := 100 |} (Fin 0.5) = "streamlined"%string)
      by (unfold classifyShape; fin_eq).
    rewrite Hshape in Hre, Hdrag.
    change (String.eqb "streamlined" "circular") with false in Hre, Hdrag.
    change (String.eqb "streamlined" "streamlined") with true in Hre, Hdrag.
    cbv iota in Hre, Hdrag.
    assert (Hlen : Fin 400 / PIXELS_PER_METER = Fin 4) by (unfold PIXELS_PER_METER; fin_eq).
    assert (Hh : Fin 100 / PIXELS_PER_METER = Fin 1) by (unfold PIXELS_PER_METER; fin_eq).
    rewrite Hlen in Hre, Hdrag. rewrite Hh in Hdrag.
    rewrite streamlined_cd_without_geometry in Hdrag.
    split.
    + rewrite Hre. exact wedge_reynolds_value.
    + rewrite Hdrag. exact wedge_drag_value.
Defined.

(* ================================================================== *)
(** ** Further properties of the engine *)
(* ================================================================== *)

Lemma Returns_inj {A : Type} (a b : A) : Returns a = Returns b -> a = b.
Proof. intros H. congruence. Qed.

(** *** The bounding box *)

(** The scan keeps every point it has seen between the running minimum
    and maximum, which are the start values or coordinates of points. *)
Lemma bounds_loop_spec (l : list rpoint) (a b c d : R) :
  exists a' b' c' d' : R,
    fold_left boundsStep (fin_points l) (Fin a, Fin b, Fin c, Fin d)
    = (Fin a', Fin b', Fin c', Fin d')
    /\ (a' <= a /\ b <= b' /\ c' <= c /\ d <= d')%R
    /\ (forall p, In p l -> (a' <= fst p <= b' /\ c' <= snd p <= d')%R)
    /\ (a' = a \/ exists p, In p l /\ fst p = a')
    /\ (b' = b \/ exists p, In p l /\ fst p = b')
    /\ (c' = c \/ exists p, In p l /\ snd p = c')
    /\ (d' = d \/ exists p, In p l /\ snd p = d').
Proof.
  revert a b c d. induction l as [| [x y] l IH]; intros a b c d.
  - exists a, b, c, d. simpl. repeat split; try lra; try tauto; auto.
  - simpl. unfold ngt. simpl.
    set (a1 := if Rltb x a then x else a).
    set (b1 := if Rltb b x then x else b).
    set (c1 := if Rltb y c then y else c).
    set (d1 := if Rltb d y then y else d).
    replace (if Rltb x a then Fin x else Fin a) with (Fin a1)
      by (unfold a1; destruct (Rltb x a); reflexivity).
    replace (if Rltb b x then Fin x else Fin b) with (Fin b1)
      by (unfold b1; destruct (Rltb b x); reflexivity).
    replace (if Rltb y c then Fin y else Fin c) with (Fin c1)
      by (unfold c1; destruct (Rltb y c); reflexivity).
    replace (if Rltb d y then Fin y else Fin d) with (Fin d1)
      by (unfold d1; destruct (Rltb d y); reflexivity).
    destruct (IH a1 b1 c1 d1)
      as (a' & b' & c' & d' & Hfold & (Ha & Hb & Hc & Hd) & Hin & Hxa & Hxb & Hyc & Hyd).
    assert (Ha1 : (a1 <= a /\ a1 <= x)%R /\ (a1 = a \/ a1 = x))
      by (unfold a1; destruct (Rltb_spec x a); split; try lra; auto).
    assert (Hb1 : (b <= b1 /\ x <= b1)%R /\ (b1 = b \/ b1 = x))
      by (unfold b1; destruct (Rltb_spec b x); split; try lra; auto).
    assert (Hc1 : (c1 <= c /\ c1 <= y)%R /\ (c1 = c \/ c1 = y))
      by (unfold c1; destruct (Rltb_spec y c); split; try lra; auto).
    assert (Hd1 : (d <= d1 /\ y <= d1)%R /\ (d1 = d \/ d1 = y))
      by (unfold d1; destruct (Rltb_spec d y); split; try lra; auto).
    exists a', b', c', d'. split; [exact Hfold |].
    split; [lra |].
    split.
    { intros p [<- | Hp]; [simpl; lra | apply Hin; exact Hp]. }
    repeat split.
    + destruct Hxa as [-> | (p & Hp & Hpx)]; [| right; exists p; auto].
      destruct Ha1 as [_ [-> | ->]]; [left; reflexivity | right; exists (x, y); auto].
    + destruct Hxb as [-> | (p & Hp & Hpx)]; [| right; exists p; auto].
      destruct Hb1 as [_ [-> | ->]]; [left; reflexivity | right; exists (x, y); auto].
    + destruct Hyc as [-> | (p & Hp & Hpx)]; [| right; exists p; auto].
      destruct Hc1 as [_ [-> | ->]]; [left; reflexivity | right; exists (x, y); auto].
    + destruct Hyd as [-> | (p & Hp & Hpx)]; [| right; exists p; auto].
      destruct Hd1 as [_ [-> | ->]]; [left; reflexivity | right; exists (x, y); auto].
Qed.

(** The box of a polygon with a point and finite coordinates: its sides
    are coordinates of points and every point is inside. *)
Lemma getBoundingBox_spec (pts : list rpoint) :
  pts <> [] ->
  exists mnX mxX mnY mxY : R,
    getBoundingBox (fin_points pts)
    = {| width := Fin (mxX + - mnX); height := Fin (mxY + - mnY);
         minX := Fin mnX; maxX := Fin mxX; minY := Fin mnY; maxY := Fin mxY |}
    /\ (forall p, In p pts -> (mnX <= fst p <= mxX /\ mnY <= snd p <= mxY)%R)
    /\ (exists p, In p pts /\ fst p = mnX)
    /\ (exists p, In p pts /\ fst p = mxX)
    /\ (exists p, In p pts /\ snd p = mnY)
    /\ (exists p, In p pts /\ snd p = mxY).
Proof.
  destruct pts as [| [x y] pts]; [congruence | intros _].
  unfold getBoundingBox.
  change (fin_points ((x, y) :: pts)) with ((Fin x, Fin y) :: fin_points pts).
  cbn [fold_left].
  change (boundsStep (PInf, NInf, PInf, NInf) (Fin x, Fin y))
    with (Fin x, Fin x, Fin y, Fin y).
  destruct (bounds_loop_spec pts x x y y)
    as (a & b & c & d & Hfold & (Ha & Hb & Hc & Hd) & Hin & Hxa & Hxb & Hyc & Hyd).
  rewrite Hfold. cbn [nsub nadd nneg].
  exists a, b, c, d. split; [reflexivity |].
  split.
  { intros p [<- | Hp]; [simpl; lra | apply Hin; exact Hp]. }
  repeat split.
  - destruct Hxa as [-> | (p & Hp & Hpx)]; [exists (x, y) | exists p]; simpl; auto.
  - destruct Hxb as [-> | (p & Hp & Hpx)]; [exists (x, y) | exists p]; simpl; auto.
  - destruct Hyc as [-> | (p & Hp & Hpx)]; [exists (x, y) | exists p]; simpl; auto.
  - destruct Hyd as [-> | (p & Hp & Hpx)]; [exists (x, y) | exists p]; simpl; auto.
Qed.



(** *** The geometry analysis *)

(** [maxLower] is only ever given a distance that is not positive. *)
Lemma side_loop_maxLower (pLE : point) (nx ny : num) (l : list point)
    (uA lA sY mU mL : num) :
  (mL >? 0) = false ->
  forall uA' lA' sY' mU' mL',
    fold_left (sideStep pLE nx ny) l (uA, lA, sY, mU, mL) = (uA', lA', sY', mU', mL') ->
    (mL' >? 0) = false.
Proof.
  revert uA lA sY mU mL.
  induction l as [| p l IH]; intros uA lA sY mU mL HmL uA' lA' sY' mU' mL' Hfold.
  - simpl in Hfold. injection Hfold as _ _ _ _ <-. exact HmL.
  - cbn [fold_left] in Hfold. unfold sideStep at 2 in Hfold.
    destruct (_ >? 0) eqn:Hdist in Hfold.
    + eapply IH; [| exact Hfold]. exact HmL.
    + eapply IH; [| exact Hfold].
      destruct (_ >? mL); [exact Hdist | exact HmL].
Qed.

(** X2.  Apart from the default for a chord of length zero,
    [analyzeGeometry] never reports a symmetric shape: whatever the
    polygon, a record with [isSymmetric] is the default record, and the
    geometry behind every result of the solve operation is not
    symmetric. *)
Theorem symmetry_only_by_default :
  (forall (pts : list point) (bounds : BoundingBox) (g : Geometry),
      analyzeGeometry pts bounds = Returns g ->
      isSymmetric g = true ->
      (maxX bounds - minX bounds === 0) = true /\ g = degenerate_geometry)
  /\ (forall (pts : list point) (params : Params) (r : Result),
         calculateDrag pts params = Returns r ->
         exists g, analyzeGeometry pts (getBoundingBox pts) = Returns g
                   /\ isSymmetric g = false).
Proof.
  assert (Hmain : forall pts bounds g,
             analyzeGeometry pts bounds = Returns g ->
             isSymmetric g = true ->
             (maxX bounds - minX bounds === 0) = true /\ g = degenerate_geometry).
  { intros pts bounds g H Hsym. unfold analyzeGeometry in H.
    destruct (_ === 0) eqn:Hchord.
    - injection H as <-. split; reflexivity.
    - exfalso.
      destruct (fold_left _ _ _) as [[[iLE iTE] dLE] dTE] in H.
      destruct (nth_error pts iLE) as [pLE |]; [| discriminate].
      destruct (nth_error pts iTE) as [pTE |]; [| discriminate].
      destruct (fold_left _ pts _) as [[[[uA lA] sY] mU] mL] eqn:Hside in H.
      assert (H0 : (Fin 0 >? 0) = false) by (apply Rltb_false; lra).
      pose proof (side_loop_maxLower _ _ _ _ _ _ _ _ _ H0 _ _ _ _ _ Hside) as HmL.
      apply Returns_inj in H. subst g. cbn [isSymmetric] in Hsym.
      assert (Hthick :
                ((if (mU >? 0) && (mL >? 0)
                  then Math_min mU mL / Math_max mU mL else Fin 0) >? 0.85) = false).
      { rewrite HmL, andb_false_r. apply Rltb_false. lra. }
      rewrite Hthick, andb_false_r in Hsym. discriminate. }
  split; [exact Hmain |].
  intros pts params r H. unfold calculateDrag in H.
  destruct (normalizeAngle _) as [a | |]; cbn [bind] in H; try discriminate.
  destruct (analyzeGeometry _ _) as [g | |] eqn:Hg; cbn [bind] in H; try discriminate.
  destruct (camber g) as [c |] eqn:Hc; cbn [toFixed_prop bind] in H; try discriminate.
  exists g. split; [reflexivity |].
  destruct (isSymmetric g) eqn:Hsym; [| reflexivity].
  destruct (Hmain _ _ _ Hg Hsym) as [_ ->]. discriminate.
Qed.

Lemma symmetry_only_by_default_witness :
  exists g,
    analyzeGeometry (fin_points blunt_wedge) (getBoundingBox (fin_points blunt_wedge))
    = Returns g
    /\ isSymmetric g = false.
Proof.
  destruct wedge_solve as (r & Hr & _).
  exact (proj2 symmetry_only_by_default (fin_points blunt_wedge) (standard_params 0) r Hr).
Defined.

(** *** When the solve operation returns *)

Lemma normalizeAngle_returns (params : Params) :
  angle_in_reach params ->
  exists a, normalizeAngle (or_default (angle params) 0) = Returns a.
Proof.
  unfold angle_in_reach, or_default, truthy.
  destruct (angle params) as [[x | | |] |]; intros H; try contradiction.
  - destruct (negb (Reqb x 0)); cbn [ToNumber].
    + destruct (normalizeAngle_range x) as (a' & k & Hnorm & _);
        [unfold TURN_ABSORBED; lra | eexists; exact Hnorm].
    + eexists. apply (normalizeAngle_in_range 0). lra.
  - eexists. apply (normalizeAngle_in_range 0). lra.
  - eexists. apply (normalizeAngle_in_range 0). lra.
Qed.

(** X3.  For a polygon with finite coordinates and an angle that is
    absent, NaN or finite with magnitude at most 2^53, the solve
    operation returns a result when two of the points differ in their x
    coordinate, and throws a [TypeError] when all points share one x
    coordinate, as on the empty polygon and on a single point; the route
    then answers with status 500.  For a finite angle of magnitude above
    2^62 the solve operation does not come back and the route sends
    nothing. *)
Theorem solve_returns_unless_one_abscissa (rpts : list rpoint) (params : Params) :
  (angle_in_reach params ->
   ((exists p q, In p rpts /\ In q rpts /\ fst p <> fst q) ->
    exists r, calculateDrag (fin_points rpts) params = Returns r)
   /\ (same_x rpts ->
       calculateDrag (fin_points rpts) params = Throws TypeError
       /\ simulate (request (fin_points rpts) params)
          = json_error 500 "Simulation failed"))
  /\ (forall a : R,
         angle params = Some (Fin a) ->
         (4611686018427387904 < a \/ a < - 4611686018427387904)%R ->
         calculateDrag (fin_points rpts) params = Diverges
         /\ simulate (request (fin_points rpts) params) = no_response).
Proof.
  split.
  - intros Hreach.
    destruct (normalizeAngle_returns _ Hreach) as [a Hnorm].
    split.
    + intros (p & q & Hp1 & Hq1 & Hpq).
      assert (Hne : rpts <> []) by (intros ->; contradiction).
      destruct (getBoundingBox_spec rpts Hne) as (mn & mx & c & d & Hb & Hin & _).
      apply (calculateDrag_returns _ _ a).
      * destruct rpts; [congruence | discriminate].
      * rewrite Hb. cbn [maxX minX nsub nadd nneg neqb].
        apply Reqb_false.
        pose proof (proj1 (Hin p Hp1)). pose proof (proj1 (Hin q Hq1)). lra.
      * exact Hnorm.
    + intros Hsame.
      assert (H : calculateDrag (fin_points rpts) params = Throws TypeError).
      { destruct rpts as [| p0 rest] eqn:Hrpts.
        - unfold calculateDrag. rewrite Hnorm. cbn [bind].
          change (fin_points []) with (@nil point).
          rewrite analyzeGeometry_empty. reflexivity.
        - rewrite <- Hrpts in *.
          assert (Hne : rpts <> []) by (rewrite Hrpts; discriminate).
          destruct (getBoundingBox_spec rpts Hne)
            as (mn & mx & c & d & Hb & _ & (p & Hp1 & Hpx) & (q & Hq1 & Hqx) & _).
          apply (calculateDrag_degenerate _ _ a); [| exact Hnorm].
          rewrite Hb. cbn [maxX minX nsub nadd nneg neqb].
          apply Reqb_true. pose proof (Hsame p q Hp1 Hq1). lra. }
      split; [exact H |].
      unfold simulate, request. cbn [shape parameters points]. rewrite H. reflexivity.
  - intros a Ha Habs.
    assert (H : calculateDrag (fin_points rpts) params = Diverges).
    { unfold calculateDrag. rewrite Ha, or_default_fin_angle.
      rewrite (normalizeAngle_absorbed a) by (unfold TURN_ABSORBED; exact Habs).
      reflexivity. }
    split; [exact H |].
    unfold simulate, request. cbn [shape parameters points]. rewrite H. reflexivity.
Qed.

Lemma solve_returns_unless_one_abscissa_witness :
  (exists r, calculateDrag (fin_points two_points) (standard_params 0) = Returns r)
  /\ calculateDrag (fin_points vertical_sliver) (standard_params 0) = Throws TypeError.
Proof.
  split.
  - apply (proj1 (proj1 (solve_returns_unless_one_abscissa two_points (standard_params 0))
                           ltac:(unfold angle_in_reach; simpl; lra))).
    exists (0, 0)%R, (100, 50)%R. simpl. repeat split; auto; lra.
  - apply (proj2 (proj1 (solve_returns_unless_one_abscissa vertical_sliver
                           (standard_params 0))
                           ltac:(unfold angle_in_reach; simpl; lra))).
    intros p q Hp Hq. simpl in Hp, Hq.
    destruct Hp as [<- | [<- | [<- | []]]]; destruct Hq as [<- | [<- | [<- | []]]];
      reflexivity.
Defined.

(** *** The serverless handler *)

(** X4.  The serverless handler sets the same four CORS headers on
    every request; it answers [OPTIONS] with an empty 200 and any other
    method but [POST] with 405 without looking at the body or running the
    engine; a [POST] without a body gets status 500; and a [POST] with a
    body gets the answer of the route [/api/simulate] for that body, with
    the caught exception added to a 500. *)
Theorem handler_agrees_with_route :
  (forall req, fst (handler req) = cors_headers)
  /\ (forall b, snd (handler {| method := "OPTIONS"; body := b |}) = reply_end 200)
  /\ (forall m b,
         m <> "OPTIONS"%string -> m <> "POST"%string ->
         snd (handler {| method := m; body := b |})
         = reply_error 405 "Method not allowed" None)
  /\ snd (handler {| method := "POST"; body := None |})
     = reply_error 500 "Simulation failed" (Some TypeError)
  /\ (forall rq,
         snd (handler {| method := "POST"; body := Some rq |})
         = reply_of_response (simulate rq)).
Proof.
  split; [reflexivity |].
  split; [reflexivity |].
  split.
  { intros m b Ho Hp. unfold handler. cbn [snd method].
    apply String.eqb_neq in Ho, Hp. rewrite Ho, Hp. reflexivity. }
  split; [reflexivity |].
  intros [[[[pts |]] |] [prm |]]; unfold handler, simulate;
    cbn [snd method body shape parameters points String.eqb Ascii.eqb Bool.eqb negb];
    try reflexivity.
  destruct (calculateDrag pts prm) as [r | [] |]; reflexivity.
Qed.

Lemma handler_agrees_with_route_witness :
  snd (handler {| method := "GET"; body := None |})
  = reply_error 405 "Method not allowed" None.
Proof.
  apply (proj1 (proj2 (proj2 handler_agrees_with_route))); discriminate.
Defined.

(** *** The shoelace area *)

Lemma nth_map_in_range {A B : Type} (f : A -> B) (l : list A) (i : nat) (da : A) (db : B) :
  (i < List.length l)%nat -> nth i (map f l) db = f (nth i l da).
Proof.
  intros Hi. rewrite (nth_indep _ _ (f da)) by (rewrite length_map; exact Hi).
  apply map_nth.
Qed.

Lemma shoelace_translate (t : rpoint) (pts : list rpoint) :
  shoelace (map (translate t) pts) = shoelace pts.
Proof.
  unfold shoelace. rewrite length_map.
  set (n := List.length pts).
  set (P := fun i => nth i pts (0, 0)%R).
  set (h := fun i => cross t (P i)).
  rewrite (Rsum_ext _ (fun i => (cross (P i) (P ((i + 1) mod n)%nat)
                                 + (h ((i + 1) mod n)%nat + - h i))%R)).
  - rewrite Rsum_plus, Rsum_plus, Rsum_opp, (Rsum_cyclic h). unfold P. lra.
  - intros i Hi.
    rewrite !(nth_map_in_range (translate t) pts _ (0, 0)%R)
      by (try apply Nat.mod_upper_bound; fold n; lia).
    unfold h, P, cross, translate. simpl. ring.
Qed.

Lemma Rsum_scal (k : R) (f : nat -> R) (n : nat) :
  Rsum (fun i => (k * f i)%R) n = (k * Rsum f n)%R.
Proof. induction n as [| n IH]; simpl; [lra | rewrite IH; lra]. Qed.

Lemma shoelace_scale (k : R) (pts : list rpoint) :
  shoelace (map (scale k) pts) = (k * k * shoelace pts)%R.
Proof.
  unfold shoelace. rewrite length_map.
  set (n := List.length pts).
  rewrite <- Rsum_scal. apply Rsum_ext. intros i Hi.
  rewrite !(nth_map_in_range (scale k) pts _ (0, 0)%R)
    by (try apply Nat.mod_upper_bound; fold n; lia).
  unfold cross, scale. simpl. ring.
Qed.

(** X5.  Over real arithmetic, on polygons with finite coordinates:
    [calculatePolygonArea] is finite and not negative, is 0 on fewer than
    three points, does not change when the polygon is moved, and is
    multiplied by [k * k] when the polygon is scaled by [k]. *)
Theorem polygon_area_moves_and_scales (pts : list rpoint) :
  (exists A : R, calculatePolygonArea (fin_points pts) = Fin A /\ (0 <= A)%R)
  /\ ((List.length pts < 3)%nat -> calculatePolygonArea (fin_points pts) = Fin 0)
  /\ (forall t : rpoint,
         calculatePolygonArea (fin_points (map (translate t) pts))
         = calculatePolygonArea (fin_points pts))
  /\ (forall (k A : R),
         calculatePolygonArea (fin_points pts) = Fin A ->
         calculatePolygonArea (fin_points (map (scale k) pts)) = Fin (k * k * A)).
Proof.
  split; [| split; [| split]].
  - rewrite calculatePolygonArea_fin. eexists. split; [reflexivity |].
    pose proof (Rabs_pos (shoelace pts)). lra.
  - intros Hlen. rewrite calculatePolygonArea_fin. f_equal.
    assert (Hs : shoelace pts = 0%R).
    { destruct pts as [| p [| q [| r l]]]; [| | | simpl in Hlen; lia];
        unfold shoelace, cross; simpl; ring. }
    rewrite Hs, Rabs_R0. lra.
  - intros t. rewrite !calculatePolygonArea_fin, shoelace_translate. reflexivity.
  - intros k A HA. rewrite calculatePolygonArea_fin in HA |- *.
    apply (f_equal (fun v => match v with Fin x => x | _ => 0%R end)) in HA.
    rewrite shoelace_scale, Rabs_mult, (Rabs_pos_eq (k * k)) by nra.
    f_equal. rewrite <- HA. lra.
Qed.

Lemma polygon_area_moves_and_scales_witness :
  calculatePolygonArea (fin_points two_points) = Fin 0.
Proof.
  apply (proj1 (proj2 (polygon_area_moves_and_scales two_points))). simpl. lia.
Defined.

(** *** The centroid and the rotation *)

Lemma centroid_loop_sum (l : list rpoint) (x y : R) :
  fold_left (fun '(x, y) p => (x + p0 p, y + p1 p)) (fin_points l) (Fin x, Fin y)
  = (Fin (x + sum_list (map fst l)), Fin (y + sum_list (map snd l))).
Proof.
  revert x y. induction l as [| [px py] l IH]; intros x y; simpl.
  - f_equal; f_equal; lra.
  - unfold fin_points in IH. rewrite IH. f_equal; f_equal; lra.
Qed.

Lemma getCentroid_mean (pts : list rpoint) :
  pts <> [] -> getCentroid (fin_points pts) = fin_point (mean_point pts).
Proof.
  intros Hne. unfold getCentroid. rewrite length_fin_points.
  destruct (Nat.eqb_spec (List.length pts) 0) as [Hz | Hnz].
  - destruct pts; [congruence | discriminate].
  - rewrite centroid_loop_sum.
    assert (INR (List.length pts) <> 0%R) by (apply not_0_INR; exact Hnz).
    rewrite !ndiv_fin by assumption.
    unfold fin_point, mean_point. simpl. f_equal; f_equal; lra.
Qed.

Lemma sum_list_bounds (l : list R) (lo hi : R) :
  (forall x, In x l -> (lo <= x <= hi)%R) ->
  (INR (List.length l) * lo <= sum_list l <= INR (List.length l) * hi)%R.
Proof.
  induction l as [| x l IH]; intros H.
  - simpl. lra.
  - change (sum_list (x :: l)) with (x + sum_list l)%R.
    change (List.length (x :: l)) with (S (List.length l)). rewrite S_INR.
    assert (Hx : (lo <= x <= hi)%R) by (apply H; left; reflexivity).
    assert (Hl : (INR (List.length l) * lo <= sum_list l <= INR (List.length l) * hi)%R)
      by (apply IH; intros z Hz; apply H; right; exact Hz).
    lra.
Qed.

Lemma mean_between (l : list R) (lo hi : R) :
  l <> [] ->
  (forall x, In x l -> (lo <= x <= hi)%R) ->
  (lo <= sum_list l / INR (List.length l) <= hi)%R.
Proof.
  intros Hne H. pose proof (sum_list_bounds l lo hi H) as [Hlo Hhi].
  assert (Hn : (0 < INR (List.length l))%R).
  { apply lt_0_INR. destruct l; [congruence | simpl; lia]. }
  split.
  - apply Rmult_le_reg_r with (INR (List.length l)); [exact Hn |].
    unfold Rdiv. rewrite Rmult_assoc, Rinv_l by lra. lra.
  - apply Rmult_le_reg_r with (INR (List.length l)); [exact Hn |].
    unfold Rdiv. rewrite Rmult_assoc, Rinv_l by lra. lra.
Qed.



Lemma rotatePoints_about_mean (pts : list rpoint) (ang : R) :
  rotatePoints (fin_points pts) (Fin ang)
  = fin_points (map (rotate_about (mean_point pts)
                                  (cos (ang * PI / 180)) (sin (ang * PI / 180))) pts).
Proof.
  destruct pts as [| p pts]; [reflexivity |].
  unfold rotatePoints.
  rewrite getCentroid_mean by discriminate. rewrite angleRad_fin.
  unfold fin_points. rewrite !map_map.
  apply map_ext. intros [px py]. destruct (mean_point (p :: pts)) as [cx cy].
  unfold fin_point, rotate_about. simpl. f_equal; f_equal; lra.
Qed.

Lemma sum_list_affine (a b c : R) (pts : list rpoint) :
  sum_list (map (fun p => a + b * fst p + c * snd p)%R pts)
  = (INR (List.length pts) * a + b * sum_list (map fst pts)
       + c * sum_list (map snd pts))%R.
Proof.
  induction pts as [| p pts IH].
  - simpl. lra.
  - change (List.length (p :: pts)) with (S (List.length pts)). rewrite S_INR.
    cbn [map sum_list fold_right]. fold (sum_list (map fst pts)).
    fold (sum_list (map snd pts)).
    fold (sum_list (map (fun p => a + b * fst p + c * snd p)%R pts)).
    rewrite IH. lra.
Qed.

Lemma mean_point_rotate (pts : list rpoint) (C S : R) :
  pts <> [] ->
  mean_point (map (rotate_about (mean_point pts) C S) pts) = mean_point pts.
Proof.
  intros Hne.
  assert (Hn : INR (List.length pts) <> 0%R).
  { apply not_0_INR. destruct pts; [congruence | discriminate]. }
  remember (mean_point pts) as c eqn:Hc. destruct c as [cx cy].
  assert (Hsx : sum_list (map fst pts) = (cx * INR (List.length pts))%R).
  { unfold mean_point in Hc. injection Hc as -> _. field. exact Hn. }
  assert (Hsy : sum_list (map snd pts) = (cy * INR (List.length pts))%R).
  { unfold mean_point in Hc. injection Hc as _ ->. field. exact Hn. }
  unfold mean_point at 1. rewrite length_map, !map_map.
  rewrite (map_ext (fun p => fst (rotate_about (cx, cy) C S p))
                   (fun p => (cx - cx * C + cy * S) + C * fst p + (- S) * snd p)%R)
    by (intros [px py]; unfold rotate_about; simpl; lra).
  rewrite (map_ext (fun p => snd (rotate_about (cx, cy) C S p))
                   (fun p => (cy - cx * S - cy * C) + S * fst p + C * snd p)%R)
    by (intros [px py]; unfold rotate_about; simpl; lra).
  rewrite !sum_list_affine, Hsx, Hsy.
  f_equal; field; exact Hn.
Qed.

Lemma rotate_about_compose (c : rpoint) (Ca Sa Cb Sb : R) (p : rpoint) :
  rotate_about c Cb Sb (rotate_about c Ca Sa p)
  = rotate_about c (Ca * Cb - Sa * Sb)%R (Sa * Cb + Ca * Sb)%R p.
Proof.
  destruct c as [cx cy], p as [px py]. unfold rotate_about. simpl.
  f_equal; lra.
Qed.

(** X7.  On a polygon with finite coordinates and for finite angles,
    [rotatePoints] keeps the number of points and the centroid, turning
    by [a] and then by [b] is turning by [a + b], turning back undoes a
    turn, and a full turn changes nothing. *)
Theorem rotation_composes_about_centroid (pts : list rpoint) (a b : R) :
  List.length (rotatePoints (fin_points pts) (Fin a)) = List.length pts
  /\ getCentroid (rotatePoints (fin_points pts) (Fin a)) = getCentroid (fin_points pts)
  /\ rotatePoints (rotatePoints (fin_points pts) (Fin a)) (Fin b)
     = rotatePoints (fin_points pts) (Fin (a + b))
  /\ rotatePoints (rotatePoints (fin_points pts) (Fin a)) (Fin (- a)) = fin_points pts
  /\ rotatePoints (fin_points pts) (Fin 360) = fin_points pts.
Proof.
  assert (Hcen : getCentroid (rotatePoints (fin_points pts) (Fin a))
                 = getCentroid (fin_points pts)).
  { destruct pts as [| p pts]; [reflexivity |].
    rewrite rotatePoints_about_mean.
    rewrite !getCentroid_mean by discriminate.
    rewrite mean_point_rotate by discriminate. reflexivity. }
  assert (Hcomp : forall b' : R,
             rotatePoints (rotatePoints (fin_points pts) (Fin a)) (Fin b')
             = rotatePoints (fin_points pts) (Fin (a + b'))).
  { intros b'. destruct pts as [| p pts]; [reflexivity |].
    rewrite (rotatePoints_about_mean (p :: pts) a).
    rewrite rotatePoints_about_mean.
    rewrite mean_point_rotate by discriminate.
    rewrite rotatePoints_about_mean. f_equal. rewrite map_map.
    apply map_ext. intros q. rewrite rotate_about_compose.
    replace ((a + b') * PI / 180)%R with (a * PI / 180 + b' * PI / 180)%R by lra.
    rewrite cos_plus, sin_plus. reflexivity. }
  split; [| split; [exact Hcen | split; [apply Hcomp | split]]].
  - unfold rotatePoints. rewrite length_map. apply length_fin_points.
  - rewrite Hcomp. replace (a + - a)%R with 0%R by lra. apply rotatePoints_zero.
  - rewrite rotatePoints_about_mean.
    replace (360 * PI / 180)%R with (2 * PI)%R by lra.
    rewrite cos_2PI, sin_2PI.
    f_equal. transitivity (map (fun p : rpoint => p) pts); [| apply map_id].
    apply map_ext. intros [px py]. destruct (mean_point pts) as [cx cy].
    unfold rotate_about. simpl. f_equal; lra.
Qed.

(** *** The forces of the solve operation *)

Lemma Rabs_le_between (x b : R) : (Rabs x <= b)%R -> (- b <= x <= b)%R.
Proof. unfold Rabs. destruct (Rcase_abs x); lra. Qed.

Lemma toFixed_nonneg (x : R) (digits : nat) :
  (0 <= x)%R ->
  exists y : R,
    toFixed (Fin x) digits = Fin y /\ (0 <= y)%R /\ (x = 0%R -> y = 0%R)
    /\ (y <= x + / 2)%R.
Proof.
  intros Hx. unfold toFixed.
  assert (Hpow1 : (1 <= 10 ^ digits)%R) by (apply pow_R1_Rle; lra).
  assert (Hpow : (0 < 10 ^ digits)%R) by lra.
  destruct (Rltb (Rabs x) 1e21).
  - eexists. split; [reflexivity |].
    unfold round_half_away.
    assert (Hprod : (0 <= x * 10 ^ digits)%R) by (apply Rmult_le_pos; lra).
    rewrite Rltb_false by lra.
    destruct (base_Int_part (x * 10 ^ digits + / 2)) as [Hlo Hhi].
    set (z := Int_part (x * 10 ^ digits + / 2)) in *.
    split; [| split].
    + assert (Hz : (0 <= z)%Z).
      { apply le_IZR. apply Rnot_lt_le. intros Hlt.
        assert (IZR z <= -1)%R by (apply IZR_le; apply lt_IZR in Hlt; lia). lra. }
      apply IZR_le in Hz.
      apply Rmult_le_pos; [exact Hz | apply Rlt_le, Rinv_0_lt_compat; exact Hpow].
    + intros ->. subst z. rewrite Rmult_0_l, Rplus_0_l in *.
      assert (Hz : Int_part (/ 2) = 0%Z).
      { assert (H0 : (0 <= Int_part (/ 2))%Z).
        { apply le_IZR. apply Rnot_lt_le. intros Hlt.
          assert (IZR (Int_part (/ 2)) <= -1)%R
            by (apply IZR_le; apply lt_IZR in Hlt; lia). lra. }
        assert (H1 : (Int_part (/ 2) <= 0)%Z).
        { apply le_IZR. apply Rnot_lt_le. intros Hlt.
          assert (1 <= IZR (Int_part (/ 2)))%R
            by (apply IZR_le; apply lt_IZR in Hlt; lia). lra. }
        lia. }
      rewrite Hz. lra.
    + apply Rmult_le_reg_r with (10 ^ digits)%R; [exact Hpow |].
      unfold Rdiv. rewrite Rmult_assoc, Rinv_l by lra. nra.
  - exists x. split; [reflexivity |]. split; [exact Hx |]. split; [auto | lra].
Qed.

Lemma or_default_density_nonneg (rho : R) :
  (0 <= rho <= 1000)%R ->
  exists x : R, or_default (Some (Fin rho)) 1.225 = Fin x /\ (0 < x <= 1000)%R.
Proof.
  intros H. unfold or_default, truthy. destruct (Reqb_spec rho 0) as [-> | Hne]; simpl.
  - exists 1.225%R. split; [reflexivity | lra].
  - exists rho. split; [reflexivity | lra].
Qed.

(** The box of a rotated polygon whose coordinates are at most [M] in
    magnitude: the rotation is about the mean of the points, so no
    coordinate leaves [-5 M, 5 M]. *)
Lemma rotated_box_bounded (M : R) (pts : list rpoint) (ang : R) :
  pts <> [] ->
  (forall p, In p pts -> (Rabs (fst p) <= M)%R /\ (Rabs (snd p) <= M)%R) ->
  exists w h mnX mxX mnY mxY : R,
    getBoundingBox (rotatePoints (fin_points pts) (Fin ang))
    = {| width := Fin w; height := Fin h;
         minX := Fin mnX; maxX := Fin mxX; minY := Fin mnY; maxY := Fin mxY |}
    /\ (0 <= w <= 10 * M)%R /\ (0 <= h <= 10 * M)%R.
Proof.
  intros Hne Hmod.
  assert (Hbox : forall x, In x pts -> (- M <= fst x <= M /\ - M <= snd x <= M)%R).
  { intros x Hx. destruct (Hmod x Hx) as [H1 H2].
    split; apply Rabs_le_between; assumption. }
  assert (HM : (0 <= M)%R).
  { destruct pts as [| p0 pts]; [congruence |].
    pose proof (Hbox p0 (or_introl eq_refl)). lra. }
  rewrite rotatePoints_about_mean.
  set (C := cos (ang * PI / 180)). set (S := sin (ang * PI / 180)).
  assert (HC : (-1 <= C <= 1)%R) by apply COS_bound.
  assert (HS : (-1 <= S <= 1)%R) by apply SIN_bound.
  assert (Hcx : (- M <= fst (mean_point pts) <= M)%R).
  { unfold mean_point. cbn [fst].
    pose proof (mean_between (map fst pts) (- M) M) as Hm.
    rewrite length_map in Hm. apply Hm.
    - destruct pts; [congruence | discriminate].
    - intros x Hx. apply in_map_iff in Hx. destruct Hx as (p & <- & Hp).
      apply (Hbox p Hp). }
  assert (Hcy : (- M <= snd (mean_point pts) <= M)%R).
  { unfold mean_point. cbn [snd].
    pose proof (mean_between (map snd pts) (- M) M) as Hm.
    rewrite length_map in Hm. apply Hm.
    - destruct pts; [congruence | discriminate].
    - intros x Hx. apply in_map_iff in Hx. destruct Hx as (p & <- & Hp).
      apply (Hbox p Hp). }
  assert (Hrot : forall q, In q (map (rotate_about (mean_point pts) C S) pts) ->
                 (- (5 * M) <= fst q <= 5 * M /\ - (5 * M) <= snd q <= 5 * M)%R).
  { intros q Hq. apply in_map_iff in Hq. destruct Hq as (p & <- & Hp).
    pose proof (Hbox p Hp) as [Hpx Hpy].
    unfold rotate_about. cbn [fst snd].
    set (dx := (fst p - fst (mean_point pts))%R).
    set (dy := (snd p - snd (mean_point pts))%R).
    assert (Hdx : (- (2 * M) <= dx <= 2 * M)%R) by (unfold dx; lra).
    assert (Hdy : (- (2 * M) <= dy <= 2 * M)%R) by (unfold dy; lra).
    assert (H1 : (- (2 * M) <= dx * C <= 2 * M)%R) by (split; nra).
    assert (H2 : (- (2 * M) <= dy * S <= 2 * M)%R) by (split; nra).
    assert (H3 : (- (2 * M) <= dx * S <= 2 * M)%R) by (split; nra).
    assert (H4 : (- (2 * M) <= dy * C <= 2 * M)%R) by (split; nra).
    lra. }
  destruct (getBoundingBox_spec (map (rotate_about (mean_point pts) C S) pts))
    as (mnX & mxX & mnY & mxY & Hb & Hin & (pmin & Hpmin & Hmin) & (pmax & Hpmax & Hmax)
        & (qmin & Hqmin & Hymin) & (qmax & Hqmax & Hymax)).
  { destruct pts; [congruence | discriminate]. }
  exists (mxX + - mnX)%R, (mxY + - mnY)%R, mnX, mxX, mnY, mxY.
  split; [exact Hb |].
  pose proof (Hin _ Hpmin). pose proof (Hin _ Hqmin).
  pose proof (Hrot _ Hpmin). pose proof (Hrot _ Hpmax).
  pose proof (Hrot _ Hqmin). pose proof (Hrot _ Hqmax).
  lra.
Qed.

(** The forces that the solver rounds into the result. *)
Lemma calculateDrag_forces (pts : list point) (params : Params) (a : num) (r : Result) :
  normalizeAngle (or_default (angle params) 0) = Returns a ->
  calculateDrag pts params = Returns r ->
  let velocityMs := ToNumber (windSpeed params) / 3.6 in
  let rho := or_default (airDensity params) 1.225 in
  let bounds := getBoundingBox (rotatePoints pts a) in
  let frontalArea := height bounds / PIXELS_PER_METER * 1.0 in
  let polygonArea := calculatePolygonArea pts in
  let boxArea := width bounds * height bounds in
  let solidity := if boxArea >? 0 then polygonArea / boxArea else Fin 1.0 in
  let aspectRatio := if height bounds >? 0 then width bounds / height bounds else Fin 1.0 in
  let shape := classifyShape pts bounds solidity in
  let characteristicLength :=
    if String.eqb shape "circular" then width bounds / PIXELS_PER_METER
    else if String.eqb shape "streamlined" then width bounds / PIXELS_PER_METER
    else Math_sqrt (polygonArea / (PIXELS_PER_METER * PIXELS_PER_METER)) in
  let re := calculateReynolds velocityMs characteristicLength rho AIR_DYNAMIC_VISCOSITY in
  let cdv := calculateDragCoefficient shape re aspectRatio solidity a None in
  let dragF := 0.5 * rho * velocityMs * velocityMs * frontalArea * cdv in
  let pressureDragRatio :=
    if String.eqb shape "streamlined" then Fin 0.6
    else if String.eqb shape "circular" then Fin 0.85
    else Fin 0.9 in
  dragForce r = toFixed dragF 2
  /\ pressureDrag r = toFixed (dragF * pressureDragRatio) 2
  /\ frictionDrag r = toFixed (dragF * (1 - pressureDragRatio)) 2
  /\ area r = toFixed frontalArea 4
  /\ shapeType r = shape
  /\ debug_aspectRatio (debug r) = toFixed aspectRatio 3
  /\ debug_solidity (debug r) = toFixed solidity 3.
Proof.
  intros Hnorm H. unfold calculateDrag in H. rewrite Hnorm in H. cbn [bind] in H.
  destruct (analyzeGeometry _ _) as [g | |]; cbn [bind] in H; try discriminate.
  destruct (camber g) as [c |]; cbn [toFixed_prop bind] in H; try discriminate.
  injection H as <-. repeat split; reflexivity.
Qed.

(** X8.  For a polygon whose coordinates are at most 1000000 in
    magnitude, a wind speed of at most 1000000 km/h in magnitude, a finite
    angle and an air density between 0 and 1000, every result of the
    solve operation has a drag force, a pressure part and a friction part
    between 0 and 1e19 and a frontal area between 0 and 100001; the parts
    of the drag are those of 60 %, 85 % or 90 % pressure drag by shape
    type before rounding, the drag before rounding is between 0 and
    1e19, and without wind the drag force is 0. *)
Theorem drag_force_not_negative (rpts : list rpoint) (ws a rho : R) (r : Result) :
  moderate_polygon rpts ->
  (Rabs ws <= 1000000)%R ->
  (0 <= rho <= 1000)%R ->
  calculateDrag (fin_points rpts)
    {| windSpeed := Some (Fin ws); angle := Some (Fin a); airDensity := Some (Fin rho) |}
  = Returns r ->
  exists (F ratio d p f fa : R),
    dragForce r = Fin d /\ pressureDrag r = Fin p /\ frictionDrag r = Fin f
    /\ area r = Fin fa
    /\ (0 <= d <= 1e19)%R /\ (0 <= p <= 1e19)%R /\ (0 <= f <= 1e19)%R
    /\ (0 <= fa <= 100001)%R
    /\ (0 <= F <= 1e19)%R
    /\ ratio = (if String.eqb (shapeType r) "streamlined" then 0.6
                else if String.eqb (shapeType r) "circular" then 0.85 else 0.9)%R
    /\ dragForce r = toFixed (Fin F) 2
    /\ pressureDrag r = toFixed (Fin (F * ratio)) 2
    /\ frictionDrag r = toFixed (Fin (F * (1 - ratio))) 2
    /\ (ws = 0%R -> d = 0%R).
Proof.
  intros Hmod Hws Hrho H.
  apply Rabs_le_between in Hws.
  destruct (calculateDrag_fin_angle _ _ _ _ _ H) as (a' & Hnorm & Hrange).
  assert (Hne : rpts <> []).
  { intros ->. unfold calculateDrag in H. cbn [angle] in H.
    rewrite Hnorm in H. cbn [bind] in H.
    change (fin_points []) with (@nil point) in H.
    rewrite analyzeGeometry_empty in H. discriminate. }
  pose proof (calculateDrag_forces (fin_points rpts)
                {| windSpeed := Some (Fin ws); angle := Some (Fin a);
                   airDensity := Some (Fin rho) |} (Fin a') r Hnorm H) as Hf.
  cbv zeta in Hf.
  cbn [windSpeed airDensity ToNumber] in Hf.
  destruct (rotated_box_bounded 1000000 rpts a' Hne Hmod)
    as (w & h & mnX & mxX & mnY & mxY & Hb & Hw & Hh).
  rewrite Hb in Hf. cbn [width height] in Hf.
  rewrite calculatePolygonArea_fin in Hf.
  destruct (or_default_density_nonneg rho Hrho) as (rho' & Hrho' & Hrhopos).
  rewrite Hrho' in Hf.
  set (parea := (Rabs (shoelace rpts) / 2)%R) in Hf.
  assert (Harea : (0 <= parea)%R)
    by (unfold parea; pose proof (Rabs_pos (shoelace rpts)); lra).
  assert (Har : exists ar : R,
             (if Fin h >? 0 then Fin w / Fin h else Fin 1.0) = Fin ar /\ (0 <= ar)%R).
  { unfold ngt. simpl. destruct (Rltb_spec 0 h).
    - rewrite Reqb_false by lra. eexists. split; [reflexivity |].
      apply Rmult_le_pos; [lra |]. apply Rlt_le, Rinv_0_lt_compat. lra.
    - eexists. split; [reflexivity | lra]. }
  destruct Har as (ar & Har & Harpos). rewrite Har in Hf.
  assert (Hsol : exists sol : R,
             (if Fin w * Fin h >? 0 then Fin parea / (Fin w * Fin h) else Fin 1.0) = Fin sol).
  { unfold ngt. simpl. destruct (Rltb_spec 0 (w * h)).
    - rewrite Reqb_false by lra. eexists. reflexivity.
    - eexists. reflexivity. }
  destruct Hsol as (sol & Hsol). rewrite Hsol in Hf.
  set (shape := classifyShape _ _ _) in Hf.
  assert (Hlen : exists len : R,
             (if String.eqb shape "circular" then Fin w / PIXELS_PER_METER
              else if String.eqb shape "streamlined" then Fin w / PIXELS_PER_METER
              else Math_sqrt (Fin parea / (PIXELS_PER_METER * PIXELS_PER_METER))) = Fin len).
  { unfold PIXELS_PER_METER. simpl nmul. rewrite !ndiv_fin by lra.
    simpl Math_sqrt. rewrite Rltb_false by lra.
    destruct (String.eqb shape "circular"), (String.eqb shape "streamlined");
      eexists; reflexivity. }
  destruct Hlen as (len & Hlen). rewrite Hlen in Hf.
  assert (Hre : exists re : R,
             calculateReynolds (Fin ws / 3.6) (Fin len) (Fin rho') AIR_DYNAMIC_VISCOSITY
             = Fin re).
  { unfold calculateReynolds, AIR_DYNAMIC_VISCOSITY. rewrite ndiv_fin by lra.
    simpl nmul. rewrite ndiv_fin by lra. eexists. reflexivity. }
  destruct Hre as (re & Hre). rewrite Hre in Hf.
  destruct (drag_model_clamped shape re ar sol a' None Harpos) as (c & Hc & Hcr).
  rewrite Hc in Hf.
  unfold PIXELS_PER_METER in Hf. rewrite !ndiv_fin in Hf by lra.
  destruct Hf as (Hd & Hp & Hfr & Hfa & Hshape & _).
  set (ratio := (if String.eqb shape "streamlined" then 0.6
                 else if String.eqb shape "circular" then 0.85 else 0.9)%R).
  assert (Hratio : (if String.eqb shape "streamlined" then Fin 0.6
                    else if String.eqb shape "circular" then Fin 0.85
                    else Fin 0.9) = Fin ratio).
  { unfold ratio. destruct (String.eqb shape "streamlined"), (String.eqb shape "circular");
      reflexivity. }
  assert (Hratio_range : (0 <= ratio <= 1)%R).
  { unfold ratio. destruct (String.eqb shape "streamlined"), (String.eqb shape "circular");
      lra. }
  rewrite Hratio in Hp, Hfr.
  cbn [nmul nsub nadd nneg] in Hd, Hp, Hfr, Hfa.
  set (F := (0.5 * rho' * (ws / 3.6) * (ws / 3.6) * (h / 100 * 1.0) * c)%R) in *.
  assert (Hv : (0 <= (ws / 3.6) * (ws / 3.6) <= 78000000000)%R).
  { assert (Hv1 : (- 277778 <= ws / 3.6 <= 277778)%R) by lra.
    split; nra. }
  assert (Hq : (0 <= 0.5 * rho' * (ws / 3.6) * (ws / 3.6) <= 500 * 78000000000)%R).
  { replace (0.5 * rho' * (ws / 3.6) * (ws / 3.6))%R
      with ((0.5 * rho') * ((ws / 3.6) * (ws / 3.6)))%R by ring.
    split.
    - apply Rmult_le_pos; lra.
    - apply Rmult_le_compat; lra. }
  assert (Hqa : (0 <= 0.5 * rho' * (ws / 3.6) * (ws / 3.6) * (h / 100 * 1.0)
                 <= 500 * 78000000000 * 100000)%R).
  { split.
    - apply Rmult_le_pos; lra.
    - apply Rmult_le_compat; lra. }
  assert (HF : (0 <= F <= 9750000000000000000)%R).
  { unfold F. split.
    - apply Rmult_le_pos; lra.
    - apply Rle_trans with (500 * 78000000000 * 100000 * 2.5)%R; [| lra].
      apply Rmult_le_compat; lra. }
  assert (HFp : (0 <= F * ratio <= 9750000000000000000)%R) by (split; nra).
  assert (HFf : (0 <= F * (1 + - ratio) <= 9750000000000000000)%R) by (split; nra).
  destruct (toFixed_nonneg F 2) as (d & Hd' & Hdpos & Hd0 & Hdup); [lra |].
  destruct (toFixed_nonneg (F * ratio) 2) as (p & Hp' & Hppos & _ & Hpup); [lra |].
  destruct (toFixed_nonneg (F * (1 + - ratio)) 2) as (f & Hf' & Hfpos & _ & Hfup); [lra |].
  destruct (toFixed_nonneg (h / 100 * 1.0) 4) as (fa & Hfa' & Hfapos & _ & Hfaup); [lra |].
  exists F, ratio, d, p, f, fa.
  rewrite Hshape. fold ratio.
  rewrite Hd, Hp, Hfr, Hfa.
  repeat split; try assumption; try lra.
  intros ->. apply Hd0. unfold F. lra.
Qed.

Lemma drag_force_not_negative_witness :
  exists (r : Result) (d : R),
    calculateDrag (fin_points blunt_wedge) (standard_params 0) = Returns r
    /\ dragForce r = Fin d /\ (0 <= d <= 1e19)%R.
Proof.
  destruct wedge_solve as (r & Hr & _).
  destruct (drag_force_not_negative blunt_wedge 50 0 1.225 r wedge_moderate
              ltac:(apply Rabs_le; lra) ltac:(lra) Hr)
    as (F & ratio & d & p & f & fa & Hd & _ & _ & _ & Hpos & _).
  exists r, d. repeat split; try assumption; apply Hpos.
Defined.

(** *** Symmetries of the drag model *)

Lemma Math_abs_angleRad_opp (a : R) :
  Math_abs (Fin (- a) * Math_PI / 180) = Math_abs (Fin a * Math_PI / 180).
Proof.
  rewrite !angleRad_fin. cbn [Math_abs]. f_equal.
  replace (- a * PI / 180)%R with (- (a * PI / 180))%R by lra. apply Rabs_Ropp.
Qed.

Lemma Math_abs_opp (a : R) : Math_abs (Fin (- a)) = Math_abs (Fin a).
Proof. cbn [Math_abs]. f_equal. apply Rabs_Ropp. Qed.

Lemma Math_max_fin_comm (x y : R) : Math_max (Fin x) (Fin y) = Math_max (Fin y) (Fin x).
Proof.
  unfold Math_max, nlt.
  destruct (Rltb_spec x y), (Rltb_spec y x); try reflexivity; f_equal; lra.
Qed.

Lemma fineness_reciprocal (ar : R) :
  (0 < ar)%R ->
  Math_max (Fin (1 / ar)) (1 / Fin (1 / ar)) = Math_max (Fin ar) (1 / Fin ar).
Proof.
  intros Har.
  assert (Hinv : (0 < 1 / ar)%R).
  { unfold Rdiv. rewrite Rmult_1_l. apply Rinv_0_lt_compat. exact Har. }
  change (1 / Fin (1 / ar)) with (ndiv (Fin 1) (Fin (1 / ar))).
  change (1 / Fin ar) with (ndiv (Fin 1) (Fin ar)).
  rewrite !ndiv_fin by lra.
  replace (1 / (1 / ar))%R with ar by (field; lra).
  apply Math_max_fin_comm.
Qed.

(** X9.  The drag model does not see the sign of a finite angle of
    attack, and for a positive aspect ratio it gives the same coefficient
    for the ratio and for its reciprocal. *)
Theorem drag_coefficient_symmetries
    (shapeType : string) (reynolds solidity : num) (geometry : option Geometry) :
  (forall (aspectRatio : num) (a : R),
      calculateDragCoefficient shapeType reynolds aspectRatio solidity (Fin (- a)) geometry
      = calculateDragCoefficient shapeType reynolds aspectRatio solidity (Fin a) geometry)
  /\ (forall (angleDegrees : num) (ar : R),
         (0 < ar)%R ->
         calculateDragCoefficient shapeType reynolds (Fin (1 / ar)) solidity angleDegrees
                                  geometry
         = calculateDragCoefficient shapeType reynolds (Fin ar) solidity angleDegrees
                                    geometry).
Proof.
  split.
  - intros aspectRatio a. unfold calculateDragCoefficient.
    rewrite !Math_abs_angleRad_opp, !Math_abs_opp. reflexivity.
  - intros angleDegrees ar Har. unfold calculateDragCoefficient.
    rewrite !(fineness_reciprocal ar Har). reflexivity.
Qed.

Lemma drag_coefficient_symmetries_witness :
  calculateDragCoefficient "rectangular" 1e5 (Fin (1 / 2)) 1 0 None
  = calculateDragCoefficient "rectangular" 1e5 (Fin 2) 1 0 None.
Proof.
  apply (proj2 (drag_coefficient_symmetries "rectangular" 1e5 1 None) 0 2%R). lra.
Defined.

(** *** The lift model off the streamlined branch *)

(** The Reynolds number correction multiplies the lift by a factor
    between 0.1 and 1 that depends on the Reynolds number only. *)
Lemma reynolds_correction_fin (re : R) :
  exists m : R,
    (0.1 <= m <= 1)%R
    /\ forall c : R,
        (if Fin re <? 100000
         then Fin c * Math_min 1.0 (Math_max 0.1
                        (0.4 + 0.6 * (Math_log10 (Math_max 1 (Fin re)) / 5.0)))
         else Fin c)
        = Fin (c * m).
Proof.
  unfold nlt. destruct (Rltb_spec re 100000) as [Hlt | Hge].
  - assert (Hmax : exists x : R, Math_max 1 (Fin re) = Fin x /\ (1 <= x)%R).
    { unfold Math_max, nlt. destruct (Rltb_spec 1 re); eexists; split;
        try reflexivity; lra. }
    destruct Hmax as (x & -> & Hx).
    unfold Math_log10. rewrite Rltb_false, Reqb_false by lra.
    rewrite ndiv_fin by lra. cbn [nmul nadd].
    set (f := (0.4 + 0.6 * (ln x / ln 10 / 5.0))%R).
    assert (Hmm : exists m : R,
               Math_min 1.0 (Math_max 0.1 (Fin f)) = Fin m /\ (0.1 <= m <= 1)%R).
    { unfold Math_max, Math_min, nlt.
      destruct (Rltb_spec 0.1 f).
      - destruct (Rltb_spec f 1.0); eexists; split; try reflexivity; lra.
      - destruct (Rltb_spec 0.1 1.0); eexists; split; try reflexivity; lra. }
    destruct Hmm as (m & -> & Hm).
    exists m. split; [exact Hm | intros c; reflexivity].
  - exists 1%R. split; [lra | intros c; f_equal; lra].
Qed.

Lemma nmul_fin (x y : R) : Fin x * Fin y = Fin (x * y).
Proof. reflexivity. Qed.

Lemma sin2_angleRad (a : R) :
  Math_sin (2 * (Fin a * Math_PI / 180)) = Fin (sin (2 * (a * PI / 180))).
Proof. rewrite angleRad_fin. reflexivity. Qed.

Lemma sin_angleRad (a : R) :
  Math_sin (Fin a * Math_PI / 180) = Fin (sin (a * PI / 180)).
Proof. rewrite angleRad_fin. reflexivity. Qed.

(** X10.  For a finite Reynolds number and a finite angle the lift
    coefficient of a circular shape lies in [-0.3, 0.3], that of a bluff
    shape in [-0.5, 0.5], whatever the other arguments are. *)
Theorem lift_coefficient_bounded
    (shapeType : string) (re a : R) (aspectRatio solidity : num)
    (geometry : option Geometry) :
  shapeType <> "streamlined"%string ->
  shapeType <> "rectangular"%string ->
  exists c : R,
    calculateLiftCoefficient shapeType (Fin re) aspectRatio (Fin a) solidity geometry
    = Fin c
    /\ (- 0.5 <= c <= 0.5)%R
    /\ (shapeType = "circular"%string -> (- 0.3 <= c <= 0.3)%R).
Proof.
  intros Hs Hr.
  apply String.eqb_neq in Hs. apply String.eqb_neq in Hr.
  destruct (reynolds_correction_fin re) as (m & Hm & Hcorr).
  unfold calculateLiftCoefficient. rewrite Hs, Hr, !sin2_angleRad.
  match goal with |- context [if ?b then Fin 0 else _] => destruct b end;
    [exists 0%R; split; [reflexivity | split; [lra | intros _; lra]] |].
  match goal with |- context [if ?b then Fin 0 else _] => destruct b end;
    [exists 0%R; split; [reflexivity | split; [lra | intros _; lra]] |].
  pose proof (SIN_bound (2 * (a * PI / 180))) as Hsin.
  destruct (String.eqb shapeType "circular") eqn:Hc.
  - destruct (Math_abs (Fin a) >? 5); rewrite ?nmul_fin, Hcorr;
      eexists; (split; [reflexivity | split; [nra | intros _; nra]]).
  - assert (Hnc : shapeType <> "circular"%string) by (apply String.eqb_neq; exact Hc).
    destruct (solidity <? 0.5); rewrite ?nmul_fin, Hcorr;
      eexists; (split; [reflexivity | split; [nra | intros E; congruence]]).
Qed.

Lemma lift_coefficient_bounded_witness :
  exists c : R,
    calculateLiftCoefficient "circular" 1e5 1 30 0.78 None = Fin c
    /\ (- 0.3 <= c <= 0.3)%R.
Proof.
  destruct (lift_coefficient_bounded "circular" 1e5 30 1 0.78 None
              ltac:(discriminate) ltac:(discriminate)) as (c & Hc & _ & Hb).
  exists c. split; [exact Hc | apply Hb; reflexivity].
Defined.

(** X11.  Off the streamlined branch the lift model is odd in a finite
    angle of attack, for a rectangular shape when its camber is 0:
    turning the flow to the other side changes the sign of the lift and
    nothing else. *)
Theorem lift_odd_off_streamlined
    (shapeType : string) (re a : R) (aspectRatio solidity : num)
    (geometry : option Geometry) :
  shapeType <> "streamlined"%string ->
  (shapeType = "rectangular"%string ->
   forall g, geometry = Some g -> camber g = Some (Fin 0)) ->
  exists c : R,
    calculateLiftCoefficient shapeType (Fin re) aspectRatio (Fin a) solidity geometry
    = Fin c
    /\ calculateLiftCoefficient shapeType (Fin re) aspectRatio (Fin (- a)) solidity geometry
       = Fin (- c).
Proof.
  intros Hs Hcam.
  apply String.eqb_neq in Hs.
  destruct (reynolds_correction_fin re) as (m & Hm & Hcorr).
  assert (Hsin2 : sin (2 * (- a * PI / 180)) = (- sin (2 * (a * PI / 180)))%R).
  { replace (2 * (- a * PI / 180))%R with (- (2 * (a * PI / 180)))%R by lra.
    apply sin_neg. }
  assert (Hsin1 : sin (- a * PI / 180) = (- sin (a * PI / 180))%R).
  { replace (- a * PI / 180)%R with (- (a * PI / 180))%R by lra. apply sin_neg. }
  unfold calculateLiftCoefficient.
  rewrite Hs, !sin2_angleRad, !sin_angleRad, !Math_abs_opp, Hsin2, Hsin1.
  match goal with |- context [if ?b then Fin 0 else _] => destruct b end;
    [exists 0%R; split; [reflexivity | f_equal; lra] |].
  match goal with |- context [if ?b then Fin 0 else _] => destruct b end;
    [exists 0%R; split; [reflexivity | f_equal; lra] |].
  destruct (String.eqb shapeType "circular") eqn:Hc.
  - destruct (Math_abs (Fin a) >? 5); rewrite ?nmul_fin, !Hcorr;
      eexists; (split; [reflexivity | f_equal; lra]).
  - destruct (String.eqb_spec shapeType "rectangular") as [Hrect | Hnr].
    + assert (Hnocamber :
               (match match geometry with
                      | Some g => camber g
                      | None => Some (Fin 0)
                      end with
                | Some c => negb (c === 0)
                | None => true
                end) = false).
      { destruct geometry as [g |].
        - rewrite (Hcam Hrect g eq_refl). unfold neqb. rewrite Reqb_true; reflexivity.
        - unfold neqb. rewrite Reqb_true; reflexivity. }
      rewrite Hnocamber. cbn [andb].
      destruct (Math_abs (Fin a) <? 25); rewrite ?nmul_fin, !Hcorr;
        eexists; (split; [reflexivity | f_equal; lra]).
    + destruct (solidity <? 0.5); rewrite ?nmul_fin, !Hcorr;
        eexists; (split; [reflexivity | f_equal; lra]).
Qed.

Lemma lift_odd_off_streamlined_witness :
  exists c : R,
    calculateLiftCoefficient "bluff" 1e5 1 30 0.6 None = Fin c
    /\ calculateLiftCoefficient "bluff" 1e5 1 (Fin (- 30)) 0.6 None = Fin (- c).
Proof.
  apply (lift_odd_off_streamlined "bluff" 1e5 30 1 0.6 None).
  - discriminate.
  - discriminate.
Defined.

(** *** The regimes of the circular drag model *)

Lemma circular_drag_value (re a : R) (ar sol : num) (g : option Geometry) :
  (Rabs (a * PI / 180) <= 0.1)%R ->
  calculateDragCoefficient "circular" (Fin re) ar sol (Fin a) g
  = clampCd (if Rltb re 1 then Math_max (24 / Fin re) 2.0
             else if Rltb re 2e5 then Fin 1.17
             else if Rltb re 5e5
                  then Fin (0.3 + (1.2 - 0.3) * (1 / (1 + exp ((re - 3.5e5) / 50000))))
                  else Fin (0.35 + re / 1e7 * 0.1)).
Proof.
  intros Ha. unfold calculateDragCoefficient.
  simpl String.eqb. cbv iota.
  rewrite !angleRad_fin. cbn [Math_abs ngt nlt].
  rewrite (Rltb_false 0.1) by lra.
  f_equal.
  destruct (Rltb re 1); [reflexivity |].
  destruct (Rltb re 2e5); [reflexivity |].
  destruct (Rltb re 5e5).
  - cbn [nsub nneg nadd]. rewrite ndiv_fin by lra. cbn [Math_exp nadd].
    rewrite ndiv_fin
      by (match goal with |- context [exp ?x] => pose proof (exp_pos x) end; lra).
    reflexivity.
  - rewrite ndiv_fin by lra. reflexivity.
Qed.

Lemma clampCd_inside (c : R) : (0.01 <= c <= 2.5)%R -> clampCd (Fin c) = Fin c.
Proof.
  intros H. unfold clampCd, Math_min, Math_max, nlt.
  destruct (Rltb_spec 2.5 c); [lra |].
  destruct (Rltb_spec 0.01 c); [reflexivity | f_equal; lra].
Qed.

Lemma crisis_sigmoid (re : R) :
  (0 < 1 / (1 + exp ((re - 3.5e5) / 50000)) < 1)%R.
Proof.
  pose proof (exp_pos ((re - 3.5e5) / 50000)) as He.
  set (e := exp ((re - 3.5e5) / 50000)) in *.
  replace (1 / (1 + e))%R with (/ (1 + e))%R by (unfold Rdiv; ring).
  assert (Hpos : (0 < / (1 + e))%R) by (apply Rinv_0_lt_compat; lra).
  assert (Hone : ((1 + e) * / (1 + e) = 1)%R) by (apply Rinv_r; lra).
  split; [exact Hpos | nra].
Qed.

(** X12.  The drag coefficient of a circular shape at an angle of at
    most 0.1 rad: it is 2.5 for a Reynolds number in (0, 1), 1.17 from 1
    up to 2e5, falls monotonically inside (0.3, 1.2) through the drag
    crisis from 2e5 up to 5e5, and then rises as 0.35 + Re/1e8 until the
    clamp at 2.5 takes over. *)
Theorem circular_drag_regimes (a : R) (ar sol : num) (g : option Geometry) :
  (Rabs (a * PI / 180) <= 0.1)%R ->
  (forall re : R, (0 < re < 1)%R ->
     calculateDragCoefficient "circular" (Fin re) ar sol (Fin a) g = Fin 2.5)
  /\ (forall re : R, (1 <= re < 2e5)%R ->
        calculateDragCoefficient "circular" (Fin re) ar sol (Fin a) g = Fin 1.17)
  /\ (forall re1 re2 : R, (2e5 <= re1 <= re2)%R -> (re2 < 5e5)%R ->
        exists c1 c2 : R,
          calculateDragCoefficient "circular" (Fin re1) ar sol (Fin a) g = Fin c1
          /\ calculateDragCoefficient "circular" (Fin re2) ar sol (Fin a) g = Fin c2
          /\ (0.3 < c2 <= c1)%R /\ (c1 < 1.2)%R)
  /\ (forall re : R, (5e5 <= re <= 2.15e8)%R ->
        calculateDragCoefficient "circular" (Fin re) ar sol (Fin a) g
        = Fin (0.35 + re / 1e7 * 0.1))
  /\ (forall re : R, (2.15e8 <= re)%R ->
        calculateDragCoefficient "circular" (Fin re) ar sol (Fin a) g = Fin 2.5).
Proof.
  intros Ha. repeat split.
  - intros re Hre. rewrite circular_drag_value by exact Ha.
    rewrite Rltb_true by lra. rewrite ndiv_fin by lra.
    assert (H24 : (24 < 24 / re)%R).
    { unfold Rdiv. rewrite <- (Rmult_1_r 24) at 1.
      apply Rmult_lt_compat_l; [lra |].
      rewrite <- Rinv_1. apply Rinv_lt_contravar; lra. }
    unfold clampCd, Math_max, Math_min, nlt.
    rewrite (Rltb_false (24 / re) 2.0) by lra.
    rewrite (Rltb_true 2.5 (24 / re)) by lra.
    rewrite Rltb_true by lra. reflexivity.
  - intros re Hre. rewrite circular_drag_value by exact Ha.
    rewrite Rltb_false, Rltb_true by lra. apply clampCd_inside. lra.
  - intros re1 re2 H12 H2.
    rewrite !circular_drag_value by exact Ha.
    rewrite (Rltb_false re1 1), (Rltb_false re1 2e5), (Rltb_true re1 5e5) by lra.
    rewrite (Rltb_false re2 1), (Rltb_false re2 2e5), (Rltb_true re2 5e5) by lra.
    pose proof (crisis_sigmoid re1) as Hs1. pose proof (crisis_sigmoid re2) as Hs2.
    rewrite !clampCd_inside by lra.
    eexists _, _. split; [reflexivity |]. split; [reflexivity |].
    assert (Hmono : (1 / (1 + exp ((re2 - 3.5e5) / 50000))
                     <= 1 / (1 + exp ((re1 - 3.5e5) / 50000)))%R).
    { pose proof (exp_pos ((re1 - 3.5e5) / 50000)) as He1.
      assert (Hexp : (exp ((re1 - 3.5e5) / 50000) <= exp ((re2 - 3.5e5) / 50000))%R).
      { destruct (Req_dec re1 re2) as [-> | Hne]; [lra |].
        apply Rlt_le, exp_increasing. lra. }
      unfold Rdiv. rewrite !Rmult_1_l.
      apply Rinv_le_contravar; lra. }
    lra.
  - intros re Hre. rewrite circular_drag_value by exact Ha.
    rewrite !Rltb_false by lra. apply clampCd_inside. lra.
  - intros re Hre. rewrite circular_drag_value by exact Ha.
    rewrite !Rltb_false by lra.
    unfold clampCd, Math_max, Math_min, nlt.
    destruct (Rltb_spec 2.5 (0.35 + re / 1e7 * 0.1)).
    + rewrite Rltb_true by lra. reflexivity.
    + rewrite Rltb_true by lra. f_equal. lra.
Qed.

Lemma circular_drag_regimes_witness :
  calculateDragCoefficient "circular" (Fin 1000) 1 0.78 (Fin 0) None = Fin 1.17.
Proof.
  apply (proj1 (proj2 (circular_drag_regimes 0 1 0.78 None
                         ltac:(replace (0 * PI / 180)%R with 0%R by lra;
                               rewrite Rabs_R0; lra)))).
  lra.
Defined.

(** *** The geometry record of a polygon with finite coordinates *)

Lemma combine_seq_map {A B : Type} (f : A -> B) (l : list A) (k : nat) :
  combine (List.seq k (List.length (map f l))) (map f l)
  = map (fun ip => (fst ip, f (snd ip))) (combine (List.seq k (List.length l)) l).
Proof.
  revert k. induction l as [| a l IH]; intros k; [reflexivity |].
  simpl. f_equal. apply IH.
Qed.

Lemma in_combine_seq {A : Type} (l : list A) (k i : nat) (a : A) :
  In (i, a) (combine (List.seq k (List.length l)) l) ->
  (k <= i)%nat /\ nth_error l (i - k) = Some a.
Proof.
  revert k. induction l as [| b l IH]; intros k H; [destruct H |].
  simpl in H. destruct H as [H | H].
  - injection H as <- <-. split; [lia |]. rewrite Nat.sub_diag. reflexivity.
  - apply IH in H. destruct H as [Hk Hn]. split; [lia |].
    replace (i - k)%nat with (S (i - S k)) by lia. exact Hn.
Qed.

Lemma in_combine_seq_of {A : Type} (l : list A) (k : nat) (a : A) :
  In a l -> exists i, In (i, a) (combine (List.seq k (List.length l)) l).
Proof.
  revert k. induction l as [| b l IH]; intros k H; [destruct H |].
  simpl. destruct H as [-> | H].
  - exists k. left. reflexivity.
  - destruct (IH (S k) H) as [i Hi]. exists i. right. exact Hi.
Qed.

(** The edge search ends on a point nearest to [mnX] and a point nearest
    to [mxX]. *)
Lemma edge_loop_spec (mnX mxX : R) (l : list (nat * rpoint)) :
  l <> [] ->
  exists (iLE iTE : nat) (pL pT : rpoint),
    fold_left (edgeStep (Fin mnX) (Fin mxX))
              (map (fun ip => (fst ip, fin_point (snd ip))) l) (0%nat, 0%nat, PInf, PInf)
    = (iLE, iTE, Fin (Rabs (fst pL - mnX)), Fin (Rabs (fst pT - mxX)))
    /\ In (iLE, pL) l /\ In (iTE, pT) l
    /\ (forall ip, In ip l ->
          (Rabs (fst pL - mnX) <= Rabs (fst (snd ip) - mnX))%R
          /\ (Rabs (fst pT - mxX) <= Rabs (fst (snd ip) - mxX))%R).
Proof.
  induction l as [| [i [x y]] l IH] using rev_ind; [congruence | intros _].
  rewrite map_app, fold_left_app.
  destruct l as [| a l'].
  - exists i, i, (x, y), (x, y). simpl. split; [reflexivity |].
    split; [auto |]. split; [auto |].
    intros ip [<- | []]. simpl. lra.
  - destruct IH as (iLE & iTE & pL & pT & Hfold & HL & HT & Hmin); [discriminate |].
    rewrite Hfold. cbn [map fold_left fst snd]. unfold edgeStep.
    cbn [fin_point p0 fst snd nsub nadd nneg Math_abs nlt].
    change (x + - mnX)%R with (x - mnX)%R. change (x + - mxX)%R with (x - mxX)%R.
    set (dL := Rabs (fst pL - mnX)) in *. set (dT := Rabs (fst pT - mxX)) in *.
    set (eL := Rabs (x - mnX)). set (eT := Rabs (x - mxX)).
    exists (if Rltb eL dL then i else iLE), (if Rltb eT dT then i else iTE),
           (if Rltb eL dL then (x, y) else pL), (if Rltb eT dT then (x, y) else pT).
    split.
    { destruct (Rltb eL dL), (Rltb eT dT); reflexivity. }
    split.
    { destruct (Rltb eL dL); apply in_or_app; [right; left; reflexivity | left; exact HL]. }
    split.
    { destruct (Rltb eT dT); apply in_or_app; [right; left; reflexivity | left; exact HT]. }
    intros ip Hip. apply in_app_or in Hip.
    assert (HeL : (Rabs (fst (if Rltb eL dL then (x, y) else pL) - mnX) <= dL
                   /\ Rabs (fst (if Rltb eL dL then (x, y) else pL) - mnX) <= eL)%R).
    { destruct (Rltb_spec eL dL); cbn [fst]; fold eL; fold dL; lra. }
    assert (HeT : (Rabs (fst (if Rltb eT dT then (x, y) else pT) - mxX) <= dT
                   /\ Rabs (fst (if Rltb eT dT then (x, y) else pT) - mxX) <= eT)%R).
    { destruct (Rltb_spec eT dT); cbn [fst]; fold eT; fold dT; lra. }
    destruct Hip as [Hip | [<- | []]].
    + destruct (Hmin ip Hip). lra.
    + cbn [fst snd]. fold eL. fold eT. lra.
Qed.

Lemma atan_sign (x : R) :
  ((0 <= x -> 0 <= atan x) /\ (x <= 0 -> atan x <= 0))%R.
Proof.
  split; intros H.
  - destruct (Req_dec x 0) as [-> | Hne]; [rewrite atan_0; lra |].
    rewrite <- atan_0. apply Rlt_le, atan_increasing. lra.
  - destruct (Req_dec x 0) as [-> | Hne]; [rewrite atan_0; lra |].
    rewrite <- atan_0. apply Rlt_le, atan_increasing. lra.
Qed.

(** [Math.atan2] of finite numbers is an angle between [-PI] and [PI]. *)
Lemma atan2_fin_range (b a : R) :
  exists t : R, Math_atan2 (Fin b) (Fin a) = Fin t /\ (- PI <= t <= PI)%R.
Proof.
  pose proof PI_RGT_0 as Hpi.
  pose proof (atan_bound (b / a)) as Hb.
  destruct (atan_sign (b / a)) as [Hpos Hneg].
  unfold Math_atan2.
  destruct (Rltb_spec 0 a) as [Ha | Ha].
  - eexists. split; [reflexivity | lra].
  - destruct (Rltb_spec a 0) as [Ha' | Ha'].
    + assert (Hinv : (/ a < 0)%R) by (apply Rinv_lt_0_compat; exact Ha').
      destruct (Rltb_spec b 0) as [Hb0 | Hb0].
      * eexists. split; [reflexivity |].
        assert (0 <= b / a)%R by (unfold Rdiv; nra).
        specialize (Hpos H). lra.
      * eexists. split; [reflexivity |].
        assert (b / a <= 0)%R by (unfold Rdiv; nra).
        specialize (Hneg H). lra.
    + destruct (Rltb 0 b); [eexists; split; [reflexivity | lra] |].
      destruct (Rltb b 0); eexists; (split; [reflexivity | lra]).
Qed.

Lemma Rabs_le_0 (x : R) : (Rabs x <= 0)%R -> x = 0%R.
Proof.
  intros H. pose proof (Rle_abs x). pose proof (Rle_abs (- x)) as H'.
  rewrite Rabs_Ropp in H'. lra.
Qed.

Lemma nsub_fin (x y : R) : Fin x - Fin y = Fin (x - y).
Proof. reflexivity. Qed.

Lemma nadd_fin (x y : R) : Fin x + Fin y = Fin (x + y).
Proof. reflexivity. Qed.

Lemma nth_fin_points (i : nat) (l : list rpoint) (d : rpoint) :
  nth i (fin_points l) (fin_point d) = fin_point (nth i l d).
Proof. apply map_nth. Qed.

(** The angle at the trailing edge is folded into [0, 180]. *)
Lemma te_angle_range (v1y v1x v2y v2x : R) :
  exists te : R,
    (if Math_abs ((Math_atan2 (Fin v1y) (Fin v1x) - Math_atan2 (Fin v2y) (Fin v2x))
                  * 180 / Math_PI) >? 180
     then 360 - Math_abs ((Math_atan2 (Fin v1y) (Fin v1x) - Math_atan2 (Fin v2y) (Fin v2x))
                          * 180 / Math_PI)
     else Math_abs ((Math_atan2 (Fin v1y) (Fin v1x) - Math_atan2 (Fin v2y) (Fin v2x))
                    * 180 / Math_PI))
    = Fin te
    /\ (0 <= te <= 180)%R.
Proof.
  destruct (atan2_fin_range v1y v1x) as (t1 & -> & Ht1).
  destruct (atan2_fin_range v2y v2x) as (t2 & -> & Ht2).
  pose proof PI_RGT_0 as Hpi.
  unfold Math_PI. rewrite nsub_fin, nmul_fin, ndiv_fin by lra.
  cbn [Math_abs ngt nlt nsub nadd nneg].
  set (A := Rabs ((t1 - t2) * 180 / PI)).
  assert (HA : (0 <= A <= 360)%R).
  { unfold A. split; [apply Rabs_pos |]. apply Rabs_le.
    assert (Hinv : (0 < / PI)%R) by (apply Rinv_0_lt_compat; exact Hpi).
    assert (Hone : (PI * / PI = 1)%R) by (apply Rinv_r; lra).
    unfold Rdiv. split; nra. }
  destruct (Rltb_spec 180 A); eexists; (split; [reflexivity | lra]).
Qed.

Lemma sqrt_sum_squares_bounds (u v : R) :
  (Rabs u <= sqrt (u * u + v * v))%R
  /\ (Rabs v <= sqrt (u * u + v * v))%R
  /\ (sqrt (u * u + v * v) <= Rabs u + Rabs v)%R.
Proof.
  pose proof (Rle_0_sqr u) as Hu. pose proof (Rle_0_sqr v) as Hv. unfold Rsqr in Hu, Hv.
  pose proof (Rabs_pos u) as Hau. pose proof (Rabs_pos v) as Hav.
  assert (Hsu : (Rabs u * Rabs u = u * u)%R).
  { unfold Rabs. destruct (Rcase_abs u); ring. }
  assert (Hsv : (Rabs v * Rabs v = v * v)%R).
  { unfold Rabs. destruct (Rcase_abs v); ring. }
  split; [| split].
  - rewrite <- (sqrt_square (Rabs u)) at 1 by exact Hau.
    apply sqrt_le_1; nra.
  - rewrite <- (sqrt_square (Rabs v)) at 1 by exact Hav.
    apply sqrt_le_1; nra.
  - rewrite <- (sqrt_square (Rabs u + Rabs v)) by lra.
    apply sqrt_le_1; nra.
Qed.

(** The radius estimate at the leading edge is finite and not negative,
    and no larger than the distance of the two neighbours allows. *)
Lemma le_radius_fin (u v chord : R) :
  (0 < chord)%R ->
  exists l : R,
    Math_sqrt (Math_pow2 (Fin u) + Math_pow2 (Fin v)) / (2 * Fin chord) = Fin l
    /\ (0 <= l)%R
    /\ (l * (2 * chord) <= Rabs u + Rabs v)%R.
Proof.
  intros Hc. unfold Math_pow2. rewrite !nmul_fin, nadd_fin.
  unfold Math_sqrt. rewrite Rltb_false by nra.
  rewrite ndiv_fin by lra.
  eexists. split; [reflexivity |].
  destruct (sqrt_sum_squares_bounds u v) as (_ & _ & Hs).
  split.
  - apply Rmult_le_pos; [apply sqrt_pos |]. apply Rlt_le, Rinv_0_lt_compat. lra.
  - unfold Rdiv. rewrite Rmult_assoc, Rinv_l by lra. lra.
Qed.

(** The loop over the signed distances: each distance is at most the
    sum of the two offsets from the leading edge when the normal is no
    longer than 1, and so is the mean of the distances. *)
Lemma side_loop_bound (pLE : rpoint) (nx ny D : R) (l : list rpoint)
    (uA lA sY mU mL : R) :
  (Rabs nx <= 1)%R -> (Rabs ny <= 1)%R ->
  (forall p, In p l ->
     (Rabs (fst p - fst pLE) + Rabs (snd p - snd pLE) <= D)%R) ->
  exists uA' lA' sY' mU' mL' : R,
    fold_left (sideStep (fin_point pLE) (Fin nx) (Fin ny)) (fin_points l)
              (Fin uA, Fin lA, Fin sY, Fin mU, Fin mL)
    = (Fin uA', Fin lA', Fin sY', Fin mU', Fin mL')
    /\ (Rabs (sY' - sY) <= INR (List.length l) * D)%R.
Proof.
  intros Hnx Hny.
  revert uA lA sY mU mL. induction l as [| [x y] l IH]; intros uA lA sY mU mL Hin.
  - eexists _, _, _, _, _. split; [reflexivity |].
    simpl. replace (sY - sY)%R with 0%R by lra. rewrite Rabs_R0. lra.
  - change (fin_points ((x, y) :: l)) with ((Fin x, Fin y) :: fin_points l).
    change (List.length ((x, y) :: l)) with (S (List.length l)). rewrite S_INR.
    cbn [fold_left]. unfold sideStep at 2.
    cbn [fin_point p0 p1 fst snd nsub nadd nneg nmul Math_abs ngt nlt].
    set (d := ((x + - fst pLE) * nx + (y + - snd pLE) * ny)%R).
    assert (Hd : (Rabs d <= D)%R).
    { pose proof (Hin (x, y) (or_introl eq_refl)) as Hxy. cbn [fst snd] in Hxy.
      unfold d.
      apply Rle_trans with (Rabs ((x + - fst pLE) * nx) + Rabs ((y + - snd pLE) * ny))%R;
        [apply Rabs_triang |].
      rewrite !Rabs_mult.
      pose proof (Rabs_pos (x + - fst pLE)). pose proof (Rabs_pos (y + - snd pLE)).
      pose proof (Rabs_pos nx). pose proof (Rabs_pos ny).
      unfold Rminus in Hxy. nra. }
    assert (Htail : forall p, In p l ->
              (Rabs (fst p - fst pLE) + Rabs (snd p - snd pLE) <= D)%R)
      by (intros p Hp; apply Hin; right; exact Hp).
    assert (Hstep : forall a b c e f : R,
              (exists uA' lA' sY' mU' mL' : R,
                  fold_left (sideStep (Fin (fst pLE), Fin (snd pLE)) (Fin nx) (Fin ny))
                            (fin_points l) (Fin a, Fin b, Fin (sY + d), Fin c, Fin e)
                  = (Fin uA', Fin lA', Fin sY', Fin mU', Fin mL')
                  /\ (Rabs (sY' - sY) <= (INR (List.length l) + 1) * D)%R)).
    { intros a b c e _.
      destruct (IH a b (sY + d)%R c e Htail) as (uA' & lA' & sY' & mU' & mL' & Hf & Hb).
      exists uA', lA', sY', mU', mL'. split; [exact Hf |].
      replace (sY' - sY)%R with ((sY' - (sY + d)) + d)%R by lra.
      apply Rle_trans with (Rabs (sY' - (sY + d)) + Rabs d)%R; [apply Rabs_triang |].
      lra. }
    destruct (Rltb 0 d).
    + destruct (Rltb mU d); apply (Hstep _ _ _ _ 0%R).
    + destruct (Rltb mL (Rabs d)); apply (Hstep _ _ _ _ 0%R).
Qed.

Lemma unit_component (v s : R) :
  (0 < s)%R -> (Rabs v <= s)%R -> (Rabs (v / s) <= 1)%R.
Proof.
  intros Hs Hv. unfold Rdiv. rewrite Rabs_mult, (Rabs_pos_eq (/ s)).
  - apply Rmult_le_reg_r with s; [exact Hs |].
    rewrite Rmult_assoc, Rinv_l by lra. lra.
  - apply Rlt_le, Rinv_0_lt_compat, Hs.
Qed.

(** The analysis of a polygon whose coordinates are at most [M] in
    magnitude and whose chord is not zero: the record, and how large its
    numbers can be, relative to the chord [w]. *)
Lemma analyzeGeometry_bounded (M : R) (rpts : list rpoint) :
  (forall p, In p rpts -> (Rabs (fst p) <= M)%R /\ (Rabs (snd p) <= M)%R) ->
  (exists p q, In p rpts /\ In q rpts /\ fst p <> fst q) ->
  exists (g : Geometry) (c t te l w h : R),
    analyzeGeometry (fin_points rpts) (getBoundingBox (fin_points rpts)) = Returns g
    /\ maxCamber g = None
    /\ camber g = Some (Fin c)
    /\ thickness g = Fin t
    /\ teAngle g = Fin te
    /\ leRadius g = Fin l
    /\ width (getBoundingBox (fin_points rpts)) = Fin w
    /\ height (getBoundingBox (fin_points rpts)) = Fin h
    /\ (0 < w <= 2 * M)%R /\ (0 <= h <= 2 * M)%R
    /\ (forall p q, In p rpts -> In q rpts -> (fst q - fst p <= w)%R)
    /\ (t = h / w)%R /\ (0 <= t)%R
    /\ (0 <= te <= 180)%R
    /\ (0 <= l)%R /\ (l * w <= 2 * M)%R
    /\ (Rabs c * w <= 4 * M)%R.
Proof.
  intros Hmod (p & q & Hp & Hq & Hpq).
  assert (Hbox : forall x, In x rpts -> (- M <= fst x <= M /\ - M <= snd x <= M)%R).
  { intros x Hx. destruct (Hmod x Hx) as [H1 H2].
    split; apply Rabs_le_between; assumption. }
  assert (Hne : rpts <> []) by (intros ->; destruct Hp).
  destruct (getBoundingBox_spec rpts Hne)
    as (mnX & mxX & mnY & mxY & Hb & Hin & (pmin & Hpmin & Hmin) & (pmax & Hpmax & Hmax)
        & (qmin & Hqmin & Hymin) & (qmax & Hqmax & Hymax)).
  assert (Hchord : (0 < mxX - mnX)%R).
  { pose proof (Hin p Hp). pose proof (Hin q Hq).
    destruct (Rtotal_order (fst p) (fst q)) as [H' | [H' | H']]; lra. }
  assert (Hheight : (0 <= mxY - mnY)%R).
  { pose proof (Hin p Hp). lra. }
  assert (Hwide : (mxX - mnX <= 2 * M)%R).
  { pose proof (Hbox _ Hpmin). pose proof (Hbox _ Hpmax). lra. }
  assert (Hhigh : (mxY - mnY <= 2 * M)%R).
  { pose proof (Hbox _ Hqmin). pose proof (Hbox _ Hqmax). lra. }
  rewrite Hb. unfold analyzeGeometry. cbn [minX maxX height width].
  change (nsub (Fin mxX) (Fin mnX)) with (Fin (mxX - mnX)).
  cbn [neqb]. rewrite Reqb_false by lra.
  unfold fin_points at 1 2. rewrite combine_seq_map.
  destruct (edge_loop_spec mnX mxX (combine (List.seq 0 (List.length rpts)) rpts))
    as (iLE & iTE & pL & pT & Hfold & HL & HT & Hnear).
  { destruct rpts; [congruence | discriminate]. }
  rewrite Hfold.
  assert (HpL : In pL rpts) by (exact (in_combine_r _ _ _ _ HL)).
  assert (HpT : In pT rpts) by (exact (in_combine_r _ _ _ _ HT)).
  destruct (in_combine_seq _ _ _ _ HL) as [_ HLn]. rewrite Nat.sub_0_r in HLn.
  destruct (in_combine_seq _ _ _ _ HT) as [_ HTn]. rewrite Nat.sub_0_r in HTn.
  rewrite (map_nth_error fin_point iLE rpts HLn : nth_error (fin_points rpts) iLE = _).
  rewrite (map_nth_error fin_point iTE rpts HTn : nth_error (fin_points rpts) iTE = _).
  destruct (in_combine_seq_of rpts 0 pmin Hpmin) as [jmin Hjmin].
  destruct (in_combine_seq_of rpts 0 pmax Hpmax) as [jmax Hjmax].
  destruct pL as [xL yL], pT as [xT yT]. cbn [fst] in Hnear.
  assert (HxL : xL = mnX).
  { destruct (Hnear _ Hjmin) as [H _]. cbn [fst snd] in H. rewrite Hmin in H.
    replace (mnX - mnX)%R with 0%R in H by lra. rewrite Rabs_R0 in H.
    apply Rabs_le_0 in H. lra. }
  assert (HxT : xT = mxX).
  { destruct (Hnear _ Hjmax) as [_ H]. cbn [fst snd] in H. rewrite Hmax in H.
    replace (mxX - mxX)%R with 0%R in H by lra. rewrite Rabs_R0 in H.
    apply Rabs_le_0 in H. lra. }
  subst xL xT. clear Hnear Hfold.
  assert (Hnth : forall k, (- M <= fst (nth k rpts (mnX, yL)) <= M
                            /\ - M <= snd (nth k rpts (mnX, yL)) <= M)%R).
  { intros k. destruct (nth_in_or_default k rpts (mnX, yL)) as [Hk | ->].
    - exact (Hbox _ Hk).
    - exact (Hbox _ HpL). }
  rewrite length_fin_points, !nth_fin_points.
  cbn [fin_point p0 p1 fst snd]. rewrite !nsub_fin.
  lazymatch goal with
  | |- context [Math_sqrt (Math_pow2 (Fin ?u) + Math_pow2 (Fin ?v)) / (Fin 2 * Fin ?c)] =>
      destruct (le_radius_fin u v c Hchord) as (l & -> & Hl & Hlw);
      assert (Huv : (Rabs u + Rabs v <= 4 * M)%R)
  end.
  { pose proof (Hnth ((iLE + List.length rpts - 1) mod List.length rpts)%nat).
    pose proof (Hnth ((iLE + 1) mod List.length rpts)%nat).
    apply Rle_trans with (2 * M + 2 * M)%R; [| lra].
    apply Rplus_le_compat; apply Rabs_le; lra. }
  lazymatch goal with
  | |- context [Math_atan2 (Fin ?a) (Fin ?b) - Math_atan2 (Fin ?c) (Fin ?d)] =>
      destruct (te_angle_range a b c d) as (te & -> & Hte)
  end.
  rewrite !nmul_fin, nadd_fin.
  set (S2 := ((mxX - mnX) * (mxX - mnX) + (yT - yL) * (yT - yL))%R).
  assert (HS2 : (0 < S2)%R).
  { assert (0 < (mxX - mnX) * (mxX - mnX))%R by (apply Rmult_lt_0_compat; lra).
    pose proof (Rle_0_sqr (yT - yL)) as Hsq. unfold Rsqr in Hsq.
    unfold S2. lra. }
  unfold Math_sqrt. rewrite Rltb_false by lra.
  assert (Hlen : (0 < sqrt S2)%R) by (apply sqrt_lt_R0; exact HS2).
  rewrite !ndiv_fin by lra. cbn [nneg].
  destruct (sqrt_sum_squares_bounds (mxX - mnX) (yT - yL)) as (Hux & Huy & _).
  fold S2 in Hux, Huy.
  destruct (side_loop_bound (mnX, yL) (- ((yT - yL) / sqrt S2)) ((mxX - mnX) / sqrt S2)
                            (4 * M) rpts 0 0 0 0 0)
    as (uA & lA & sY & mU & mL & Hside & HsY).
  { rewrite Rabs_Ropp. apply unit_component; assumption. }
  { apply unit_component; assumption. }
  { intros x Hx. cbn [fst snd]. pose proof (Hbox _ Hx). pose proof (Hbox _ HpL) as HbL.
    cbn [fst snd] in HbL.
    apply Rle_trans with (2 * M + 2 * M)%R; [| lra].
    apply Rplus_le_compat; apply Rabs_le; lra. }
  cbn [fin_point fst snd] in Hside. rewrite Hside.
  assert (Hn : (0 < INR (List.length rpts))%R).
  { apply lt_0_INR. destruct rpts; [congruence | simpl; lia]. }
  rewrite !ndiv_fin by lra. cbn [nneg]. rewrite !ndiv_fin by lra.
  eexists _, _, _, te, l, _, _.
  split; [reflexivity |]. cbn [maxCamber camber thickness teAngle leRadius].
  split; [reflexivity |]. split; [reflexivity |]. split; [reflexivity |].
  split; [reflexivity |]. split; [reflexivity |]. split; [reflexivity |].
  split; [reflexivity |].
  split; [lra |]. split; [lra |].
  split. { intros x y Hx Hy. pose proof (Hin _ Hx). pose proof (Hin _ Hy). lra. }
  split; [unfold Rminus; reflexivity |].
  split. { apply Rmult_le_pos; [lra |]. apply Rlt_le, Rinv_0_lt_compat. lra. }
  split; [exact Hte |]. split; [exact Hl |].
  split. { replace (mxX + - mnX)%R with (mxX - mnX)%R by lra. lra. }
  replace (sY - 0)%R with sY in HsY by lra.
  replace (mxX + - mnX)%R with (mxX - mnX)%R by lra.
  rewrite <- (Rabs_pos_eq (mxX - mnX)) at 2 by lra.
  rewrite <- Rabs_mult.
  replace (- (sY / INR (List.length rpts)) / (mxX - mnX) * (mxX - mnX))%R
    with (- (sY / INR (List.length rpts)))%R by (field; lra).
  rewrite Rabs_Ropp. unfold Rdiv. rewrite Rabs_mult, (Rabs_pos_eq (/ _)).
  - apply Rmult_le_reg_r with (INR (List.length rpts)); [exact Hn |].
    rewrite Rmult_assoc, Rinv_l by lra. lra.
  - apply Rlt_le, Rinv_0_lt_compat, Hn.
Qed.

(** X13.  For a polygon whose coordinates are at most 1000000 in
    magnitude and two of whose points lie at least 1 apart in x,
    [analyzeGeometry] on the polygon's own bounding box returns a record
    without [maxCamber] whose camber, thickness, trailing-edge angle and
    leading-edge radius are finite numbers: the box is between 1 and
    2000000 wide and at most 2000000 high, the thickness is the box
    height over the box width and lies in [0, 2000000], the
    trailing-edge angle lies in [0, 180], the leading-edge radius lies
    in [0, 2000000] and the camber is at most 4000000 in magnitude. *)
Theorem geometry_of_finite_polygon (rpts : list rpoint) :
  moderate_polygon rpts ->
  (exists p q, In p rpts /\ In q rpts /\ (1 <= fst q - fst p)%R) ->
  exists (g : Geometry) (c t te l w h : R),
    analyzeGeometry (fin_points rpts) (getBoundingBox (fin_points rpts)) = Returns g
    /\ maxCamber g = None
    /\ camber g = Some (Fin c)
    /\ thickness g = Fin t
    /\ teAngle g = Fin te
    /\ leRadius g = Fin l
    /\ width (getBoundingBox (fin_points rpts)) = Fin w
    /\ height (getBoundingBox (fin_points rpts)) = Fin h
    /\ (1 <= w <= 2000000)%R /\ (0 <= h <= 2000000)%R
    /\ (t = h / w)%R /\ (0 <= t <= 2000000)%R
    /\ (0 <= te <= 180)%R
    /\ (0 <= l <= 2000000)%R
    /\ (Rabs c <= 4000000)%R.
Proof.
  intros Hmod (p & q & Hp & Hq & Hpq).
  destruct (analyzeGeometry_bounded 1000000 rpts Hmod)
    as (g & c & t & te & l & w & h & Hg & Hmc & Hc & Ht & Hte & Hl & Hw & Hh
        & Hwr & Hhr & Hspan & Hteq & Htpos & Hter & Hlpos & Hlw & Hcw).
  { exists p, q. repeat split; try assumption. lra. }
  pose proof (Hspan p q Hp Hq) as Hw1.
  pose proof (Rabs_pos c) as Hcpos.
  exists g, c, t, te, l, w, h.
  repeat split; try assumption; try lra; try nra.
  rewrite Hteq. apply Rmult_le_reg_r with w; [lra |].
  unfold Rdiv. rewrite Rmult_assoc, Rinv_l by lra. nra.
Qed.

Lemma geometry_of_finite_polygon_witness :
  exists (g : Geometry) (te : R),
    analyzeGeometry (fin_points blunt_wedge) (getBoundingBox (fin_points blunt_wedge))
    = Returns g
    /\ teAngle g = Fin te /\ (0 <= te <= 180)%R.
Proof.
  destruct (geometry_of_finite_polygon blunt_wedge) as
    (g & c & t & te & l & w & h & Hg & _ & _ & _ & Hte & _ & _ & _ & _ & _ & _ & _ & Hr & _).
  - apply wedge_moderate.
  - exists (0, 0)%R, (400, 0)%R. simpl. repeat split; auto; lra.
  - exists g, te. repeat split; try assumption; apply Hr.
Defined.

(** *** Finite inputs give finite results *)

(** The Reynolds number correction factor is a number between 0.1 and 1. *)
Lemma reynolds_factor_fin (re : R) :
  exists m : R,
    Math_min 1.0 (Math_max 0.1 (0.4 + 0.6 * (Math_log10 (Math_max 1 (Fin re)) / 5.0)))
    = Fin m
    /\ (0.1 <= m <= 1)%R.
Proof.
  assert (Hmax : exists x : R, Math_max 1 (Fin re) = Fin x /\ (1 <= x)%R).
  { unfold Math_max, nlt. destruct (Rltb_spec 1 re); eexists; split;
      try reflexivity; lra. }
  destruct Hmax as (x & -> & Hx).
  unfold Math_log10. rewrite Rltb_false, Reqb_false by lra.
  rewrite ndiv_fin by lra. cbn [nmul nadd].
  set (f := (0.4 + 0.6 * (ln x / ln 10 / 5.0))%R).
  unfold Math_max, Math_min, nlt.
  destruct (Rltb_spec 0.1 f).
  - destruct (Rltb_spec f 1.0); eexists; split; try reflexivity; lra.
  - destruct (Rltb_spec 0.1 1.0); eexists; split; try reflexivity; lra.
Qed.

Ltac fin_norm :=
  repeat first
    [ rewrite nmul_fin | rewrite nadd_fin | rewrite nsub_fin
    | rewrite ndiv_fin by lra
    | progress cbn [Math_sin Math_cos Math_abs nneg ngt nlt] ].

Ltac split_ifs :=
  repeat match goal with
  | |- context [if ?b then _ else _] =>
      lazymatch b with
      | context [if _ then _ else _] => fail
      | _ => destruct b
      end; fin_norm
  end.

Lemma toFixed_fin (x : R) (digits : nat) : is_finite (toFixed (Fin x) digits).
Proof. unfold toFixed. destruct (Rltb (Rabs x) 1e21); eexists; reflexivity. Qed.

Lemma strouhal_fin (shapeType : string) (re : num) :
  exists s : R, calculateStrouhal shapeType re = Fin s.
Proof.
  unfold calculateStrouhal.
  destruct (String.eqb shapeType "circular"); [destruct (re <? 100); eexists; reflexivity |].
  destruct (String.eqb shapeType "rectangular"); [eexists; reflexivity |].
  destruct (String.eqb shapeType "streamlined"); eexists; reflexivity.
Qed.

(** The magnitude of a rounded number exceeds that of the number by at
    most a half. *)
Lemma toFixed_magnitude (x B : R) (digits : nat) :
  (Rabs x + / 2 <= B)%R -> magnitude_at_most B (toFixed (Fin x) digits).
Proof.
  intros HB. unfold toFixed, magnitude_at_most.
  assert (Hpow1 : (1 <= 10 ^ digits)%R) by (apply pow_R1_Rle; lra).
  destruct (Rltb (Rabs x) 1e21).
  - eexists. split; [reflexivity |].
    unfold round_half_away.
    destruct (Rltb_spec (x * 10 ^ digits) 0) as [Hneg | Hpos].
    + destruct (base_Int_part (- (x * 10 ^ digits) + / 2)) as [Hlo Hhi].
      set (z := Int_part (- (x * 10 ^ digits) + / 2)) in *.
      assert (Hz : (0 <= z)%Z).
      { apply le_IZR. apply Rnot_lt_le. intros Hlt.
        assert (IZR z <= -1)%R by (apply IZR_le; apply lt_IZR in Hlt; lia). lra. }
      apply IZR_le in Hz. rewrite opp_IZR.
      assert (Hx : (x < 0)%R) by nra.
      rewrite (Rabs_left x Hx) in HB.
      apply Rabs_le. split.
      * apply Rmult_le_reg_r with (10 ^ digits)%R; [lra |].
        unfold Rdiv. rewrite Rmult_assoc, Rinv_l by lra. nra.
      * apply Rmult_le_reg_r with (10 ^ digits)%R; [lra |].
        unfold Rdiv. rewrite Rmult_assoc, Rinv_l by lra.
        pose proof (Rabs_pos x). nra.
    + destruct (base_Int_part (x * 10 ^ digits + / 2)) as [Hlo Hhi].
      set (z := Int_part (x * 10 ^ digits + / 2)) in *.
      assert (Hz : (0 <= z)%Z).
      { apply le_IZR. apply Rnot_lt_le. intros Hlt.
        assert (IZR z <= -1)%R by (apply IZR_le; apply lt_IZR in Hlt; lia). lra. }
      apply IZR_le in Hz.
      assert (Hx : (0 <= x)%R) by nra.
      rewrite (Rabs_pos_eq x Hx) in HB.
      apply Rabs_le. split.
      * apply Rmult_le_reg_r with (10 ^ digits)%R; [lra |].
        unfold Rdiv. rewrite Rmult_assoc, Rinv_l by lra. nra.
      * apply Rmult_le_reg_r with (10 ^ digits)%R; [lra |].
        unfold Rdiv. rewrite Rmult_assoc, Rinv_l by lra. nra.
  - exists x. split; [reflexivity | lra].
Qed.

Lemma Rabs_bound_mult (x y bx by' : R) :
  (Rabs x <= bx)%R -> (Rabs y <= by')%R -> (Rabs (x * y) <= bx * by')%R.
Proof.
  intros Hx Hy. rewrite Rabs_mult.
  apply Rmult_le_compat; try assumption; apply Rabs_pos.
Qed.

Lemma Rabs_bound_plus (x y bx by' : R) :
  (Rabs x <= bx)%R -> (Rabs y <= by')%R -> (Rabs (x + y) <= bx + by')%R.
Proof.
  intros Hx Hy. apply Rle_trans with (Rabs x + Rabs y)%R; [apply Rabs_triang | lra].
Qed.

Lemma Rabs_bound_minus (x y bx by' : R) :
  (Rabs x <= bx)%R -> (Rabs y <= by')%R -> (Rabs (x - y) <= bx + by')%R.
Proof.
  intros Hx Hy. unfold Rminus. apply Rabs_bound_plus; [exact Hx |].
  rewrite Rabs_Ropp. exact Hy.
Qed.

Lemma Rabs_bound_sin (x : R) : (Rabs (sin x) <= 1)%R.
Proof. apply Rabs_le. apply SIN_bound. Qed.

Lemma Rabs_bound_cos (x : R) : (Rabs (cos x) <= 1)%R.
Proof. apply Rabs_le. apply COS_bound. Qed.

Lemma Rabs_bound_const (x : R) : (0 <= x)%R -> (Rabs x <= x)%R.
Proof. intros H. rewrite Rabs_pos_eq by exact H. apply Rle_refl. Qed.

(** A bound on the magnitude of a sum of products, from the bounds of
    its factors. *)
Ltac rabs_bound :=
  lazymatch goal with
  | |- (Rabs (sin _) <= _)%R => apply Rabs_bound_sin
  | |- (Rabs (cos _) <= _)%R => apply Rabs_bound_cos
  | |- (Rabs (_ * _) <= _)%R => eapply Rabs_bound_mult; rabs_bound
  | |- (Rabs (_ + _) <= _)%R => eapply Rabs_bound_plus; rabs_bound
  | |- (Rabs (_ - _) <= _)%R => eapply Rabs_bound_minus; rabs_bound
  | |- (Rabs _ <= _)%R => first [eassumption | apply Rabs_bound_const; lra]
  end.

(** The lift coefficient for a geometry whose camber is at most 4000000
    in magnitude. *)
Lemma lift_model_bounded
    (shapeType : string) (re ar a sol : R) (g : Geometry) (c t te : R) :
  (0 <= ar)%R -> (0 <= t)%R -> (-180 <= a <= 180)%R -> (Rabs c <= 4000000)%R ->
  (0 <= te <= 180)%R ->
  camber g = Some (Fin c) -> thickness g = Fin t -> teAngle g = Fin te ->
  exists cl : R,
    calculateLiftCoefficient shapeType (Fin re) (Fin ar) (Fin a) (Fin sol) (Some g) = Fin cl
    /\ (Rabs cl <= 50000000)%R.
Proof.
  intros Har Ht Ha Hcb Hter Hc Hth Hte.
  destruct (reynolds_factor_fin re) as (m & Hm & Hmr).
  pose proof PI_RGT_0 as Hpi.
  unfold calculateLiftCoefficient. rewrite Hc, Hth, Hte, Hm.
  cbn [ToNumber]. unfold Math_PI, Math_max.
  assert (Hq : (Rabs (ar / (ar + 2)) <= 1)%R).
  { apply unit_component; [lra |]. rewrite Rabs_pos_eq; lra. }
  assert (Hk : (Rabs (1.0 - (te - 20) / 100) <= 1.2)%R) by (apply Rabs_le; lra).
  assert (He0 : (Rabs (a - 0) <= 180)%R) by (apply Rabs_le; lra).
  assert (Hec : (Rabs (a - -100 * c) <= 400000180)%R).
  { apply Rabs_le_between in Hcb. apply Rabs_le. lra. }
  assert (Hm1 : (Rabs m <= 1)%R) by (apply Rabs_le; lra).
  assert (Hhalf : (Rabs (/ 2) <= / 2)%R) by (apply Rabs_bound_const; lra).
  fin_norm. split_ifs; (eexists; split; [reflexivity |]).
  all: try (rewrite Rabs_R0; lra).
  all: generalize dependent (ar / (ar + 2))%R; intros q Hq.
  all: generalize dependent (1.0 - (te - 20) / 100)%R; intros k Hk.
  all: generalize dependent (a - 0)%R; intros e0 He0.
  all: generalize dependent (a - -100 * c)%R; intros ec Hec.
  all: unfold Rdiv.
  all: (eapply Rle_trans; [rabs_bound | lra]).
Qed.

(** X14.  For a polygon whose coordinates are at most 1000000 in
    magnitude and two of whose points lie at least 1 apart in x, an angle
    in [-180, 180] at which the box of the rotated polygon is at least 1
    wide and 1 high, a wind speed of at most 1000000 km/h in magnitude
    and an air density between 0 and 1000, the solve operation returns a
    result, and every number of the result, the entries of [debug]
    included, is finite: neither NaN nor an infinity.  In magnitude the
    drag coefficient is at most 3, the lift coefficient at most 50000001,
    the drag force at most 1e19, the lift force at most 2e26, both areas
    at most 100001 and the aspect ratio at most 10000001. *)
Theorem solve_result_finite (rpts : list rpoint) (ws a rho w h : R) :
  moderate_polygon rpts ->
  (exists p q, In p rpts /\ In q rpts /\ (1 <= fst q - fst p)%R) ->
  (-180 <= a <= 180)%R ->
  width (getBoundingBox (rotatePoints (fin_points rpts) (Fin a))) = Fin w ->
  height (getBoundingBox (rotatePoints (fin_points rpts) (Fin a))) = Fin h ->
  (1 <= w)%R -> (1 <= h)%R ->
  (Rabs ws <= 1000000)%R ->
  (0 <= rho <= 1000)%R ->
  exists r : Result,
    calculateDrag (fin_points rpts)
      {| windSpeed := Some (Fin ws); angle := Some (Fin a); airDensity := Some (Fin rho) |}
    = Returns r
    /\ finite_result r
    /\ magnitude_at_most 3 (cd r)
    /\ magnitude_at_most 50000001 (cl r)
    /\ magnitude_at_most 1e19 (dragForce r)
    /\ magnitude_at_most 2e26 (liftForce r)
    /\ magnitude_at_most 100001 (area r)
    /\ magnitude_at_most 100001 (referenceArea r)
    /\ magnitude_at_most 10000001 (debug_aspectRatio (debug r)).
Proof.
  intros Hmod (p & q & Hp & Hq & Hpq) Ha Hwidth Hheight Hw1 Hh1 Hws Hrho.
  apply Rabs_le_between in Hws.
  assert (Hne : rpts <> []) by (intros ->; destruct Hp).
  assert (Hnorm : normalizeAngle (or_default (Some (Fin a)) 0) = Returns (Fin a)).
  { rewrite or_default_fin_angle. apply normalizeAngle_in_range. exact Ha. }
  destruct (analyzeGeometry_bounded 1000000 rpts Hmod)
    as (g & c & t & te & l & w0 & h0 & Hg & _ & Hc & Hth & Hte & _ & _ & _
        & Hw0 & _ & Hspan & _ & Ht & Hter & _ & _ & Hcw).
  { exists p, q. repeat split; try assumption. lra. }
  assert (Hcb : (Rabs c <= 4000000)%R).
  { pose proof (Hspan p q Hp Hq). pose proof (Rabs_pos c). nra. }
  destruct (rotated_box_bounded 1000000 rpts a Hne Hmod)
    as (w' & h' & mnX & mxX & mnY & mxY & Hb & Hw' & Hh').
  rewrite Hb in Hwidth, Hheight. cbn [width height] in Hwidth, Hheight.
  injection Hwidth as ->. injection Hheight as ->.
  assert (Hret : exists r : Result,
             calculateDrag (fin_points rpts)
               {| windSpeed := Some (Fin ws); angle := Some (Fin a);
                  airDensity := Some (Fin rho) |} = Returns r).
  { unfold calculateDrag. cbn [windSpeed angle airDensity ToNumber].
    rewrite Hnorm. cbn [bind]. rewrite Hg. cbn [bind]. rewrite Hc.
    cbn [toFixed_prop bind]. eexists. reflexivity. }
  destruct Hret as [r H]. exists r. split; [exact H |].
  unfold calculateDrag in H. cbn [windSpeed angle airDensity ToNumber] in H.
  rewrite Hnorm in H. cbn [bind] in H.
  rewrite Hg in H. cbn [bind] in H. rewrite Hc in H. cbn [toFixed_prop bind ToNumber] in H.
  apply Returns_inj in H. subst r.
  unfold finite_result, finite_debug.
  cbn [cd cl dragForce liftForce area referenceArea reynolds vortexFrequency strouhal
       pressureDrag frictionDrag debug debug_velocityMs debug_widthM debug_heightM
       debug_characteristicLength debug_aspectRatio debug_solidity debug_camber
       debug_thickness debug_alphaL0 parseFloat_toFixed].
  rewrite Hb. cbn [width height].
  rewrite calculatePolygonArea_fin.
  destruct (or_default_density_nonneg rho Hrho) as (rho' & Hrho' & Hrhor). rewrite Hrho'.
  set (parea := (Rabs (shoelace rpts) / 2)%R).
  assert (Harea : (0 <= parea)%R)
    by (unfold parea; pose proof (Rabs_pos (shoelace rpts)); lra).
  assert (Har : exists ar : R,
             (if Fin h >? 0 then Fin w / Fin h else Fin 1.0) = Fin ar
             /\ (0 <= ar <= 10000000)%R).
  { unfold ngt. simpl. rewrite Rltb_true by lra.
    rewrite Reqb_false by lra. eexists. split; [reflexivity |].
    assert (Hinv : (0 < / h <= 1)%R).
    { split; [apply Rinv_0_lt_compat; lra |].
      rewrite <- Rinv_1. apply Rinv_le_contravar; lra. }
    split; [apply Rmult_le_pos; lra |].
    apply Rle_trans with (10000000 * 1)%R; [| lra].
    apply Rmult_le_compat; lra. }
  destruct Har as (ar & Har & Harpos & Harup). rewrite Har.
  assert (Hsol : exists sol : R,
             (if Fin w * Fin h >? 0 then Fin parea / (Fin w * Fin h) else Fin 1.0) = Fin sol).
  { unfold ngt. simpl. destruct (Rltb_spec 0 (w * h)).
    - rewrite Reqb_false by lra. eexists. reflexivity.
    - eexists. reflexivity. }
  destruct Hsol as (sol & Hsol). rewrite Hsol.
  set (shape := classifyShape _ _ _).
  assert (Hlen : exists len : R,
             (if String.eqb shape "circular" then Fin w / PIXELS_PER_METER
              else if String.eqb shape "streamlined" then Fin w / PIXELS_PER_METER
              else Math_sqrt (Fin parea / (PIXELS_PER_METER * PIXELS_PER_METER))) = Fin len).
  { unfold PIXELS_PER_METER. simpl nmul. rewrite !ndiv_fin by lra.
    simpl Math_sqrt. rewrite Rltb_false by lra.
    destruct (String.eqb shape "circular"), (String.eqb shape "streamlined");
      eexists; reflexivity. }
  destruct Hlen as (len & Hlen). rewrite Hlen.
  assert (Hre : exists re : R,
             calculateReynolds (Fin ws / 3.6) (Fin len) (Fin rho') AIR_DYNAMIC_VISCOSITY
             = Fin re).
  { unfold calculateReynolds, AIR_DYNAMIC_VISCOSITY. rewrite ndiv_fin by lra.
    simpl nmul. rewrite ndiv_fin by lra. eexists. reflexivity. }
  destruct Hre as (re & Hre). rewrite Hre.
  destruct (drag_model_clamped shape re ar sol a None Harpos) as (cdv & Hcd & Hcdr).
  rewrite Hcd.
  destruct (lift_model_bounded shape re ar a sol g c t te Harpos Ht Ha Hcb Hter Hc Hth Hte)
    as (clv & Hcl & Hclr).
  rewrite Hcl.
  destruct (strouhal_fin shape (Fin re)) as (st & Hst). rewrite Hst.
  rewrite Hth.
  assert (Hra : exists ra : R,
             Math_max (Fin h / PIXELS_PER_METER) (Fin w / PIXELS_PER_METER) = Fin ra
             /\ (Rabs ra <= 100000)%R).
  { unfold PIXELS_PER_METER, Math_max. rewrite !ndiv_fin by lra. cbn [nlt].
    destruct (Rltb (h / 100) (w / 100)); eexists; (split; [reflexivity |]);
      apply Rabs_le; lra. }
  destruct Hra as (ra & Hra & Hrar). rewrite Hra.
  unfold PIXELS_PER_METER. fin_norm.
  unfold parseFloat_toFixed.
  split.
  - destruct (Rltb_spec 0 len); [rewrite ndiv_fin by lra |];
      split_ifs; repeat split; apply toFixed_fin.
  - assert (Hrho1 : (Rabs rho' <= 1000)%R) by (apply Rabs_le; lra).
    assert (Hv : (Rabs (ws / 3.6) <= 277778)%R) by (apply Rabs_le; lra).
    assert (Hh100 : (Rabs (h / 100) <= 100000)%R) by (apply Rabs_le; lra).
    assert (Hcd1 : (Rabs cdv <= 2.5)%R) by (apply Rabs_le; lra).
    assert (Har1 : (Rabs ar <= 10000000)%R) by (apply Rabs_le; lra).
    repeat split; apply toFixed_magnitude;
      (eapply Rle_trans; [apply Rplus_le_compat_r; rabs_bound | lra]).
Qed.

Lemma solve_result_finite_witness :
  exists r : Result,
    calculateDrag (fin_points blunt_wedge) (standard_params 0) = Returns r
    /\ finite_result r
    /\ magnitude_at_most 1e19 (dragForce r).
Proof.
  destruct (solve_result_finite blunt_wedge 50 0 1.225 400 100 wedge_moderate)
    as (r & Hr & Hfin & _ & _ & Hd & _).
  - exists (0, 0)%R, (400, 0)%R. simpl. repeat split; auto; lra.
  - lra.
  - rewrite rotatePoints_zero, wedge_bounds. reflexivity.
  - rewrite rotatePoints_zero, wedge_bounds. reflexivity.
  - lra.
  - lra.
  - apply Rabs_le; lra.
  - lra.
  - exists r. split; [exact Hr | split; [exact Hfin | exact Hd]].
Defined.

(** *** A polygon whose points lie on one horizontal line *)





(** *** Moving the polygon *)

Lemma sum_list_translate (t : rpoint) (pts : list rpoint) :
  sum_list (map fst (map (translate t) pts))
  = (sum_list (map fst pts) + INR (List.length pts) * fst t)%R
  /\ sum_list (map snd (map (translate t) pts))
     = (sum_list (map snd pts) + INR (List.length pts) * snd t)%R.
Proof.
  induction pts as [| p pts [IHx IHy]].
  - simpl. split; lra.
  - change (List.length (p :: pts)) with (S (List.length pts)). rewrite S_INR.
    cbn [map sum_list fold_right].
    fold (sum_list (map fst (map (translate t) pts))).
    fold (sum_list (map snd (map (translate t) pts))).
    fold (sum_list (map fst pts)). fold (sum_list (map snd pts)).
    rewrite IHx, IHy. unfold translate. cbn [fst snd]. split; lra.
Qed.

Lemma mean_point_translate (t : rpoint) (pts : list rpoint) :
  pts <> [] -> mean_point (map (translate t) pts) = translate t (mean_point pts).
Proof.
  intros Hne.
  assert (Hn : INR (List.length pts) <> 0%R).
  { apply not_0_INR. destruct pts; [congruence | discriminate]. }
  destruct (sum_list_translate t pts) as [Hx Hy].
  unfold mean_point. rewrite length_map, Hx, Hy.
  unfold translate. cbn [fst snd]. f_equal; field; exact Hn.
Qed.

(** Rotating a moved polygon gives the rotated polygon, moved. *)
Lemma rotatePoints_translate (t : rpoint) (pts : list rpoint) (ang : R) :
  rotatePoints (fin_points (map (translate t) pts)) (Fin ang)
  = fin_points (map (translate t)
                    (map (rotate_about (mean_point pts)
                                       (cos (ang * PI / 180)) (sin (ang * PI / 180))) pts)).
Proof.
  destruct pts as [| p pts]; [reflexivity |].
  rewrite rotatePoints_about_mean, mean_point_translate by discriminate.
  f_equal. rewrite !map_map. apply map_ext. intros [x y].
  destruct (mean_point (p :: pts)) as [cx cy], t as [tx ty].
  unfold rotate_about, translate. cbn [fst snd]. f_equal; lra.
Qed.

(** The box of a moved polygon is the box, moved. *)
Lemma getBoundingBox_translate (t : rpoint) (pts : list rpoint) :
  pts <> [] ->
  exists mnX mxX mnY mxY : R,
    getBoundingBox (fin_points pts)
    = {| width := Fin (mxX + - mnX); height := Fin (mxY + - mnY);
         minX := Fin mnX; maxX := Fin mxX; minY := Fin mnY; maxY := Fin mxY |}
    /\ getBoundingBox (fin_points (map (translate t) pts))
       = {| width := Fin (mxX + - mnX); height := Fin (mxY + - mnY);
            minX := Fin (mnX + fst t); maxX := Fin (mxX + fst t);
            minY := Fin (mnY + snd t); maxY := Fin (mxY + snd t) |}.
Proof.
  intros Hne.
  destruct (getBoundingBox_spec pts Hne)
    as (a & b & c & d & Hb & Hin & (pa & Hpa & Ha) & (pb & Hpb & Hb')
        & (pc & Hpc & Hc) & (pd & Hpd & Hd)).
  destruct (getBoundingBox_spec (map (translate t) pts))
    as (a' & b' & c' & d' & Hbt & Hint & (qa & Hqa & Ha') & (qb & Hqb & Hb'')
        & (qc & Hqc & Hc') & (qd & Hqd & Hd')).
  { destruct pts; [congruence | discriminate]. }
  exists a, b, c, d. split; [exact Hb |]. rewrite Hbt.
  apply in_map_iff in Hqa, Hqb, Hqc, Hqd.
  destruct Hqa as (ra & <- & Hra), Hqb as (rb & <- & Hrb),
           Hqc as (rc & <- & Hrc), Hqd as (rd & <- & Hrd).
  pose proof (Hint _ (in_map (translate t) _ _ Hpa)) as Ia.
  pose proof (Hint _ (in_map (translate t) _ _ Hpb)) as Ib.
  pose proof (Hint _ (in_map (translate t) _ _ Hpc)) as Ic.
  pose proof (Hint _ (in_map (translate t) _ _ Hpd)) as Id.
  pose proof (Hin _ Hra) as Ja. pose proof (Hin _ Hrb) as Jb.
  pose proof (Hin _ Hrc) as Jc. pose proof (Hin _ Hrd) as Jd.
  unfold translate in *. cbn [fst snd] in *.
  assert (a' = a + fst t)%R by lra.
  assert (b' = b + fst t)%R by lra.
  assert (c' = c + snd t)%R by lra.
  assert (d' = d + snd t)%R by lra.
  subst a' b' c' d'. f_equal; f_equal; lra.
Qed.

Lemma nsub_translate (x y d : R) : Fin (x + d) - Fin (y + d) = Fin x - Fin y.
Proof. cbn [nsub nadd nneg]. f_equal. lra. Qed.

Lemma edge_loop_translate (t : rpoint) (mnX mxX : R) (l : list rpoint) (k : nat)
    (st : nat * nat * num * num) :
  fold_left (edgeStep (Fin (mnX + fst t)) (Fin (mxX + fst t)))
            (combine (List.seq k (List.length l)) (fin_points (map (translate t) l))) st
  = fold_left (edgeStep (Fin mnX) (Fin mxX))
              (combine (List.seq k (List.length l)) (fin_points l)) st.
Proof.
  revert k st. induction l as [| [x y] l IH]; intros k st; [reflexivity |].
  cbn [List.length List.seq map fin_points combine fold_left].
  fold (fin_points (map (translate t) l)). fold (fin_points l).
  rewrite IH. f_equal.
  destruct st as [[[iLE iTE] dLE] dTE]. unfold edgeStep.
  cbn [fin_point translate p0 fst snd]. rewrite !nsub_translate. reflexivity.
Qed.

Lemma side_loop_translate (t pLE : rpoint) (nx ny : num) (l : list rpoint)
    (st : num * num * num * num * num) :
  fold_left (sideStep (fin_point (translate t pLE)) nx ny)
            (fin_points (map (translate t) l)) st
  = fold_left (sideStep (fin_point pLE) nx ny) (fin_points l) st.
Proof.
  revert st. induction l as [| [x y] l IH]; intros st; [reflexivity |].
  cbn [map fin_points fold_left].
  fold (fin_points (map (translate t) l)). fold (fin_points l).
  rewrite IH. f_equal.
  destruct st as [[[[uA lA] sY] mU] mL]. unfold sideStep.
  cbn [fin_point translate p0 p1 fst snd]. rewrite !nsub_translate. reflexivity.
Qed.

(** The analysis of a moved polygon in its moved box is the analysis of
    the polygon. *)
Lemma analyzeGeometry_translate (t : rpoint) (pts : list rpoint)
    (w h mnX mxX mnY mxY : R) :
  analyzeGeometry (fin_points (map (translate t) pts))
    {| width := w; height := h;
       minX := Fin (mnX + fst t); maxX := Fin (mxX + fst t);
       minY := Fin (mnY + snd t); maxY := Fin (mxY + snd t) |}
  = analyzeGeometry (fin_points pts)
      {| width := w; height := h;
         minX := Fin mnX; maxX := Fin mxX; minY := Fin mnY; maxY := Fin mxY |}.
Proof.
  unfold analyzeGeometry. cbn [minX maxX height].
  rewrite nsub_translate.
  destruct (_ === 0); [reflexivity |].
  rewrite !length_fin_points, length_map, edge_loop_translate.
  destruct (fold_left _ _ _) as [[[iLE iTE] dLE] dTE].
  unfold fin_points. rewrite !nth_error_map.
  destruct (nth_error pts iLE) as [pL |]; [| reflexivity].
  destruct (nth_error pts iTE) as [pT |]; [| reflexivity].
  cbn [option_map].
  rewrite !(map_nth fin_point), !(map_nth (translate t)).
  fold (fin_points (map (translate t) pts)). fold (fin_points pts).
  rewrite side_loop_translate.
  cbn [fin_point translate p0 p1 fst snd]. rewrite !nsub_translate.
  reflexivity.
Qed.

Lemma normalizeAngle_returns_fin (v : option num) (a : num) :
  normalizeAngle (or_default v 0) = Returns a -> exists r : R, a = Fin r.
Proof.
  unfold or_default, truthy.
  destruct v as [[x | | |] |]; cbn [ToNumber].
  - destruct (negb (Reqb x 0)); intros H;
      destruct (normalizeAngle_returned _ _ H) as (a' & -> & _); eexists; reflexivity.
  - discriminate.
  - discriminate.
  - intros H. destruct (normalizeAngle_returned _ _ H) as (a' & -> & _).
    eexists. reflexivity.
  - intros H. destruct (normalizeAngle_returned _ _ H) as (a' & -> & _).
    eexists. reflexivity.
Qed.

(** X16.  The solve operation does not depend on where the polygon lies:
    for finite coordinates, moving all points by the same vector leaves
    the outcome of [calculateDrag], and so the answer of the route,
    unchanged; the geometry analysis of the moved polygon in its own box
    is that of the polygon. *)
Theorem solve_ignores_position (t : rpoint) (rpts : list rpoint) (params : Params) :
  calculateDrag (fin_points (map (translate t) rpts)) params
  = calculateDrag (fin_points rpts) params
  /\ simulate (request (fin_points (map (translate t) rpts)) params)
     = simulate (request (fin_points rpts) params)
  /\ analyzeGeometry (fin_points (map (translate t) rpts))
                     (getBoundingBox (fin_points (map (translate t) rpts)))
     = analyzeGeometry (fin_points rpts) (getBoundingBox (fin_points rpts)).
Proof.
  assert (Hgeo : analyzeGeometry (fin_points (map (translate t) rpts))
                                 (getBoundingBox (fin_points (map (translate t) rpts)))
                 = analyzeGeometry (fin_points rpts) (getBoundingBox (fin_points rpts))).
  { destruct rpts as [| p rpts]; [reflexivity |].
    destruct (getBoundingBox_translate t (p :: rpts)) as (a & b & c & d & -> & ->);
      [discriminate |].
    apply analyzeGeometry_translate. }
  assert (Hsolve : calculateDrag (fin_points (map (translate t) rpts)) params
                   = calculateDrag (fin_points rpts) params).
  { destruct rpts as [| p rpts]; [reflexivity |].
    set (pts := p :: rpts) in *.
    unfold calculateDrag.
    destruct (normalizeAngle (or_default (angle params) 0)) as [a | |] eqn:Hnorm;
      cbn [bind]; try reflexivity.
    destruct (normalizeAngle_returns_fin _ _ Hnorm) as [ang ->].
    rewrite Hgeo.
    rewrite rotatePoints_translate, rotatePoints_about_mean.
    destruct (getBoundingBox_translate t
                (map (rotate_about (mean_point pts) (cos (ang * PI / 180))
                                   (sin (ang * PI / 180))) pts))
      as (a & b & c & d & -> & ->); [discriminate |].
    rewrite !calculatePolygonArea_fin, shoelace_translate.
    unfold classifyShape. cbn [width height].
    rewrite !length_fin_points, length_map.
    reflexivity. }
  split; [exact Hsolve |]. split; [| exact Hgeo].
  unfold simulate, request. cbn [shape parameters points]. rewrite Hsolve. reflexivity.
Qed.

(** *** Shape type and Strouhal number of a result *)

Lemma classifyShape_cases (pts : list point) (bounds : BoundingBox) (sol : num) :
  classifyShape pts bounds sol = "circular"%string
  \/ classifyShape pts bounds sol = "rectangular"%string
     /\ List.length pts = 4%nat /\ (sol >? 0.85) = true
  \/ classifyShape pts bounds sol = "streamlined"%string
  \/ classifyShape pts bounds sol = "bluff"%string.
Proof.
  unfold classifyShape.
  destruct (_ && _ && _ && _); [left; reflexivity |].
  destruct (sol >? 0.85) eqn:Hsol; cbn [andb].
  - destruct (Nat.eqb_spec (List.length pts) 4) as [Hlen | Hlen].
    + right. left. repeat split; assumption.
    + destruct (_ || _); [right; right; left | right; right; right]; reflexivity.
  - destruct (_ || _); [right; right; left | right; right; right]; reflexivity.
Qed.

Lemma calculateDrag_strouhal (pts : list point) (params : Params) (a : num) (r : Result) :
  normalizeAngle (or_default (angle params) 0) = Returns a ->
  calculateDrag pts params = Returns r ->
  exists (sol re : num),
    shapeType r = classifyShape pts (getBoundingBox (rotatePoints pts a)) sol
    /\ strouhal r = toFixed (calculateStrouhal (shapeType r) re) 3.
Proof.
  intros Hnorm H. unfold calculateDrag in H. rewrite Hnorm in H. cbn [bind] in H.
  destruct (analyzeGeometry _ _) as [g | |]; cbn [bind] in H; try discriminate.
  destruct (camber g) as [c |]; cbn [toFixed_prop bind] in H; try discriminate.
  injection H as <-. cbn [shapeType strouhal parseFloat_toFixed].
  eexists _, _. split; reflexivity.
Qed.

Lemma toFixed_3_exact_thousandth (z : Z) (v : R) :
  (0 <= v < 1000)%R -> (v * 1000 = IZR z)%R -> toFixed (Fin v) 3 = Fin v.
Proof.
  intros Hv Hz. apply (toFixed_exact z).
  - rewrite Rabs_pos_eq; lra.
  - simpl. lra.
Qed.

(** X17.  Every result of the solve operation has one of the four shape
    types, "rectangular" only for a polygon of exactly four points, and
    its Strouhal number is the one of its shape type: 0.1 or 0.2 for
    "circular", 0.15 for "rectangular", 0.1 for "streamlined" and 0.18
    for "bluff". *)
Theorem result_shape_and_strouhal (pts : list point) (params : Params) (r : Result) :
  calculateDrag pts params = Returns r ->
  (shapeType r = "circular"%string /\ (strouhal r = Fin 0.1 \/ strouhal r = Fin 0.2))
  \/ (shapeType r = "rectangular"%string /\ strouhal r = Fin 0.15
      /\ List.length pts = 4%nat)
  \/ (shapeType r = "streamlined"%string /\ strouhal r = Fin 0.1)
  \/ (shapeType r = "bluff"%string /\ strouhal r = Fin 0.18).
Proof.
  intros H.
  destruct (normalizeAngle (or_default (angle params) 0)) as [a | |] eqn:Hnorm;
    try (unfold calculateDrag in H; rewrite Hnorm in H; discriminate).
  destruct (calculateDrag_strouhal pts params a r Hnorm H) as (sol & re & Hshape & Hst).
  assert (H01 : toFixed (Fin 0.1) 3 = Fin 0.1)
    by (apply (toFixed_3_exact_thousandth 100); lra).
  assert (H02 : toFixed (Fin 0.2) 3 = Fin 0.2)
    by (apply (toFixed_3_exact_thousandth 200); lra).
  assert (H015 : toFixed (Fin 0.15) 3 = Fin 0.15)
    by (apply (toFixed_3_exact_thousandth 150); lra).
  assert (H018 : toFixed (Fin 0.18) 3 = Fin 0.18)
    by (apply (toFixed_3_exact_thousandth 180); lra).
  destruct (classifyShape_cases pts (getBoundingBox (rotatePoints pts a)) sol)
    as [Hc | [(Hc & Hlen & _) | [Hc | Hc]]];
    rewrite Hc in Hshape; rewrite Hshape in Hst |- *;
    unfold calculateStrouhal in Hst; cbn [String.eqb Ascii.eqb Bool.eqb] in Hst.
  - left. split; [reflexivity |].
    destruct (re <? 100); [left; rewrite Hst; exact H01 | right; rewrite Hst; exact H02].
  - right. left. repeat split; [rewrite Hst; exact H015 | exact Hlen].
  - right. right. left. split; [reflexivity | rewrite Hst; exact H01].
  - right. right. right. split; [reflexivity | rewrite Hst; exact H018].
Qed.

Lemma result_shape_and_strouhal_witness :
  exists r : Result,
    calculateDrag (fin_points blunt_wedge) (standard_params 0) = Returns r
    /\ shapeType r = "streamlined"%string /\ strouhal r = Fin 0.1.
Proof.
  destruct wedge_solve as (r & Hr & Hs & _).
  exists r. split; [exact Hr |].
  destruct (result_shape_and_strouhal (fin_points blunt_wedge) (standard_params 0) r Hr)
    as [[Hc _] | [(Hc & _) | [Hc | [Hc _]]]];
    try (rewrite Hs in Hc; discriminate).
  exact Hc.
Defined.

(** *** The smoothing of the drawn outline *)

Lemma flat_map_singleton_nth {A : Type} (l : list A) (d : A) :
  flat_map (fun i => [nth i l d]) (List.seq 0 (List.length l)) = l.
Proof.
  induction l as [| a l IH]; [reflexivity |].
  cbn [List.length List.seq flat_map app]. f_equal.
  rewrite <- seq_shift, flat_map_concat_map, map_map, <- flat_map_concat_map.
  exact IH.
Qed.

Lemma flat_map_length_bounds {A : Type} (f : nat -> list A) (l : list nat) :
  (forall i, In i l -> (1 <= List.length (f i) <= 2)%nat) ->
  (List.length l <= List.length (flat_map f l) <= 2 * List.length l)%nat.
Proof.
  induction l as [| i l IH]; intros H; [simpl; lia |].
  cbn [flat_map]. rewrite length_app. cbn [List.length].
  assert (1 <= List.length (f i) <= 2)%nat by (apply H; left; reflexivity).
  assert (List.length l <= List.length (flat_map f l) <= 2 * List.length l)%nat
    by (apply IH; intros j Hj; apply H; right; exact Hj).
  lia.
Qed.

Lemma flat_map_length_double {A : Type} (f : nat -> list A) (l : list nat) :
  (forall i, In i l -> List.length (f i) = 2%nat) ->
  List.length (flat_map f l) = (2 * List.length l)%nat.
Proof.
  induction l as [| i l IH]; intros H; [reflexivity |].
  cbn [flat_map]. rewrite length_app. cbn [List.length].
  rewrite (H i) by (left; reflexivity).
  rewrite IH by (intros j Hj; apply H; right; exact Hj). lia.
Qed.

Lemma flat_map_ext_in_list {A B : Type} (f g : A -> list B) (l : list A) :
  (forall a, In a l -> f a = g a) -> flat_map f l = flat_map g l.
Proof.
  induction l as [| a l IH]; intros H; [reflexivity |].
  cbn [flat_map]. rewrite (H a) by (left; reflexivity).
  rewrite IH by (intros b Hb; apply H; right; exact Hb). reflexivity.
Qed.

(** A pass leaves an outline without smooth vertices as it is. *)
Lemma smoothPass_sharp (l : list Canvas.CurvePoint) :
  (forall p, In p l -> Canvas.isSmooth p = false) -> Canvas.smoothPass l = l.
Proof.
  intros H. unfold Canvas.smoothPass.
  transitivity (flat_map (fun i => [nth i l Canvas.undefined_point])
                         (List.seq 0 (List.length l)));
    [| apply flat_map_singleton_nth].
  apply flat_map_ext_in_list. intros i Hi. apply in_seq in Hi.
  rewrite (H (nth i l Canvas.undefined_point)) by (apply nth_In; lia).
  reflexivity.
Qed.

Lemma smoothPass_length (l : list Canvas.CurvePoint) :
  (List.length l <= List.length (Canvas.smoothPass l) <= 2 * List.length l)%nat.
Proof.
  unfold Canvas.smoothPass.
  match goal with
  | |- context [flat_map ?f ?s] =>
      pose proof (flat_map_length_bounds f s) as Hb
  end.
  rewrite length_seq in Hb. apply Hb. intros i _.
  destruct (Canvas.isSmooth _); simpl; lia.
Qed.

Lemma smoothPass_smooth (l : list Canvas.CurvePoint) :
  (forall p, In p l -> Canvas.isSmooth p = true) ->
  List.length (Canvas.smoothPass l) = (2 * List.length l)%nat
  /\ forall q, In q (Canvas.smoothPass l) -> Canvas.isSmooth q = true.
Proof.
  intros H. unfold Canvas.smoothPass. split.
  - match goal with
    | |- context [flat_map ?f ?s] =>
        pose proof (flat_map_length_double f s) as Hd
    end.
    rewrite length_seq in Hd. apply Hd. intros i Hi. apply in_seq in Hi.
    rewrite (H (nth i l Canvas.undefined_point)) by (apply nth_In; lia).
    reflexivity.
  - intros q Hq. apply in_flat_map in Hq. destruct Hq as (i & Hi & Hq).
    apply in_seq in Hi.
    rewrite (H (nth i l Canvas.undefined_point)) in Hq by (apply nth_In; lia).
    destruct Hq as [<- | [<- | []]]; reflexivity.
Qed.

(** A pass keeps the vertices inside a rectangle that holds them all. *)
Lemma smoothPass_within (loX hiX loY hiY : R) (l : list Canvas.CurvePoint) :
  (forall p, In p l -> Canvas.within loX hiX loY hiY p) ->
  forall q, In q (Canvas.smoothPass l) -> Canvas.within loX hiX loY hiY q.
Proof.
  intros H q Hq. unfold Canvas.smoothPass in Hq.
  apply in_flat_map in Hq. destruct Hq as (i & Hi & Hq). apply in_seq in Hi.
  assert (H1 : In (nth i l Canvas.undefined_point) l) by (apply nth_In; lia).
  assert (H2 : In (nth ((i + 1) mod List.length l) l Canvas.undefined_point) l).
  { apply nth_In. apply Nat.mod_upper_bound. lia. }
  destruct (H _ H1) as (a1 & b1 & Hx1 & Hy1 & Ha1 & Hb1).
  destruct (H _ H2) as (a2 & b2 & Hx2 & Hy2 & Ha2 & Hb2).
  destruct (Canvas.isSmooth _).
  - rewrite Hx1, Hy1, Hx2, Hy2 in Hq.
    destruct Hq as [<- | [<- | []]]; eexists _, _; cbn [Canvas.x Canvas.y nmul nadd];
      (split; [reflexivity |]); (split; [reflexivity |]); lra.
  - destruct Hq as [<- | []]. exists a1, b1. repeat split; assumption || lra.
Qed.

Lemma smoothLoop_sharp (k : nat) (l : list Canvas.CurvePoint) :
  (forall p, In p l -> Canvas.isSmooth p = false) -> Canvas.smoothLoop k l = l.
Proof.
  intros H. induction k as [| k IH]; [reflexivity |].
  cbn [Canvas.smoothLoop]. rewrite smoothPass_sharp by exact H. exact IH.
Qed.

Lemma smoothLoop_length (k : nat) (l : list Canvas.CurvePoint) :
  (List.length l <= List.length (Canvas.smoothLoop k l) <= List.length l * 2 ^ k)%nat.
Proof.
  revert l. induction k as [| k IH]; intros l.
  - simpl. lia.
  - cbn [Canvas.smoothLoop]. specialize (IH (Canvas.smoothPass l)).
    pose proof (smoothPass_length l) as Hp.
    rewrite Nat.pow_succ_r'.
    assert (List.length (Canvas.smoothPass l) * 2 ^ k
            <= 2 * List.length l * 2 ^ k)%nat by (apply Nat.mul_le_mono_r; lia).
    lia.
Qed.

Lemma smoothLoop_smooth (k : nat) (l : list Canvas.CurvePoint) :
  (forall p, In p l -> Canvas.isSmooth p = true) ->
  List.length (Canvas.smoothLoop k l) = (List.length l * 2 ^ k)%nat
  /\ forall q, In q (Canvas.smoothLoop k l) -> Canvas.isSmooth q = true.
Proof.
  revert l. induction k as [| k IH]; intros l H.
  - simpl. split; [lia | exact H].
  - cbn [Canvas.smoothLoop].
    destruct (smoothPass_smooth l H) as [Hlen Hall].
    destruct (IH _ Hall) as [Hlen' Hall'].
    split; [| exact Hall'].
    rewrite Hlen', Hlen, Nat.pow_succ_r'. lia.
Qed.

Lemma smoothLoop_within (loX hiX loY hiY : R) (k : nat) (l : list Canvas.CurvePoint) :
  (forall p, In p l -> Canvas.within loX hiX loY hiY p) ->
  forall q, In q (Canvas.smoothLoop k l) -> Canvas.within loX hiX loY hiY q.
Proof.
  revert l. induction k as [| k IH]; intros l H; [exact H |].
  cbn [Canvas.smoothLoop]. apply IH. apply smoothPass_within. exact H.
Qed.

(** X18.  [getCurvePoints] returns the outline it is given when the
    outline has fewer than three vertices and when none of its vertices
    is smooth, whatever the number of passes. *)
Theorem smoothing_keeps_sharp_outline
    (points : list Canvas.CurvePoint) (iterations : option nat) :
  ((List.length points < 3)%nat -> Canvas.getCurvePoints points iterations = points)
  /\ ((forall p, In p points -> Canvas.isSmooth p = false) ->
      Canvas.getCurvePoints points iterations = points).
Proof.
  unfold Canvas.getCurvePoints. split.
  - intros H. apply Nat.ltb_lt in H. rewrite H. reflexivity.
  - intros H. destruct (_ <? 3)%nat; [reflexivity |]. apply smoothLoop_sharp. exact H.
Qed.

Lemma smoothing_keeps_sharp_outline_witness :
  Canvas.getCurvePoints
    [ {| Canvas.x := 0; Canvas.y := 0; Canvas.isSmooth := false |};
      {| Canvas.x := 4; Canvas.y := 0; Canvas.isSmooth := false |};
      {| Canvas.x := 0; Canvas.y := 4; Canvas.isSmooth := false |} ] (Some 4%nat)
  = [ {| Canvas.x := 0; Canvas.y := 0; Canvas.isSmooth := false |};
      {| Canvas.x := 4; Canvas.y := 0; Canvas.isSmooth := false |};
      {| Canvas.x := 0; Canvas.y := 4; Canvas.isSmooth := false |} ].
Proof.
  apply (proj2 (smoothing_keeps_sharp_outline _ (Some 4%nat))).
  intros p Hp. simpl in Hp. destruct Hp as [<- | [<- | [<- | []]]]; reflexivity.
Defined.

(** X19.  With [k] passes [getCurvePoints] returns at least as many
    vertices as it is given and at most [2^k] times as many; for an
    outline of three or more vertices that are all smooth it returns
    exactly [2^k] times as many, all smooth; without a number of passes
    it makes three. *)
Theorem smoothing_vertex_count (points : list Canvas.CurvePoint) (k : nat) :
  (List.length points <= List.length (Canvas.getCurvePoints points (Some k))
   <= List.length points * 2 ^ k)%nat
  /\ ((3 <= List.length points)%nat ->
      (forall p, In p points -> Canvas.isSmooth p = true) ->
      List.length (Canvas.getCurvePoints points (Some k))
      = (List.length points * 2 ^ k)%nat
      /\ forall q, In q (Canvas.getCurvePoints points (Some k)) ->
                   Canvas.isSmooth q = true)
  /\ Canvas.getCurvePoints points None = Canvas.getCurvePoints points (Some 3%nat).
Proof.
  unfold Canvas.getCurvePoints. split; [| split; [| reflexivity]].
  - destruct (_ <? 3)%nat.
    + assert (1 <= 2 ^ k)%nat by (apply Nat.neq_0_lt_0, Nat.pow_nonzero; lia). nia.
    + apply smoothLoop_length.
  - intros Hlen Hall.
    assert (Hge : (List.length points <? 3)%nat = false) by (apply Nat.ltb_ge; lia).
    rewrite Hge. apply smoothLoop_smooth. exact Hall.
Qed.

Lemma smoothing_vertex_count_witness :
  List.length
    (Canvas.getCurvePoints
       [ {| Canvas.x := 0; Canvas.y := 0; Canvas.isSmooth := true |};
         {| Canvas.x := 4; Canvas.y := 0; Canvas.isSmooth := true |};
         {| Canvas.x := 0; Canvas.y := 4; Canvas.isSmooth := true |} ] (Some 4%nat))
  = 48%nat.
Proof.
  refine (proj1 (proj1 (proj2 (smoothing_vertex_count _ 4)) _ _)).
  - simpl. lia.
  - intros p Hp. simpl in Hp. destruct Hp as [<- | [<- | [<- | []]]]; reflexivity.
Defined.

(** X20.  Smoothing never leaves the rectangle of the drawn outline: when
    the coordinates of all vertices are finite and lie in a rectangle,
    so do the coordinates of every vertex that [getCurvePoints]
    returns. *)
Theorem smoothing_stays_within
    (loX hiX loY hiY : R) (points : list Canvas.CurvePoint) (iterations : option nat) :
  (forall p, In p points -> Canvas.within loX hiX loY hiY p) ->
  forall q, In q (Canvas.getCurvePoints points iterations) ->
            Canvas.within loX hiX loY hiY q.
Proof.
  intros H. unfold Canvas.getCurvePoints.
  destruct (_ <? 3)%nat; [exact H |]. apply smoothLoop_within. exact H.
Qed.

Lemma smoothing_stays_within_witness :
  Forall (Canvas.within 0 4 0 4)
         (Canvas.getCurvePoints
            [ {| Canvas.x := 0; Canvas.y := 0; Canvas.isSmooth := true |};
              {| Canvas.x := 4; Canvas.y := 0; Canvas.isSmooth := false |};
              {| Canvas.x := 0; Canvas.y := 4; Canvas.isSmooth := true |} ] None).
Proof.
  apply Forall_forall. apply smoothing_stays_within.
  intros p Hp. simpl in Hp.
  destruct Hp as [<- | [<- | [<- | []]]]; eexists _, _; cbn [Canvas.x Canvas.y];
    (split; [reflexivity |]); (split; [reflexivity |]); lra.
Defined.

(** *** The coefficient tables of the 3D engine *)

Lemma sphere_drag_value (re : R) :
  (1 <= re)%R ->
  Physics3D.getDragCoefficient3D "SphereGeometry" (Fin re)
  = Fin (if Rltb re 2e5 then 0.47
         else if Rltb re 5e5
              then 0.47 * (1 - (re - 2e5) / (5e5 - 2e5)) + 0.2 * ((re - 2e5) / (5e5 - 2e5))
              else 0.2).
Proof.
  intros Hre. unfold Physics3D.getDragCoefficient3D.
  simpl String.eqb. cbv iota. cbn [nlt].
  rewrite (Rltb_false re 1) by lra.
  destruct (Rltb re 2e5); [reflexivity |].
  destruct (Rltb re 5e5); [| reflexivity].
  rewrite !nsub_fin, ndiv_fin by lra. rewrite !nsub_fin, !nmul_fin, nadd_fin.
  reflexivity.
Qed.

(** X21.  The 3D drag table for a Reynolds number of at least 1: the
    coefficient of a sphere lies in [0.2, 0.47], does not increase with
    the Reynolds number, and passes through the drag crisis without a
    jump (0.47 at 2e5, 0.2 at 5e5); for every geometry type the
    coefficient lies in [0.2, 1.2]. *)
Theorem drag_table_3d :
  (forall re1 re2 : R, (1 <= re1 <= re2)%R ->
     exists c1 c2 : R,
       Physics3D.getDragCoefficient3D "SphereGeometry" (Fin re1) = Fin c1
       /\ Physics3D.getDragCoefficient3D "SphereGeometry" (Fin re2) = Fin c2
       /\ (0.2 <= c2 <= c1)%R /\ (c1 <= 0.47)%R)
  /\ Physics3D.getDragCoefficient3D "SphereGeometry" (Fin 2e5) = Fin 0.47
  /\ Physics3D.getDragCoefficient3D "SphereGeometry" (Fin 5e5) = Fin 0.2
  /\ (forall (geometryType : string) (re : R), (1 <= re)%R ->
        exists c : R,
          Physics3D.getDragCoefficient3D geometryType (Fin re) = Fin c
          /\ (0.2 <= c <= 1.2)%R).
Proof.
  assert (Hval : forall re : R, (1 <= re)%R ->
            exists c : R,
              Physics3D.getDragCoefficient3D "SphereGeometry" (Fin re) = Fin c
              /\ (0.2 <= c <= 0.47)%R
              /\ (re < 2e5 -> c = 0.47)%R
              /\ (2e5 <= re < 5e5 ->
                  c = 0.47 * (1 - (re - 2e5) / (5e5 - 2e5))
                      + 0.2 * ((re - 2e5) / (5e5 - 2e5)))%R
              /\ (5e5 <= re -> c = 0.2)%R).
  { intros re Hre. rewrite sphere_drag_value by exact Hre.
    eexists. split; [reflexivity |].
    destruct (Rltb_spec re 2e5); [repeat split; intros; lra |].
    destruct (Rltb_spec re 5e5); repeat split; intros; lra. }
  split; [| split; [| split]].
  - intros re1 re2 [H1 H12].
    destruct (Hval re1 H1) as (c1 & -> & Hr1 & Ha1 & Hb1 & Hc1).
    destruct (Hval re2 ltac:(lra)) as (c2 & -> & Hr2 & Ha2 & Hb2 & Hc2).
    exists c1, c2. split; [reflexivity |]. split; [reflexivity |].
    split; [| lra]. split; [lra |].
    destruct (Rlt_le_dec re2 2e5) as [L2 | G2].
    + rewrite (Ha2 L2), (Ha1 ltac:(lra)). lra.
    + destruct (Rlt_le_dec re2 5e5) as [L5 | G5].
      * rewrite (Hb2 ltac:(lra)).
        destruct (Rlt_le_dec re1 2e5) as [L1 | G1].
        -- rewrite (Ha1 L1). lra.
        -- rewrite (Hb1 ltac:(lra)). lra.
      * rewrite (Hc2 G5). lra.
  - rewrite sphere_drag_value by lra.
    rewrite Rltb_false, Rltb_true by lra. f_equal. lra.
  - rewrite sphere_drag_value by lra.
    rewrite !Rltb_false by lra. reflexivity.
  - intros geometryType re Hre.
    destruct (String.eqb_spec geometryType "SphereGeometry") as [-> | Hns].
    + destruct (Hval re Hre) as (c & -> & Hr & _). exists c. split; [reflexivity | lra].
    + unfold Physics3D.getDragCoefficient3D.
      apply String.eqb_neq in Hns. rewrite Hns.
      destruct (String.eqb geometryType "BoxGeometry");
        [eexists; split; [reflexivity | lra] |].
      destruct (String.eqb geometryType "CylinderGeometry");
        [eexists; split; [reflexivity | lra] |].
      destruct (String.eqb geometryType "ConeGeometry");
        [eexists; split; [reflexivity | lra] |].
      destruct (String.eqb geometryType "TorusGeometry");
        eexists; (split; [reflexivity | lra]).
Qed.

Lemma drag_table_3d_witness :
  exists c : R,
    Physics3D.getDragCoefficient3D "ConeGeometry" (Fin 1000) = Fin c
    /\ (0.2 <= c <= 1.2)%R.
Proof.
  apply (proj2 (proj2 (proj2 drag_table_3d)) "ConeGeometry"%string 1000%R). lra.
Defined.

(** X22.  The 3D lift table is odd in a finite angle of attack, stays
    within [-0.5, 0.5], does not depend on the Reynolds number, and is 0
    at angle 0. *)
Theorem lift_table_3d (geometryType : string) (a : R) (reynolds reynolds' : num) :
  (exists c : R,
      Physics3D.getLiftCoefficient3D geometryType (Fin a) reynolds = Fin c
      /\ Physics3D.getLiftCoefficient3D geometryType (Fin (- a)) reynolds' = Fin (- c)
      /\ (- 0.5 <= c <= 0.5)%R)
  /\ Physics3D.getLiftCoefficient3D geometryType (Fin 0) reynolds = Fin 0.
Proof.
  assert (Hsin2 : sin (2 * (- a * PI / 180)) = (- sin (2 * (a * PI / 180)))%R).
  { replace (2 * (- a * PI / 180))%R with (- (2 * (a * PI / 180)))%R by lra.
    apply sin_neg. }
  assert (Hzero : sin (2 * (0 * PI / 180)) = 0%R).
  { replace (2 * (0 * PI / 180))%R with 0%R by lra. apply sin_0. }
  pose proof (SIN_bound (2 * (a * PI / 180))) as Hb.
  unfold Physics3D.getLiftCoefficient3D.
  rewrite !sin2_angleRad, !nmul_fin, Hsin2, Hzero.
  destruct (String.eqb geometryType "SphereGeometry").
  { split; [| f_equal; lra].
    eexists. split; [reflexivity |]. split; [f_equal; lra | lra]. }
  destruct (_ || _).
  { split; [| f_equal; lra].
    eexists. split; [reflexivity |]. split; [f_equal; lra | lra]. }
  destruct (String.eqb geometryType "ConeGeometry").
  { split; [| f_equal; lra].
    eexists. split; [reflexivity |]. split; [f_equal; lra | lra]. }
  split; [| reflexivity].
  exists 0%R. split; [reflexivity |]. split; [f_equal; lra | lra].
Qed.
